(** * AppSec event pipeline of dd-trace-js: reporter, flush and WAF callback

    A shallow embedding of
    - the AppSec reporter module ([reportAttack], [flush], [getTracerData],
      [resolveHTTPAddresses], [getHeadersToSend]),
    - the WAF callback class of [appsec/callbacks/ddwaf.js]
      ([constructor], [action], [applyResult], [clear]) and
    - the Lambda service of the aws-sdk plugin ([requestInject]),
    followed by the properties that hold of them.  The functions of the
    runtime that the code calls are either parameters of the environment
    ([uuid], [new URL], the clock, the failure of [JSON.stringify]) or
    modelled here ([Date.prototype.toJSON], the document that
    [JSON.stringify] writes). *)

From Stdlib Require Import ZArith Lia Ascii.
From stdpp Require Import base option list strings pretty gmap sorting.

Open Scope string_scope.
Open Scope Z_scope.
Open Scope list_scope.

#[local] Set Warnings "-register-all".

(** ** JavaScript values *)

(** The fragment of JavaScript values that flows through the pipeline.
    Objects are property lists in insertion order. *)
Inductive JSValue : Type :=
| JUndefined
| JNull
| JBool (b : bool)
| JNum (n : Z)
| JStr (s : string)
| JArr (xs : list JSValue)
| JObj (props : list (string * JSValue)).

Inductive JSError : Type :=
| TypeError (msg : string)
| RangeError (msg : string)
| Error (msg : string).

(** ToBoolean. *)
Definition truthy (v : JSValue) : bool :=
  match v with
  | JUndefined | JNull => false
  | JBool b => b
  | JNum n => negb (n =? 0)
  | JStr s => negb (String.eqb s "")
  | JArr _ | JObj _ => true
  end.

Fixpoint join (sep : string) (l : list string) : string :=
  match l with
  | [] => ""
  | [x] => x
  | x :: rest => x +:+ sep +:+ join sep rest
  end.

(** ToString, as applied by template literals and by [new URL]. *)
Fixpoint ToString (v : JSValue) : string :=
  match v with
  | JUndefined => "undefined"
  | JNull => "null"
  | JBool true => "true"
  | JBool false => "false"
  | JNum n => pretty n
  | JStr s => s
  | JArr xs =>
      join ","
        ((fix elems (l : list JSValue) : list string :=
            match l with
            | [] => []
            | JUndefined :: r => "" :: elems r
            | JNull :: r => "" :: elems r
            | x :: r => ToString x :: elems r
            end) xs)
  | JObj _ => "[object Object]"
  end.

Fixpoint assoc (k : string) (ps : list (string * JSValue)) : option JSValue :=
  match ps with
  | [] => None
  | (k', v) :: r => if String.eqb k k' then Some v else assoc k r
  end.

(** [o[k]] on a value that is known not to be undefined or null: a
    property that is not there reads as undefined. *)
Definition prop (o : JSValue) (k : string) : JSValue :=
  match o with
  | JObj ps => default JUndefined (assoc k ps)
  | _ => JUndefined
  end.

(** [o[k] = v] on a property list. *)
Fixpoint set_prop (k : string) (v : JSValue) (ps : list (string * JSValue))
  : list (string * JSValue) :=
  match ps with
  | [] => [(k, v)]
  | (k', v') :: r =>
      if String.eqb k k' then (k, v) :: r else (k', v') :: set_prop k v r
  end.

(** [s.split(c)[0]]: the part of [s] before the first [c]. *)
Fixpoint split_first (c : Ascii.ascii) (s : string) : string :=
  match s with
  | EmptyString => EmptyString
  | String a r => if Ascii.eqb a c then EmptyString else String a (split_first c r)
  end.

(** The document that [JSON.stringify] writes for a value, as a tree:
    a property whose value is undefined is left out, an undefined array
    element is written as null. *)
Fixpoint JSON_tree (v : JSValue) : JSValue :=
  match v with
  | JArr xs =>
      JArr ((fix elems (l : list JSValue) : list JSValue :=
               match l with
               | [] => []
               | JUndefined :: r => JNull :: elems r
               | x :: r => JSON_tree x :: elems r
               end) xs)
  | JObj ps =>
      JObj ((fix members (l : list (string * JSValue)) : list (string * JSValue) :=
               match l with
               | [] => []
               | (_, JUndefined) :: r => members r
               | (k, x) :: r => (k, JSON_tree x) :: members r
               end) ps)
  | _ => v
  end.

(** A key is present in a serialized object. *)
Definition has_key (k : string) (o : JSValue) : bool :=
  match o with
  | JObj ps => bool_decide (is_Some (assoc k ps))
  | _ => false
  end.

(** ** [Date.prototype.toJSON] *)

(** The decimal digit of the units of [x]. *)
Definition digit_char (x : Z) : Ascii.ascii :=
  Ascii.ascii_of_N (48 + Z.to_N (x mod 10)).

(** [x] written with 2, 3, 4 and 6 decimal digits, in front of [rest]. *)
Definition pad2 (x : Z) (rest : string) : string :=
  String (digit_char (x / 10)) (String (digit_char x) rest).
Definition pad3 (x : Z) (rest : string) : string :=
  String (digit_char (x / 100)) (pad2 x rest).
Definition pad4 (x : Z) (rest : string) : string :=
  String (digit_char (x / 1000)) (pad3 x rest).
Definition pad6 (x : Z) (rest : string) : string :=
  String (digit_char (x / 100000)) (String (digit_char (x / 10000)) (pad4 x rest)).

Definition msPerDay : Z := 86400000.

(** The proleptic Gregorian calendar, over 400-year eras that start on
    a first of March: the year of the era and the day of that year of the
    day [doe] of an era, and the month and the day of the month of the
    day [doy] of a year that starts in March. *)
Definition year_of_era (doe : Z) : Z :=
  (doe - doe / 1460 + doe / 36524 - doe / 146096) / 365.
Definition day_of_year (doe : Z) : Z :=
  let yoe := year_of_era doe in
  doe - (365 * yoe + yoe / 4 - yoe / 100).
Definition month_of_year_day (doy : Z) : Z :=
  let mp := (5 * doy + 2) / 153 in
  if mp <? 10 then mp + 3 else mp - 9.
Definition date_of_year_day (doy : Z) : Z :=
  let mp := (5 * doy + 2) / 153 in
  doy - (153 * mp + 2) / 5 + 1.

(** Year, month and day of the month of a day counted from the epoch
    (ECMAScript's YearFromTime, MonthFromTime and DateFromTime). *)
Definition civil_from_days (day : Z) : Z * Z * Z :=
  let z := day + 719468 in
  let era := z / 146097 in
  let doe := z mod 146097 in
  let doy := day_of_year doe in
  let m := month_of_year_day doy in
  let y := year_of_era doe + era * 400 in
  (if m <=? 2 then y + 1 else y, m, date_of_year_day doy).

(** [Date.prototype.toISOString] on a time value [t], in milliseconds
    since the epoch: YYYY-MM-DDTHH:mm:ss.sssZ, with the expanded year
    ±YYYYYY outside the years 0 to 9999. *)
Definition toISOString (t : Z) : string :=
  let '(y, m, d) := civil_from_days (t / msPerDay) in
  let ms := t mod msPerDay in
  let tail :=
    String "-" (pad2 m (String "-" (pad2 d (String "T"
      (pad2 (ms / 3600000) (String ":" (pad2 (ms / 60000 mod 60) (String ":"
        (pad2 (ms / 1000 mod 60) (String "." (pad3 (ms mod 1000) "Z"))))))))))) in
  if (0 <=? y) && (y <=? 9999) then pad4 y tail
  else String (if y <? 0 then "-"%char else "+"%char) (pad6 (Z.abs y) tail).

(** *** Recognizing the ISO-8601 format *)

Definition digit_value (c : Ascii.ascii) : option Z :=
  let n := Z.of_N (Ascii.N_of_ascii c) in
  if (48 <=? n) && (n <=? 57) then Some (n - 48) else None.

(** Reads [k] decimal digits in front of a string: their value and the
    rest of the string. *)
Fixpoint take_digits (k : nat) (acc : Z) (s : string) : option (Z * string) :=
  match k with
  | O => Some (acc, s)
  | S k' =>
      match s with
      | String c r =>
          match digit_value c with
          | Some v => take_digits k' (10 * acc + v) r
          | None => None
          end
      | EmptyString => None
      end
  end.

Definition expect (c : Ascii.ascii) (s : string) : option string :=
  match s with
  | String c' r => if Ascii.eqb c c' then Some r else None
  | EmptyString => None
  end.

(** Reads two digits whose value is between [lo] and [hi]. *)
Definition two_digits (lo hi : Z) (s : string) : option string :=
  p ← take_digits 2 0 s;
  if (lo <=? fst p) && (fst p <=? hi) then Some (snd p) else None.

(** The year in front of a string, with four digits or with a sign and
    six; the rest of the string. *)
Definition take_year (s : string) : option string :=
  snd <$> match s with
          | String "+" r | String "-" r => take_digits 6 0 r
          | _ => take_digits 4 0 s
          end.

(** The string is a calendar date and time of day of ISO 8601 in the
    extended format, in UTC: YYYY-MM-DDTHH:mm:ss.sssZ or, with an expanded
    year, ±YYYYYY-MM-DDTHH:mm:ss.sssZ, the month from 01 to 12, the day
    from 01 to 31, the hour to 23, minute and second to 59. *)
Definition is_ISO_8601 (s : string) : bool :=
  let parsed : option string :=
    s ← take_year s; s ← expect "-" s;
    s ← two_digits 1 12 s; s ← expect "-" s;
    s ← two_digits 1 31 s; s ← expect "T" s;
    s ← two_digits 0 23 s; s ← expect ":" s;
    s ← two_digits 0 59 s; s ← expect ":" s;
    s ← two_digits 0 59 s; s ← expect "." s;
    p ← take_digits 3 0 s; expect "Z" (snd p) in
  match parsed with
  | Some EmptyString => true
  | _ => false
  end.

(** [f] holds of the [n] integers from [z] on. *)
Fixpoint check_from (n : nat) (z : Z) (f : Z → bool) : bool :=
  match n with
  | O => true
  | S k => f z && check_from k (z + 1) f
  end.

(** ** The environment of a call *)

(** The Address Registry ([appsec/addresses]); its values are not part of
    the modelled sources and are taken as given. *)
Record AddressRegistry := {
  HTTP_INCOMING_URL : string;
  HTTP_INCOMING_HEADERS : string;
  HTTP_INCOMING_METHOD : string;
  HTTP_INCOMING_REMOTE_IP : string;
  HTTP_INCOMING_REMOTE_PORT : string;
  OTHER_ADDRESSES : list string
}.

(** [Object.values(Addresses)] *)
Definition Object_values (A : AddressRegistry) : list string :=
  [HTTP_INCOMING_URL A; HTTP_INCOMING_HEADERS A; HTTP_INCOMING_METHOD A;
   HTTP_INCOMING_REMOTE_IP A; HTTP_INCOMING_REMOTE_PORT A] ++ OTHER_ADDRESSES A.

(** Result of evaluating an expression: a value or a thrown error. *)
Inductive Completion (A : Type) : Type :=
| Return (a : A)
| Throw (e : JSError).
Arguments Return {A} a.
Arguments Throw {A} e.

(** The execution context of the gateway engine: [resolve] either yields
    the stored value (undefined included) or throws. *)
Record Context := {
  resolve : string → Completion JSValue
}.

(** [scope._config] *)
Record ScopeConfig := {
  service : JSValue;
  env : JSValue;
  version : JSValue;
  tags : option (list (string * JSValue))   (* None: not an object *)
}.

(** An active span: its identity and what [context().toSpanId()] and
    [context().toTraceId()] return. *)
Record Span := {
  span_ref : nat;
  toSpanId : JSValue;
  toTraceId : JSValue
}.

Record Scope := {
  _config : option ScopeConfig;
  active : option Span
}.

(** [global._ddtrace._tracer._exporter._writer._url] *)
Record Url := {
  protocol : string;
  pathname : string;
  hostname : string;
  port : string
}.

(** Everything ambient that a call reads. *)
Record Env := {
  Addresses : AddressRegistry;
  getContext : option Context;
  (* [global._ddtrace._tracer.scope()]; None when the chain is undefined *)
  tracer_scope : option Scope;
  writer_url : option Url;
  (* [new URL(input, base).href]; None when the constructor throws *)
  URL_href : string → string → option string;
  (* the n-th value returned by [uuid()] *)
  uuid : nat → string;
  (* the time value of the n-th [new Date()], in milliseconds since the epoch *)
  Date_now : nat → Z;
  (* the error that [JSON.stringify] throws on a value, if it throws: a
     RangeError when the text would be longer than a string can be *)
  JSON_stringify_error : JSValue → option JSError;
  os_type : string;
  os_hostname : string;
  process_version : string;
  package_version : JSValue
}.

(** [(new Date()).toJSON()], for the n-th date created. *)
Definition Date_toJSON (w : Env) (n : nat) : string :=
  toISOString (Date_now w n).

(** ** Module state *)

(** An event object: its identity and its (never mutated) content. *)
Record EventObj := {
  obj_id : nat;
  obj_val : JSValue
}.

Inductive LogEntry : Type :=
| LogWarn (msg : string)
| LogError (e : JSError).

(** The body of a flush request: the object given to [JSON.stringify],
    whose text is the [data] of the request. *)
Record Payload := {
  protocol_version : Z;
  idempotency_key : string;
  payload_events : list EventObj
}.

(** The object literal of lines 190 to 194. *)
Definition payload_value (d : Payload) : JSValue :=
  JObj [("protocol_version", JNum (protocol_version d));
        ("idempotency_key", JStr (idempotency_key d));
        ("events", JArr (map obj_val (payload_events d)))].

Record RequestOptions := {
  opt_path : string;
  opt_method : string;
  opt_headers : list (string * string);
  opt_data : Payload;
  opt_socketPath : option string;
  opt_protocol : option string;
  opt_hostname : option string;
  opt_port : option string
}.

Record State := {
  events : list EventObj;          (* the Set [events], in insertion order *)
  lock : bool;
  logs : list LogEntry;            (* what [log] has been given, oldest first *)
  inflight : list RequestOptions;  (* requests handed to the transport, not yet completed *)
  next_obj : nat;                  (* allocation counter for object identities *)
  uuid_calls : nat;
  date_calls : nat;
  span_tags : list (nat * string * JSValue)   (* [setTag] calls: span, key, value *)
}.

Definition init : State :=
  {| events := []; lock := false; logs := []; inflight := [];
     next_obj := 0%nat; uuid_calls := 0%nat; date_calls := 0%nat; span_tags := [] |}.

Definition with_events (f : list EventObj → list EventObj) (s : State) : State :=
  {| events := f (events s); lock := lock s; logs := logs s; inflight := inflight s;
     next_obj := next_obj s; uuid_calls := uuid_calls s; date_calls := date_calls s;
     span_tags := span_tags s |}.

Definition with_lock (b : bool) (s : State) : State :=
  {| events := events s; lock := b; logs := logs s; inflight := inflight s;
     next_obj := next_obj s; uuid_calls := uuid_calls s; date_calls := date_calls s;
     span_tags := span_tags s |}.

Definition with_log (e : LogEntry) (s : State) : State :=
  {| events := events s; lock := lock s; logs := logs s ++ [e]; inflight := inflight s;
     next_obj := next_obj s; uuid_calls := uuid_calls s; date_calls := date_calls s;
     span_tags := span_tags s |}.

Definition with_inflight (f : list RequestOptions → list RequestOptions) (s : State) : State :=
  {| events := events s; lock := lock s; logs := logs s; inflight := f (inflight s);
     next_obj := next_obj s; uuid_calls := uuid_calls s; date_calls := date_calls s;
     span_tags := span_tags s |}.

(** ** A state and exception monad *)

Definition M (A : Type) : Type := State → Completion A * State.

Definition ret {A} (a : A) : M A := fun s => (Return a, s).
Definition throw {A} (e : JSError) : M A := fun s => (Throw e, s).
Definition bind {A B} (m : M A) (k : A → M B) : M B :=
  fun s => match m s with
           | (Return a, s') => k a s'
           | (Throw e, s') => (Throw e, s')
           end.
Definition gets {A} (f : State → A) : M A := fun s => (Return (f s), s).
Definition modify (f : State → State) : M unit := fun s => (Return tt, f s).
(** [try { m } catch (err) { h err }] *)
Definition try_catch {A} (m : M A) (h : JSError → M A) : M A :=
  fun s => match m s with
           | (Return a, s') => (Return a, s')
           | (Throw e, s') => h e s'
           end.

#[global] Instance M_ret : MRet M := @ret.
#[global] Instance M_bind : MBind M := fun A B k m => bind m k.

Definition lift_option {A} (o : option A) (e : JSError) : M A :=
  match o with Some a => ret a | None => throw e end.
Definition lift_completion {A} (c : Completion A) : M A :=
  match c with Return a => ret a | Throw e => throw e end.

Definition log_warn (msg : string) : M unit := modify (with_log (LogWarn msg)).
Definition log_error (e : JSError) : M unit := modify (with_log (LogError e)).

(** [uuid()] *)
Definition call_uuid (w : Env) : M string :=
  fun s => (Return (uuid w (uuid_calls s)),
            {| events := events s; lock := lock s; logs := logs s; inflight := inflight s;
               next_obj := next_obj s; uuid_calls := S (uuid_calls s);
               date_calls := date_calls s; span_tags := span_tags s |}).

(** [(new Date()).toJSON()] *)
Definition call_Date_toJSON (w : Env) : M string :=
  fun s => (Return (Date_toJSON w (date_calls s)),
            {| events := events s; lock := lock s; logs := logs s; inflight := inflight s;
               next_obj := next_obj s; uuid_calls := uuid_calls s;
               date_calls := S (date_calls s); span_tags := span_tags s |}).

(** [span.setTag(key, value)] *)
Definition setTag (sp : Span) (k : string) (v : JSValue) : M unit :=
  modify (fun s =>
            {| events := events s; lock := lock s; logs := logs s; inflight := inflight s;
               next_obj := next_obj s; uuid_calls := uuid_calls s;
               date_calls := date_calls s;
               span_tags := span_tags s ++ [(span_ref sp, k, v)] |}).

(** Evaluating an object literal allocates a fresh object. *)
Definition new_object (v : JSValue) : M EventObj :=
  fun s => (Return {| obj_id := next_obj s; obj_val := v |},
            {| events := events s; lock := lock s; logs := logs s; inflight := inflight s;
               next_obj := S (next_obj s); uuid_calls := uuid_calls s;
               date_calls := date_calls s; span_tags := span_tags s |}).

(** ** Set operations on [events] (identity of objects) *)

Definition same_obj (a b : EventObj) : bool := Nat.eqb (obj_id a) (obj_id b).

Definition Set_has (e : EventObj) (l : list EventObj) : bool :=
  existsb (same_obj e) l.
Definition Set_add (e : EventObj) (l : list EventObj) : list EventObj :=
  if Set_has e l then l else l ++ [e].
Definition Set_delete (e : EventObj) (l : list EventObj) : list EventObj :=
  List.filter (fun x => negb (same_obj e x)) l.
Definition Set_size (l : list EventObj) : Z := Z.of_nat (length l).

(** ** The reporter module *)

Definition FLUSH_INTERVAL : Z := 2000.
Definition MAX_EVENT_BACKLOG : Z := 1000000.

Definition host (w : Env) : JSValue :=
  JObj [("context_version", JStr "0.1.0");
        ("os_type", JStr (os_type w));
        ("hostname", JStr (os_hostname w))].

Definition library (w : Env) : JSValue :=
  JObj [("context_version", JStr "0.1.0");
        ("runtime_type", JStr "nodejs");
        ("runtime_version", JStr (process_version w));
        ("lib_version", package_version w)].

Definition HEADERS_TO_SEND : list string :=
  ["client-ip"; "forwarded-for"; "forwarded"; "referer"; "true-client-ip";
   "user-agent"; "via"; "x-client-ip"; "x-cluster-client-ip"; "x-forwarded-for";
   "x-forwarded"; "x-real-ip"].

(** The loop of [getHeadersToSend], over the names still to visit. *)
Fixpoint getHeadersToSend_loop (headers : JSValue) (names : list string)
    (result : list (string * JSValue)) : list (string * JSValue) :=
  match names with
  | [] => result
  | headerName :: rest =>
      getHeadersToSend_loop headers rest
        (if truthy (prop headers headerName)
         then set_prop headerName (JArr [prop headers headerName]) result
         else result)
  end.

Definition getHeadersToSend (headers : JSValue) : JSValue :=
  if negb (truthy headers) then JObj []
  else JObj (getHeadersToSend_loop headers HEADERS_TO_SEND []).

(** [o.k] where [o] may be undefined or null. *)
Definition member (o : JSValue) (k : string) : M JSValue :=
  match o with
  | JUndefined | JNull =>
      throw (TypeError ("Cannot read property '" +:+ k +:+ "' of " +:+ ToString o))
  | _ => ret (prop o k)
  end.

Definition resolveHTTPAddresses (w : Env) : M JSValue :=
  match getContext w with
  | None => ret (JObj [])
  | Some context =>
      path ← lift_completion (resolve context (HTTP_INCOMING_URL (Addresses w)));
      headers ← lift_completion (resolve context (HTTP_INCOMING_HEADERS (Addresses w)));
      h ← member headers "host";
      href ← lift_option (URL_href w (ToString path) ("http://" +:+ ToString h))
                         (TypeError "Invalid URL");
      method ← lift_completion (resolve context (HTTP_INCOMING_METHOD (Addresses w)));
      remote_ip ← lift_completion (resolve context (HTTP_INCOMING_REMOTE_IP (Addresses w)));
      remote_port ← lift_completion (resolve context (HTTP_INCOMING_REMOTE_PORT (Addresses w)));
      mret (JObj [("method", method);
                  ("url", JStr (split_first "?"%char href));
                  ("remote_ip", remote_ip);
                  ("remote_port", remote_port);
                  ("headers", getHeadersToSend headers)])
  end.

Definition getTracerData (w : Env) : M JSValue :=
  scope ← lift_option (tracer_scope w)
            (TypeError "Cannot read property 'scope' of undefined");
  config ← lift_option (_config scope)
            (TypeError "Cannot read property 'service' of undefined");
  entries ← lift_option (tags config)
            (TypeError "Cannot convert undefined or null to object");
  let result :=
    [("serviceName", service config);
     ("serviceEnv", env config);
     ("serviceVersion", version config);
     ("tags", JArr (map (fun kv => JStr (fst kv +:+ ":" +:+ ToString (snd kv))) entries))] in
  match active scope with
  | Some activeSpan =>
      setTag activeSpan "manual.keep" JUndefined;;
      setTag activeSpan "appsec.event" (JBool true);;
      mret (JObj (set_prop "traceId" (toTraceId activeSpan)
                    (set_prop "spanId" (toSpanId activeSpan) result)))
  | None => mret (JObj result)
  end.

(** The object literal of [reportAttack]. *)
Definition build_event (w : Env) (event_id detected_at : string)
    (rule ruleMatches resolvedHttp tracerData : JSValue) : JSValue :=
  JObj [("event_id", JStr event_id);
        ("event_type", JStr "appsec");
        ("event_version", JStr "1.0.0");
        ("detected_at", JStr detected_at);
        ("rule", rule);
        ("rule_match", ruleMatches);
        ("context", JObj [
           ("host", host w);
           ("http", JObj [
              ("context_version", JStr "1.0.0");
              ("request", JObj [
                 ("method", prop resolvedHttp "method");
                 ("url", prop resolvedHttp "url");
                 ("resource", prop resolvedHttp "route");
                 ("remote_ip", prop resolvedHttp "remote_ip");
                 ("remote_port", prop resolvedHttp "remote_port");
                 ("headers", prop resolvedHttp "headers")])]);
           ("library", library w);
           ("service", JObj [
              ("context_version", JStr "0.1.0");
              ("name", prop tracerData "serviceName");
              ("environment", prop tracerData "serviceEnv");
              ("version", prop tracerData "serviceVersion")]);
           ("span", JObj [
              ("context_version", JStr "0.1.0");
              ("id", prop tracerData "spanId")]);
           ("tags", JObj [
              ("context_version", JStr "0.1.0");
              ("values", prop tracerData "tags")]);
           ("trace", JObj [
              ("context_version", JStr "0.1.0");
              ("id", prop tracerData "traceId")])])].

(** [reportAttack (rule, ruleMatches, blocked)]; [None] is the undefined
    of the early return. *)
Definition reportAttack (w : Env) (rule ruleMatches blocked : JSValue)
  : M (option EventObj) :=
  size ← gets (fun s => Set_size (events s));
  if MAX_EVENT_BACKLOG <? size then mret None
  else
    resolvedHttp ← resolveHTTPAddresses w;
    tracerData ← getTracerData w;
    event_id ← call_uuid w;
    detected_at ← call_Date_toJSON w;
    event ← new_object
              (build_event w event_id detected_at rule ruleMatches resolvedHttp tracerData);
    modify (with_events (Set_add event));;
    mret (Some event).

(** Modelled from the spec: the transport [request] of
    [exporters/agent/request], which is not among the sources.  A request
    handed to it is outstanding until the transport completes it, and it
    completes it once, by calling the callback with or without an error. *)
Definition request (options : RequestOptions) : M unit :=
  modify (with_inflight (fun l => l ++ [options])).

(** The call [JSON.stringify(value)] of line 190, as far as it can fail;
    the text that it returns is described by [JSON_tree]. *)
Definition call_JSON_stringify (w : Env) (value : JSValue) : M unit :=
  match JSON_stringify_error w value with
  | Some err => throw err
  | None => ret tt
  end.

(** The callback that [flush] gives to [request]. *)
Definition flush_callback (err : option JSError) : M unit :=
  modify (with_lock false);;
  match err with
  | Some e => log_error e
  | None => mret tt
  end.

Definition flush (w : Env) : M unit :=
  s ← gets id;
  if lock s || (Set_size (events s) =? 0) then mret tt
  else
    (if MAX_EVENT_BACKLOG <=? Set_size (events s)
     then log_warn "Dropping AppSec events because the backlog is full"
     else mret tt);;
    let eventsArray := events s in
    (* if they fail to send, we drop the events *)
    modify (with_events (fun evs => foldl (fun acc e => Set_delete e acc) evs eventsArray));;
    key ← call_uuid w;
    let data := {| protocol_version := 1; idempotency_key := key;
                   payload_events := eventsArray |} in
    call_JSON_stringify w (payload_value data);;
    url ← lift_option (writer_url w)
            (TypeError "Cannot read property 'protocol' of undefined");
    let options :=
      if String.eqb (protocol url) "unix:"
      then {| opt_path := "/appsec/proxy/api/v2/appsecevts"; opt_method := "POST";
              opt_headers := [("Content-Type", "application/json")];
              opt_data := data;
              opt_socketPath := Some (pathname url);
              opt_protocol := None; opt_hostname := None; opt_port := None |}
      else {| opt_path := "/appsec/proxy/api/v2/appsecevts"; opt_method := "POST";
              opt_headers := [("Content-Type", "application/json")];
              opt_data := data;
              opt_socketPath := None;
              opt_protocol := Some (protocol url);
              opt_hostname := Some (hostname url);
              opt_port := Some (port url) |} in
    modify (with_lock true);;
    request options.

(** The document that [JSON.stringify] writes for the request body. *)
Definition stringify_payload (d : Payload) : JSValue :=
  JSON_tree (payload_value d).

(** The body that a call of [flush] in state [s] serializes. *)
Definition flush_body (w : Env) (s : State) : JSValue :=
  payload_value {| protocol_version := 1; idempotency_key := uuid w (uuid_calls s);
                   payload_events := events s |}.

(** ** Runs of the reporter module *)

(** What can happen to the module: a call of [reportAttack], a call of
    [flush] (by the scheduler's timer or by hand), and the transport
    completing the outstanding request at position [i]. *)
Inductive Action : Type :=
| CallReportAttack (w : Env) (rule ruleMatches blocked : JSValue)
| CallFlush (w : Env)
| Complete (i : nat) (err : option JSError).

(** The transport completes request [i]: the request is no longer
    outstanding and its callback runs. *)
Definition complete (i : nat) (err : option JSError) (s : State) : State :=
  match inflight s !! i with
  | Some _ => snd (flush_callback err (with_inflight (delete i) s))
  | None => s
  end.

(** One action: the event it returned to its caller, if any, and the
    state it leaves.  An error thrown to the caller leaves the state as
    mutated up to the throw. *)
Definition step_out (a : Action) (s : State) : option EventObj * State :=
  match a with
  | CallReportAttack w rule ruleMatches blocked =>
      match reportAttack w rule ruleMatches blocked s with
      | (Return r, s') => (r, s')
      | (Throw _, s') => (None, s')
      end
  | CallFlush w => (None, snd (flush w s))
  | Complete i err => (None, complete i err s)
  end.

Definition step (a : Action) (s : State) : State := snd (step_out a s).

Definition run (tr : list Action) (s : State) : State :=
  foldl (fun st a => step a st) s tr.

(** The events that the calls of [reportAttack] in a run returned. *)
Fixpoint enqueued (tr : list Action) (s : State) : list EventObj :=
  match tr with
  | [] => []
  | a :: rest =>
      match fst (step_out a s) with
      | Some e => e :: enqueued rest (step a s)
      | None => enqueued rest (step a s)
      end
  end.

Definition is_Complete (a : Action) : bool :=
  match a with Complete _ _ => true | _ => false end.

(** Identities of a list of event objects. *)
Definition ids (l : list EventObj) : list nat := map obj_id l.

(** ** Concrete environments, used to run the definitions *)

Definition registry0 : AddressRegistry :=
  {| HTTP_INCOMING_URL := "server.request.uri.raw";
     HTTP_INCOMING_HEADERS := "server.request.headers.no_cookies";
     HTTP_INCOMING_METHOD := "server.request.method";
     HTTP_INCOMING_REMOTE_IP := "server.request.client_ip";
     HTTP_INCOMING_REMOTE_PORT := "server.request.client_port";
     OTHER_ADDRESSES := [] |}.

Definition is_prefix (p s : string) : bool :=
  String.eqb p (String.substring 0 (String.length p) s).

(** [new URL(input, base).href] on the two shapes of input used below: an
    absolute http(s) URL is its own href, a path is appended to the base. *)
Definition href0 (input base : string) : option string :=
  if is_prefix "https://" input || is_prefix "http://" input then Some input
  else if is_prefix "/" input then Some (base +:+ input)
  else None.

Definition config0 : ScopeConfig :=
  {| service := JStr "web"; env := JStr "prod"; version := JUndefined;
     tags := Some [("_dd.appsec.enabled", JNum 1)] |}.

(** A tracer without an active span, no execution context. *)
Definition env0 : Env :=
  {| Addresses := registry0;
     getContext := None;
     tracer_scope := Some {| _config := Some config0; active := None |};
     writer_url := Some {| protocol := "http:"; pathname := "/";
                           hostname := "localhost"; port := "8126" |};
     URL_href := href0;
     uuid := fun n => "uuid-" +:+ pretty n;
     Date_now := fun n => 1630454400000 + Z.of_nat n;
     JSON_stringify_error := fun _ => None;
     os_type := "Linux"; os_hostname := "box"; process_version := "v14.17.0";
     package_version := JStr "2.0.0" |}.

Definition with_context (c : option Context) (w : Env) : Env :=
  {| Addresses := Addresses w; getContext := c; tracer_scope := tracer_scope w;
     writer_url := writer_url w; URL_href := URL_href w; uuid := uuid w;
     Date_now := Date_now w; JSON_stringify_error := JSON_stringify_error w;
     os_type := os_type w; os_hostname := os_hostname w;
     process_version := process_version w; package_version := package_version w |}.

Definition with_tracer (t : option Scope) (w : Env) : Env :=
  {| Addresses := Addresses w; getContext := getContext w; tracer_scope := t;
     writer_url := writer_url w; URL_href := URL_href w; uuid := uuid w;
     Date_now := Date_now w; JSON_stringify_error := JSON_stringify_error w;
     os_type := os_type w; os_hostname := os_hostname w;
     process_version := process_version w; package_version := package_version w |}.

(** A context whose store is a property list; an address never published
    resolves to undefined. *)
Definition context_of (store : list (string * JSValue)) : Context :=
  {| resolve := fun a => Return (default JUndefined (assoc a store)) |}.

(** The request of the scenario: GET https://x/y?z=1. *)
Definition store1 : list (string * JSValue) :=
  [("server.request.method", JStr "GET");
   ("server.request.uri.raw", JStr "https://x/y?z=1");
   ("server.request.headers.no_cookies",
      JObj [("host", JStr "x"); ("user-agent", JStr "curl"); ("cookie", JStr "k=v")]);
   ("server.request.client_ip", JStr "10.0.0.1");
   ("server.request.client_port", JNum 4242)].

Definition env1 : Env := with_context (Some (context_of store1)) env0.

(** ** Notions used in the statements and proofs about the reporter *)

Ltac unfold_M :=
  unfold mbind, mret, M_bind, M_ret, bind, ret, throw, gets, modify, try_catch,
    lift_option, lift_completion, log_warn, log_error, call_uuid, call_Date_toJSON,
    setTag, new_object, member, request, call_JSON_stringify in *.

(** Two states that differ at most in the recorded span tags. *)
Definition same_core (s s' : State) : Prop :=
  events s' = events s ∧ lock s' = lock s ∧ logs s' = logs s ∧
  inflight s' = inflight s ∧ next_obj s' = next_obj s ∧
  uuid_calls s' = uuid_calls s ∧ date_calls s' = date_calls s.

(** The warning of line 174. *)
Definition backlog_warning : LogEntry :=
  LogWarn "Dropping AppSec events because the backlog is full".

(** The object [e] was allocated before the counter reached [n]. *)
Definition older_than (n : nat) (e : EventObj) : Prop := (obj_id e < n)%nat.

(** What every run preserves: the lock is held exactly when one request
    is outstanding, and there is never more than one; the objects in the
    backlog and in the outstanding batch were allocated in the past; the
    backlog holds at most one entry more than [MAX_EVENT_BACKLOG]. *)
Record Inv (s : State) : Prop := {
  inv_flight : (inflight s = [] ∧ lock s = false) ∨
               (∃ req, inflight s = [req] ∧ lock s = true);
  inv_fresh : Forall (older_than (next_obj s)) (events s);
  inv_batch : Forall (fun r => Forall (older_than (next_obj s))
                                 (payload_events (opt_data r))) (inflight s);
  inv_size : Set_size (events s) <= MAX_EVENT_BACKLOG + 1
}.

(** [n] reports in a row with a tracer installed and no execution
    context, starting from the empty backlog. *)
Definition reports (n : N) : State :=
  N.iter n (step (CallReportAttack env0 JUndefined JUndefined JUndefined)) init.

(** The states that the module reaches from its initial state. *)
Definition reachable (s : State) : Prop := ∃ tr, s = run tr init.

(** A report followed by a flush: one request is outstanding. *)
Definition busy_state : State :=
  run [CallReportAttack env0 (JStr "rule") (JArr []) JUndefined; CallFlush env0] init.

(** Nested property access [o.k1.k2...]. *)
Definition get_in (path : list string) (o : JSValue) : JSValue :=
  foldl prop o path.

Definition request_path : list string := ["context"; "http"; "request"].

(** The keys are pairwise different. *)
Fixpoint distinct (l : list string) : bool :=
  match l with
  | [] => true
  | k :: r => negb (existsb (String.eqb k) r) && distinct r
  end.

(** Along [path], every object met has pairwise distinct keys. *)
Fixpoint keys_ok (path : list string) (o : JSValue) : bool :=
  match path with
  | [] => true
  | k :: rest =>
      match o with
      | JObj ps => distinct (map fst ps) && keys_ok rest (prop o k)
      | _ => true
      end
  end.

(** The members that [JSON_tree] writes for a property list. *)
Definition JSON_members (ps : list (string * JSValue)) : list (string * JSValue) :=
  match JSON_tree (JObj ps) with JObj l => l | _ => [] end.

(** The sub-objects of [context]. *)
Definition context_blocks : list string :=
  ["host"; "http"; "library"; "service"; "span"; "tags"; "trace"].

(** The event of a call that returned one. *)
Definition returned (c : Completion (option EventObj)) : EventObj :=
  match c with
  | Return (Some e) => e
  | _ => {| obj_id := 0; obj_val := JUndefined |}
  end.

(** The scenario: method GET and URL https://x/y?z=1 are published, then
    an attack is reported. *)
Definition scenario_event : EventObj :=
  returned (fst (reportAttack env1 (JStr "rule") (JArr []) JUndefined init)).

(** The event of a report made after a report and a flush. *)
Definition later_event : EventObj :=
  returned (fst (reportAttack env1 (JStr "rule") (JArr []) JUndefined
                   (run [CallReportAttack env1 (JStr "rule") (JArr []) JUndefined;
                         CallFlush env1] init))).

(** The fields of [http.request] in the documented JSON shape. *)
Definition documented_request_fields : list string :=
  ["method"; "url"; "resource"; "remote_ip"; "remote_port"; "headers"].

(** ** The WAF callback ([appsec/callbacks/ddwaf.js]) *)

(** *** Order on strings, as used by [Array.prototype.sort] *)

Definition str_le (a b : string) : Prop := String.leb a b = true.

#[global] Instance str_le_dec : RelDecision str_le :=
  fun a b => decide (String.leb a b = true).

(** [array.sort()] on strings. *)
Definition sort (l : list string) : list string := merge_sort str_le l.

(** [Array.from(new Set(l))]: the first occurrence of each element, in
    order. *)
Fixpoint Array_from_Set (l : list string) : list string :=
  match l with
  | [] => []
  | x :: r => x :: List.filter (fun y => negb (String.eqb x y)) (Array_from_Set r)
  end.

(** *** Rules, the native engine and the instance *)

Record Input := { address : string }.

(** A condition, with [inputs] for [condition.parameters.inputs]. *)
Record Condition := { inputs : list Input }.

Record Rule := {
  rule_id : string;
  rule_name : JSValue;
  rule_tags : JSValue;
  conditions : list Condition
}.

Record Rules := { rules : list Rule }.

(** A match descriptor ([point.filter[i]]) and a point of the parsed
    [result.data]. *)
Record Match := {
  operator : JSValue;
  operator_value : JSValue;
  binding_accessor : JSValue;
  key_path : JSValue;
  resolved_value : JSValue;
  match_status : JSValue
}.

Record Point := {
  point_rule : string;
  point_filter : list Match
}.

Record WafResult := {
  result_action : JSValue;
  result_data : string
}.

(** The [DDWAF] object built from a rule set. *)
Record DDWAF := { engine_rules : Rules }.

(** What the native package does; it is opaque to the callback. *)
Record Native := {
  (* the error of [require('@datadog/native-appsec')] or [new DDWAF(rules)], if any *)
  load_error : Rules → option JSError;
  (* the n-th [createContext()]: a context handle, or an error *)
  createContext : nat → Completion nat;
  (* the n-th [run], on a context, with params and a budget *)
  run_result : nat → nat → JSValue → Z → Completion WafResult;
  (* [JSON.parse(result.data)]; None when it throws *)
  JSON_parse : string → option (list Point)
}.

(** A subscription handed to [Gateway.manager.addSubscription]; the
    callback is the [{ method }] object of the instance. *)
Record Subscription := { addresses : list string }.

(** The instance.  [libAppSec] is a property that may be read: it is
    undefined ([None]) unless something assigns it. *)
Record WAFCallback := {
  ddwaf : DDWAF;
  wafContextCache : gmap nat nat;      (* WeakMap: key object to context handle *)
  ruleCache : gmap string Rule;
  libAppSec : option DDWAF
}.

(** The state outside the instance: the reporter module (with the log),
    the module variable [warned], the subscriptions of [Gateway.manager],
    and counters for the native calls. *)
Record World := {
  reporter : State;
  warned : bool;
  subscriptions : list Subscription;
  created : nat;
  runs : nat;
  disposed : nat
}.

Definition world0 : World :=
  {| reporter := init; warned := false; subscriptions := [];
     created := 0%nat; runs := 0%nat; disposed := 0%nat |}.

Definition W (A : Type) : Type := World → Completion A * World.

#[global] Instance W_ret : MRet W := fun A a g => (Return a, g).
#[global] Instance W_bind : MBind W :=
  fun A B k m g => match m g with
                   | (Return a, g') => k a g'
                   | (Throw e, g') => (Throw e, g')
                   end.

Definition W_throw {A} (e : JSError) : W A := fun g => (Throw e, g).

Definition W_try_catch {A} (m : W A) (h : JSError → W A) : W A :=
  fun g => match m g with
           | (Return a, g') => (Return a, g')
           | (Throw e, g') => h e g'
           end.

(** A computation of the reporter module, run in the world. *)
Definition in_reporter {A} (m : M A) : W A :=
  fun g => let '(c, s') := m (reporter g) in
           (c, {| reporter := s'; warned := warned g; subscriptions := subscriptions g;
                  created := created g; runs := runs g; disposed := disposed g |}).

Definition W_log_warn (msg : string) : W unit := in_reporter (log_warn msg).

Definition DEFAULT_MAX_BUDGET : Z := 5000.

Definition validAddressSet (A : AddressRegistry) : gset string :=
  list_to_set (Object_values A).

Definition with_reporter (s : State) (g : World) : World :=
  {| reporter := s; warned := warned g; subscriptions := subscriptions g;
     created := created g; runs := runs g; disposed := disposed g |}.

Definition set_warned (g : World) : World :=
  {| reporter := reporter g; warned := true; subscriptions := subscriptions g;
     created := created g; runs := runs g; disposed := disposed g |}.

Definition with_subscriptions (l : list Subscription) (g : World) : World :=
  {| reporter := reporter g; warned := warned g; subscriptions := l;
     created := created g; runs := runs g; disposed := disposed g |}.

(** *** [loadDDWAF] and the constructor *)

Definition loadDDWAF (n : Native) (rs : Rules) : W DDWAF :=
  match load_error n rs with
  | None => mret {| engine_rules := rs |}
  | Some err =>
      (fun g =>
         if negb (warned g)
         then (Return tt,
               set_warned
                 (with_reporter
                    (with_log
                       (LogWarn ("AppSec could not load native package. " +:+
                                 "In-app WAF features will not be available."))
                       (reporter g)) g))
         else (Return tt, g));;
      W_throw err
  end.

(** Modelled from the spec: [Gateway.manager] of the gateway engine,
    which is not among the sources.  The model keeps the subscriptions it
    is given in the order of the calls; [clear] removes them all. *)
Definition Gateway_manager_addSubscription (sub : Subscription) : W unit :=
  fun g => (Return tt, with_subscriptions (subscriptions g ++ [sub]) g).

Definition Gateway_manager_clear : W unit :=
  fun g => (Return tt, with_subscriptions [] g).

(** [condition.parameters.inputs.map((input) => input.address.split(':', 2)[0])] *)
Definition condition_addresses (condition : Condition) : list string :=
  map (fun input => split_first ":"%char (address input)) (inputs condition).

Definition all_valid (A : AddressRegistry) (addrs : list string) : bool :=
  forallb (fun a => bool_decide (a ∈ validAddressSet A)) addrs.

(** [addresses.sort().join(',')] after de-duplication. *)
Definition canonical (addrs : list string) : list string :=
  sort (Array_from_Set addrs).
Definition fingerprint (addrs : list string) : string :=
  join "," (canonical addrs).

(** The inner loop of the constructor over the conditions of one rule;
    it returns [subscriptionGroups]. *)
Fixpoint conditions_loop (A : AddressRegistry) (rid : string) (conds : list Condition)
    (subscriptionGroups : gset string) : W (gset string) :=
  match conds with
  | [] => mret subscriptionGroups
  | condition :: rest =>
      let addrs := condition_addresses condition in
      if negb (all_valid A addrs)
      then W_log_warn ("Skipping invalid rule " +:+ rid);;
           mret subscriptionGroups                                   (* break *)
      else
        let addrs := sort (Array_from_Set addrs) in
        let hash := join "," addrs in
        if bool_decide (hash ∈ subscriptionGroups)
        then conditions_loop A rid rest subscriptionGroups          (* continue *)
        else
          Gateway_manager_addSubscription {| addresses := addrs |};;
          conditions_loop A rid rest ({[hash]} ∪ subscriptionGroups)
  end.

(** The outer loop, over the rules. *)
Fixpoint rules_loop (A : AddressRegistry) (rs : list Rule)
    (cache : gmap string Rule) (subscriptionGroups : gset string)
  : W (gmap string Rule * gset string) :=
  match rs with
  | [] => mret (cache, subscriptionGroups)
  | rule :: rest =>
      let cache := <[rule_id rule := rule]> cache in
      groups ← conditions_loop A (rule_id rule) (conditions rule) subscriptionGroups;
      rules_loop A rest cache groups
  end.

Definition constructor (n : Native) (A : AddressRegistry) (rs : Rules) : W WAFCallback :=
  engine ← loadDDWAF n rs;
  r ← rules_loop A (rules rs) ∅ ∅;
  mret {| ddwaf := engine; wafContextCache := ∅; ruleCache := fst r;
          libAppSec := None |}.

(** *** [action], [applyResult] and [clear] *)

(** What [store.get('context')] returns, as far as [action] can tell:
    a falsy value (undefined, null, false, 0, NaN or the empty string), an
    object, known by its identity, or another primitive value. *)
Inductive ContextKey : Type :=
| KeyFalsy
| KeyObject (ref : nat)
| KeyPrimitive.

(** A truthy [store] argument: what the call [store.get('context')]
    returns, or the error that it throws (a TypeError when the store has
    no method [get]).  A falsy [store] is [None]. *)
Record Store := { store_get : Completion ContextKey }.

Definition W_lift_completion {A} (c : Completion A) : W A :=
  fun g => (c, g).

Definition call_createContext (n : Native) : W nat :=
  fun g =>
    (createContext n (created g),
     {| reporter := reporter g; warned := warned g; subscriptions := subscriptions g;
        created := S (created g); runs := runs g; disposed := disposed g |}).

Definition call_run (n : Native) (wafContext : nat) (params : JSValue) (budget : Z)
  : W WafResult :=
  fun g =>
    (run_result n (runs g) wafContext params budget,
     {| reporter := reporter g; warned := warned g; subscriptions := subscriptions g;
        created := created g; runs := S (runs g); disposed := disposed g |}).

Definition with_wafContextCache (c : gmap nat nat) (self : WAFCallback) : WAFCallback :=
  {| ddwaf := ddwaf self; wafContextCache := c; ruleCache := ruleCache self;
     libAppSec := libAppSec self |}.

Definition W_lift_option {A} (o : option A) (e : JSError) : W A :=
  match o with Some a => mret a | None => W_throw e end.

(** The argument that [applyResult] gives to [Reporter.reportAttack]. *)
Definition attack_info (point : Point) (rule : Rule) (m : Match) : JSValue :=
  JObj [("eventType", JStr "appsec.threat.attack");
        ("blocked", JBool false);
        ("ruleId", JStr (point_rule point));
        ("ruleName", rule_name rule);
        ("ruleTags", rule_tags rule);
        ("matchOperator", operator m);
        ("matchOperatorValue", operator_value m);
        ("matchParameters",
           JArr [JObj [("address", binding_accessor m);
                       ("key_path", key_path m);
                       ("value", resolved_value m)]]);
        ("matchHighlight", JArr [match_status m])].

Fixpoint applyResult_loop (w : Env) (self : WAFCallback) (data : list Point) : W unit :=
  match data with
  | [] => mret tt
  | point :: rest =>
      let m := head (point_filter point) in
      let rule := ruleCache self !! point_rule point in
      rule ← W_lift_option rule (TypeError "Cannot read property 'name' of undefined");
      m ← W_lift_option m (TypeError "Cannot read property 'operator' of undefined");
      in_reporter (reportAttack w (attack_info point rule m) JUndefined JUndefined);;
      applyResult_loop w self rest
  end.

Definition applyResult (n : Native) (w : Env) (self : WAFCallback) (result : WafResult)
  : W unit :=
  if truthy (result_action result)
  then
    data ← W_lift_option (JSON_parse n (result_data result))
             (Error "SyntaxError: Unexpected token in JSON");
    applyResult_loop w self data
  else mret tt.

(** Lines 72 to 89 of [action]: the matcher state of the call, from the
    cache or newly created, and the instance with its cache updated. *)
Definition obtain_wafContext (n : Native) (self : WAFCallback) (store : option Store)
  : W (nat * WAFCallback) :=
  r ← match store with
      | Some st =>
          key ← W_lift_completion (store_get st);
          match key with
          | KeyObject key =>
              match wafContextCache self !! key with
              | Some wafContext => mret (Some wafContext, self)
              | None =>
                  wafContext ← call_createContext n;
                  mret (Some wafContext,
                        with_wafContextCache (<[key := wafContext]> (wafContextCache self))
                          self)
              end
          | KeyPrimitive =>
              (* [has] is false of a primitive and [set] refuses it *)
              wafContext ← call_createContext n;
              W_throw (TypeError "Invalid value used as weak map key")
          | KeyFalsy => mret (None, self)
          end
      | None => mret (None, self)
      end;
  match fst r with
  | Some wafContext => mret (wafContext, snd r)
  | None => wafContext ← call_createContext n; mret (wafContext, snd r)
  end.

(** [action (params, store)].  The value returned is the instance as the
    call leaves it; a call that throws has not changed the instance. *)
Definition action (n : Native) (w : Env) (self : WAFCallback) (params : JSValue)
    (store : option Store) : W WAFCallback :=
  r ← obtain_wafContext n self store;
  W_try_catch
    (result ← call_run n (fst r) params DEFAULT_MAX_BUDGET;
     applyResult n w (snd r) result;;
     mret (snd r))
    (fun err => W_log_warn "Error while running the AppSec WAF";; mret (snd r)).

(** The closure [method] that the subscriptions carry. *)
Definition method (n : Native) (w : Env) (self : WAFCallback) (params : JSValue)
    (store : option Store) : W WAFCallback :=
  action n w self params store.

Definition dispose : W unit :=
  fun g =>
    (Return tt,
     {| reporter := reporter g; warned := warned g; subscriptions := subscriptions g;
        created := created g; runs := runs g; disposed := S (disposed g) |}).

Definition clear (self : WAFCallback) : W WAFCallback :=
  match libAppSec self with
  | None => W_throw (TypeError "Cannot read property 'dispose' of undefined")
  | Some _ =>
      dispose;;
      let self := with_wafContextCache ∅ self in
      Gateway_manager_clear;;
      mret self
  end.

(** *** Concrete rules and engines, used to run the definitions *)

Definition cond (addrs : list string) : Condition :=
  {| inputs := map (fun a => {| address := a |}) addrs |}.

Definition mk_rule (rid : string) (conds : list Condition) : Rule :=
  {| rule_id := rid; rule_name := JStr ("name of " +:+ rid); rule_tags := JObj [];
     conditions := conds |}.

(** A rule whose second condition names an address outside the registry. *)
Definition rule_mixed : Rule :=
  mk_rule "r1" [cond ["server.request.method"]; cond ["unknown.address"]].

(** A rule whose first condition names an address outside the registry. *)
Definition rule_unknown : Rule :=
  mk_rule "r2" [cond ["unknown.address"]; cond ["server.request.method"]].

Definition rule_valid : Rule :=
  mk_rule "r3" [cond ["server.request.uri.raw"; "server.request.method:x"];
                cond ["server.request.method"; "server.request.uri.raw";
                      "server.request.method"]].

(** An engine that loads and whose every run fails. *)
Definition native_failing : Native :=
  {| load_error := fun _ => None;
     createContext := fun i => Return i;
     run_result := fun _ _ _ _ => Throw (Error "budget exceeded");
     JSON_parse := fun _ => Some [] |}.

(** An engine that loads and whose every run reports one match of r3. *)
Definition native_matching : Native :=
  {| load_error := fun _ => None;
     createContext := fun i => Return i;
     run_result := fun _ _ _ _ =>
       Return {| result_action := JStr "monitor"; result_data := "[...]" |};
     JSON_parse := fun _ =>
       Some [ {| point_rule := "r3";
                 point_filter := [ {| operator := JStr "match_regex";
                                      operator_value := JStr "x";
                                      binding_accessor := JStr "server.request.method";
                                      key_path := JArr [];
                                      resolved_value := JStr "GET";
                                      match_status := JStr "GET" |} ] |} ] |}.

(** *** Notions used in the statements and proofs about the callback *)

Ltac unfold_W :=
  unfold mbind, mret, W_bind, W_ret, W_throw, W_try_catch, W_lift_option,
    W_lift_completion, W_log_warn,
    in_reporter, Gateway_manager_addSubscription, Gateway_manager_clear,
    call_createContext, call_run, dispose in *.

(** The conditions of a rule that the loop reaches: those before the
    first one with an address outside the registry. *)
Fixpoint reached_conditions (A : AddressRegistry) (conds : list Condition)
  : list Condition :=
  match conds with
  | [] => []
  | c :: rest =>
      if all_valid A (condition_addresses c) then c :: reached_conditions A rest else []
  end.

Definition reached (A : AddressRegistry) (rs : list Rule) : list Condition :=
  flat_map (fun r => reached_conditions A (conditions r)) rs.

(** The fingerprint under which a subscription was registered. *)
Definition hash_of (s : Subscription) : string := join "," (addresses s).

(** What a run of the loops has done: the subscriptions [new] it added,
    the groups [G'] it returns from the groups [G] it started with, over
    the reached conditions [cs]. *)
Record loop_post (G G' : gset string) (new : list Subscription) (cs : list Condition)
  : Prop := {
  post_groups : ∀ h, h ∈ G' ↔ h ∈ G ∨ h ∈ map hash_of new;
  post_nodup : NoDup (map hash_of new);
  post_fresh : ∀ h, h ∈ map hash_of new → h ∉ G;
  post_origin : ∀ s, s ∈ new →
                  ∃ c, c ∈ cs ∧ addresses s = canonical (condition_addresses c);
  post_covered : ∀ c, c ∈ cs → fingerprint (condition_addresses c) ∈ G'
}.

Definition no_instance : WAFCallback :=
  {| ddwaf := {| engine_rules := {| rules := [] |} |}; wafContextCache := ∅;
     ruleCache := ∅; libAppSec := None |}.

(** The instance that a constructor call returned. *)
Definition constructed (r : Completion WAFCallback * World) : WAFCallback :=
  match fst r with Return self => self | Throw _ => no_instance end.

Definition rules0 : Rules := {| rules := [rule_unknown; rule_valid] |}.
Definition instance0 : WAFCallback :=
  constructed (constructor native_failing registry0 rules0 world0).
Definition world1 : World := snd (constructor native_failing registry0 rules0 world0).

(** The warning of line 96 of [ddwaf.js]. *)
Definition WAF_ERROR : LogEntry := LogWarn "Error while running the AppSec WAF".

(** ** Further notions for the reporter *)

(** The object that [getHeadersToSend] builds, in closed form: the
    allow-listed names whose header is truthy, each with the one-element
    array of the header. *)
Definition headers_to_send (headers : JSValue) : list (string * JSValue) :=
  map (fun k => (k, JArr [prop headers k]))
    (List.filter (fun k => truthy (prop headers k)) HEADERS_TO_SEND).

(** The two [setTag] calls of [getTracerData] on the active span. *)
Definition keep_tags (sp : Span) : list (nat * string * JSValue) :=
  [(span_ref sp, "manual.keep", JUndefined);
   (span_ref sp, "appsec.event", JBool true)].

(** The active span of the environment, if the tracer has one. *)
Definition active_span (w : Env) : option Span :=
  match tracer_scope w with
  | Some scope => active scope
  | None => None
  end.

(** A report with an active span on the tracer. *)
Definition span0 : Span :=
  {| span_ref := 5; toSpanId := JStr "77"; toTraceId := JStr "99" |}.
Definition env_span : Env :=
  with_tracer (Some {| _config := Some config0; active := Some span0 |}) env0.

(** The environment [env0] without a writer URL on the exporter. *)
Definition env_no_url : Env :=
  {| Addresses := Addresses env0; getContext := getContext env0;
     tracer_scope := tracer_scope env0; writer_url := None; URL_href := URL_href env0;
     uuid := uuid env0; Date_now := Date_now env0;
     JSON_stringify_error := JSON_stringify_error env0; os_type := os_type env0;
     os_hostname := os_hostname env0; process_version := process_version env0;
     package_version := package_version env0 |}.

(** The environment [env0] on a runtime in which the text of a request
    body is too long to be a string. *)
Definition env_overflow : Env :=
  {| Addresses := Addresses env0; getContext := getContext env0;
     tracer_scope := tracer_scope env0; writer_url := writer_url env0;
     URL_href := URL_href env0; uuid := uuid env0; Date_now := Date_now env0;
     JSON_stringify_error := fun _ => Some (RangeError "Invalid string length");
     os_type := os_type env0; os_hostname := os_hostname env0;
     process_version := process_version env0; package_version := package_version env0 |}.

(** One event reported, nothing flushed. *)
Definition pending_state : State :=
  run [CallReportAttack env0 (JStr "rule") (JArr []) JUndefined] init.

(** The batches of the outstanding requests. *)
Definition outstanding_events (s : State) : list EventObj :=
  flat_map (fun r => payload_events (opt_data r)) (inflight s).

(** The environment in which an action runs. *)
Definition env_of (a : Action) : option Env :=
  match a with
  | CallReportAttack w _ _ _ => Some w
  | CallFlush w => Some w
  | Complete _ _ => None
  end.

(** The call draws its uuids from the generator [u]. *)
Definition uses_uuid (u : nat → string) (a : Action) : Prop :=
  match env_of a with
  | Some w => uuid w = u
  | None => True
  end.

Definition event_id_of (e : EventObj) : JSValue := prop (obj_val e) "event_id".

Definition key_of (r : RequestOptions) : JSValue := JStr (idempotency_key (opt_data r)).

(** The requests that the calls of [flush] in a run handed to the
    transport, in order. *)
Fixpoint requested (tr : list Action) (s : State) : list RequestOptions :=
  match tr with
  | [] => []
  | a :: rest =>
      (if is_Complete a then []
       else drop (length (inflight s)) (inflight (step a s)))
      ++ requested rest (step a s)
  end.

(** ** Further notions for the WAF callback *)

(** The warning of [loadDDWAF]. *)
Definition NATIVE_WARNING : LogEntry :=
  LogWarn ("AppSec could not load native package. " +:+
           "In-app WAF features will not be available.").

(** The rule has a condition with an address outside the registry. *)
Definition has_invalid_condition (A : AddressRegistry) (r : Rule) : bool :=
  negb (forallb (fun c => all_valid A (condition_addresses c)) (conditions r)).

(** The warning of line 55 for a rule. *)
Definition skip_warning (r : Rule) : LogEntry :=
  LogWarn ("Skipping invalid rule " +:+ rule_id r).

(** Two worlds that differ at most in the reporter module. *)
Definition same_outside_reporter (g g' : World) : Prop :=
  warned g' = warned g ∧ subscriptions g' = subscriptions g ∧
  created g' = created g ∧ runs g' = runs g ∧ disposed g' = disposed g.

(** A native package that cannot be loaded. *)
Definition native_unavailable : Native :=
  {| load_error := fun _ => Some (Error "Cannot find module '@datadog/native-appsec'");
     createContext := fun i => Return i;
     run_result := fun _ _ _ _ => Throw (Error "unreachable");
     JSON_parse := fun _ => None |}.

(** An engine that loads but cannot create a context. *)
Definition native_no_context : Native :=
  {| load_error := fun _ => None;
     createContext := fun _ => Throw (Error "ddwaf_context_init failed");
     run_result := fun _ _ _ _ => Throw (Error "unreachable");
     JSON_parse := fun _ => None |}.

(** The world after one more call of [createContext]. *)
Definition count_created (g : World) : World :=
  {| reporter := reporter g; warned := warned g; subscriptions := subscriptions g;
     created := S (created g); runs := runs g; disposed := disposed g |}.

(** What [action] reads from its [store] argument: the result of
    [store.get('context')], and no key when the store is falsy. *)
Definition store_read (store : option Store) : Completion ContextKey :=
  match store with
  | Some st => store_get st
  | None => Return KeyFalsy
  end.

(** A store whose context is the key object [key]. *)
Definition store_of (key : nat) : option Store :=
  Some {| store_get := Return (KeyObject key) |}.

(** The TypeError of [WeakMap.prototype.set] on a key that is not an
    object. *)
Definition INVALID_KEY : JSError := TypeError "Invalid value used as weak map key".

(** The match of [native_matching], for a rule id. *)
Definition point_for (rid : string) : Point :=
  {| point_rule := rid;
     point_filter := [ {| operator := JStr "match_regex";
                          operator_value := JStr "x";
                          binding_accessor := JStr "server.request.method";
                          key_path := JArr [];
                          resolved_value := JStr "GET";
                          match_status := JStr "GET" |} ] |}.

(** The instance built from [rules0] with the matching engine. *)
Definition instance_matching : WAFCallback :=
  constructed (constructor native_matching registry0 rules0 world0).

(** An engine that loads and whose every run reports one match of a
    rule that no rule set has. *)
Definition native_unknown_rule : Native :=
  {| load_error := fun _ => None;
     createContext := fun i => Return i;
     run_result := fun _ _ _ _ =>
       Return {| result_action := JStr "monitor"; result_data := "[...]" |};
     JSON_parse := fun _ => Some [point_for "zz"] |}.

(** The world after one more call of [run]. *)
Definition count_run (g : World) : World :=
  {| reporter := reporter g; warned := warned g; subscriptions := subscriptions g;
     created := created g; runs := S (runs g); disposed := disposed g |}.

(** The world after the warning of the catch block of [action]. *)
Definition warn_WAF_ERROR (g : World) : World :=
  with_reporter (with_log WAF_ERROR (reporter g)) g.

(** The match can be turned into an attack info: its rule is in the rule
    cache and its filter is not empty. *)
Definition reportable (self : WAFCallback) (p : Point) : Prop :=
  is_Some (ruleCache self !! point_rule p) ∧ point_filter p ≠ [].

(** The event [e] reports the match [p]: its rule is the attack info of
    the match and it has no rule_match. *)
Definition reports_match (self : WAFCallback) (p : Point) (e : EventObj) : Prop :=
  ∃ r m, ruleCache self !! point_rule p = Some r ∧
         head (point_filter p) = Some m ∧
         prop (obj_val e) "rule" = attack_info p r m ∧
         prop (obj_val e) "rule_match" = JUndefined.

(** A world whose backlog holds 1,000,001 events. *)
Definition world_full : World := with_reporter (reports 1000001) world0.

(** The value of a computation that returned, with the state it left. *)
Definition returned_value (r : Completion JSValue * State) : JSValue * State :=
  match fst r with
  | Return v => (v, snd r)
  | Throw _ => (JUndefined, snd r)
  end.

(** ** The Lambda service of the aws-sdk plugin *)

#[global] Instance Completion_ret : MRet Completion := fun A a => Return a.
#[global] Instance Completion_bind : MBind Completion :=
  fun A B k c => match c with Return a => k a | Throw e => Throw e end.

(** [generateTags (params, operation, response)] *)
Definition generateTags (params operation response : JSValue) : JSValue :=
  if negb (truthy params) || negb (truthy (prop params "FunctionName")) then JObj []
  else JObj [("resource.name",
                JStr (ToString operation +:+ " " +:+ ToString (prop params "FunctionName")));
             ("aws.lambda", prop params "FunctionName")].

(** The request of the SDK as far as [requestInject] reads and writes it;
    [params] is an object when it is there. *)
Record Request := {
  operation : JSValue;
  params : option (list (string * JSValue))
}.

(** What the runtime and the tracer do for [requestInject]: [Buffer],
    [JSON] and [tracer.inject], which fills the empty carrier it is given
    or throws. *)
Record Runtime := {
  (* [Buffer.from(x, 'base64').toString('utf-8')] *)
  Buffer_base64_decode : JSValue → Completion string;
  (* [Buffer.from(s).toString('base64')] *)
  Buffer_base64_encode : string → string;
  JSON_parse_text : string → Completion JSValue;
  JSON_stringify : JSValue → Completion string;
  JSON_stringify_request : Request → Completion string;
  (* the properties of the carrier after [tracer.inject(span, 'text_map', carrier)] *)
  tracer_inject : JSValue → Completion (list (string * JSValue))
}.

(** What the call writes: the arguments of [console.log] and the errors
    given to [log.error]. *)
Record Output := {
  console : list (string * string);
  lambda_log : list LogEntry
}.

(** [v === s] for a string literal [s]. *)
Definition is_string (v : JSValue) (s : string) : bool :=
  match v with
  | JStr x => String.eqb x s
  | _ => false
  end.

(** In strict mode a property can be created on an object or an array;
    on a primitive the assignment throws. *)
Definition can_assign (o : JSValue) : bool :=
  match o with
  | JObj _ | JArr _ => true
  | _ => false
  end.

(** Lines 37 to 42 of [requestInject]: the client context with the
    injected carrier under [custom._datadog], as [JSON.stringify] will see
    it.  A property created on an array is not seen by [JSON.stringify]. *)
Definition inject_into (rt : Runtime) (span clientContext : JSValue) : Completion JSValue :=
  custom0 ← match clientContext with
            | JUndefined | JNull =>
                Throw (TypeError ("Cannot read property 'custom' of "
                                  +:+ ToString clientContext))
            | _ => Return (prop clientContext "custom")
            end;
  custom ← (if negb (truthy custom0)
            then if can_assign clientContext then Return (JObj [])
                 else Throw (TypeError "Cannot create property 'custom'")
            else Return custom0);
  _ ← (if can_assign custom then Return tt
       else Throw (TypeError "Cannot create property '_datadog'"));
  carrier ← tracer_inject rt span;
  mret (match clientContext, custom with
        | JObj ps, JObj cs =>
            JObj (set_prop "custom" (JObj (set_prop "_datadog" (JObj carrier) cs)) ps)
        | _, _ => clientContext
        end).

(** Lines 32 to 36: the client context of the request, or an empty one. *)
Definition read_client_context (rt : Runtime) (ps : list (string * JSValue))
  : Completion JSValue :=
  if truthy (prop (JObj ps) "ClientContext")
  then clientContextJson ← Buffer_base64_decode rt (prop (JObj ps) "ClientContext");
       JSON_parse_text rt clientContextJson
  else Return (JObj []).

Definition with_params (ps : list (string * JSValue)) (request : Request) : Request :=
  {| operation := operation request; params := Some ps |}.

(** [requestInject (span, request, tracer)]: the request as the call
    leaves it, and what was written. *)
Definition requestInject (rt : Runtime) (span : JSValue) (request : Request) (out : Output)
  : Request * Output :=
  if is_string (operation request) "invoke" then
    let ps := default [] (params request) in
    let request := with_params ps request in
    let isSyncInvocation :=
      negb (truthy (prop (JObj ps) "InvocationType")) ||
      is_string (prop (JObj ps) "InvocationType") "RequestResponse" in
    if isSyncInvocation then
      match JSON_stringify_request rt request with
      | Throw err =>
          (request, {| console := console out;
                       lambda_log := lambda_log out ++ [LogError err] |})
      | Return text =>
          let out := {| console := console out ++ [("AGOCS! Here is the request: ", text)];
                        lambda_log := lambda_log out |} in
          match (clientContext ← read_client_context rt ps;
                 clientContext ← inject_into rt span clientContext;
                 JSON_stringify rt clientContext) with
          | Throw err =>
              (request, {| console := console out;
                           lambda_log := lambda_log out ++ [LogError err] |})
          | Return json =>
              (with_params
                 (set_prop "ClientContext" (JStr (Buffer_base64_encode rt json)) ps)
                 request,
               out)
          end
      end
    else (request, out)
  else (request, out).

(** A runtime with symbolic encodings, used to run the definitions: the
    base64 text ctx decodes to a client context with a custom block, the
    text arr to an array. *)
Definition runtime0 : Runtime :=
  {| Buffer_base64_decode := fun v =>
       match v with
       | JStr s => Return ("decoded " +:+ s)
       | _ => Throw (TypeError "The first argument must be of type string")
       end;
     Buffer_base64_encode := fun s => "base64 " +:+ s;
     JSON_parse_text := fun s =>
       if String.eqb s "decoded ctx"
       then Return (JObj [("env", JStr "prod");
                          ("custom", JObj [("user", JStr "u1");
                                           ("_datadog", JStr "stale")])])
       else if String.eqb s "decoded arr" then Return (JArr [JNum 1])
       else Throw (Error "SyntaxError: Unexpected token");
     JSON_stringify := fun v => Return ("json of " +:+ ToString (prop (prop v "custom") "user"));
     JSON_stringify_request := fun _ => Return "request";
     tracer_inject := fun _ =>
       Return [("x-datadog-trace-id", JStr "99"); ("x-datadog-parent-id", JStr "77")] |}.

Definition output0 : Output := {| console := []; lambda_log := [] |}.

Definition invoke_request (ps : list (string * JSValue)) : Request :=
  {| operation := JStr "invoke"; params := Some ps |}.

(** A call of [flush] made with a writer URL on the exporter and on a
    runtime that serializes every body. *)
Definition delivers (a : Action) : Prop :=
  match a with
  | CallFlush w => is_Some (writer_url w) ∧ ∀ v, JSON_stringify_error w v = None
  | _ => True
  end.

(** The batches that the calls of [flush] in a run took out of the
    backlog, in order: a call that leaves the backlog shorter has taken
    what was in it. *)
Fixpoint drained (tr : list Action) (s : State) : list (list EventObj) :=
  match tr with
  | [] => []
  | a :: rest =>
      match a with
      | CallFlush _ =>
          if (length (events (step a s)) <? length (events s))%nat
          then [events s] else []
      | _ => []
      end ++ drained rest (step a s)
  end.

(** The batch of a request. *)
Definition batch (r : RequestOptions) : list EventObj := payload_events (opt_data r).

(** * Properties *)

(** ** Serialization *)

Lemma JSON_tree_obj ps : JSON_tree (JObj ps) = JObj (JSON_members ps).
Proof. reflexivity. Qed.

Lemma JSON_members_cons k v r :
  JSON_members ((k, v) :: r) =
  match v with
  | JUndefined => JSON_members r
  | _ => (k, JSON_tree v) :: JSON_members r
  end.
Proof. destruct v; reflexivity. Qed.

Lemma JSON_members_elem ps k v' :
  (k, v') ∈ JSON_members ps →
  ∃ v, (k, v) ∈ ps ∧ v ≠ JUndefined ∧ v' = JSON_tree v.
Proof.
  induction ps as [|[k0 v0] r IH]; intros Hin.
  - inversion Hin.
  - rewrite JSON_members_cons in Hin.
    assert (Hcase : v0 = JUndefined ∧ (k, v') ∈ JSON_members r ∨
                    v0 ≠ JUndefined ∧ (k, v') ∈ (k0, JSON_tree v0) :: JSON_members r).
    { destruct v0; [left; auto | right; split; [discriminate | exact Hin] ..]. }
    destruct Hcase as [[_ H] | [Hne H]].
    + destruct (IH H) as (v & Hv & ?). exists v. split; [now right | auto].
    + apply elem_of_cons in H as [[= -> ->] | H].
      * exists v0. split; [now left | auto].
      * destruct (IH H) as (v & Hv & ?). exists v. split; [now right | auto].
Qed.

Lemma assoc_JSON_members_None k ps :
  existsb (String.eqb k) (map fst ps) = false → assoc k (JSON_members ps) = None.
Proof.
  induction ps as [|[k0 v0] r IH]; simpl; intros H; [reflexivity|].
  apply orb_false_iff in H as [Hk Hr].
  rewrite JSON_members_cons.
  destruct v0; simpl; rewrite ?Hk; auto.
Qed.

Lemma assoc_JSON_members k ps :
  distinct (map fst ps) = true →
  assoc k (JSON_members ps) =
  match assoc k ps with
  | Some JUndefined | None => None
  | Some v => Some (JSON_tree v)
  end.
Proof.
  induction ps as [|[k0 v0] r IH]; simpl; intros H; [reflexivity|].
  apply andb_true_iff in H as [Hk Hr]. apply negb_true_iff in Hk.
  rewrite JSON_members_cons.
  destruct (String.eqb k k0) eqn:E.
  - apply String.eqb_eq in E. subst k0.
    destruct v0; simpl; rewrite ?String.eqb_refl; auto.
    now apply assoc_JSON_members_None.
  - destruct v0; simpl; rewrite ?E; auto.
Qed.

Lemma prop_JSON_tree k o :
  keys_ok [k] o = true → prop (JSON_tree o) k = JSON_tree (prop o k).
Proof.
  destruct o as [| | | | |xs|ps]; try reflexivity.
  intros H. simpl in H. rewrite andb_true_r in H.
  rewrite JSON_tree_obj. unfold prop.
  rewrite (assoc_JSON_members k ps H).
  destruct (assoc k ps) as [[]|]; reflexivity.
Qed.

Lemma get_in_undefined path : get_in path JUndefined = JUndefined.
Proof. induction path as [|k r IH]; [reflexivity | exact IH]. Qed.

(** Reading a path in the serialized document is serializing what is
    read at that path in the object. *)
Lemma get_in_JSON_tree path o :
  keys_ok path o = true → get_in path (JSON_tree o) = JSON_tree (get_in path o).
Proof.
  revert o. induction path as [|k rest IH]; intros o H; [reflexivity|].
  unfold get_in in *. simpl foldl.
  assert (H1 : keys_ok [k] o = true ∧ keys_ok rest (prop o k) = true).
  { simpl in *. destruct o; auto; try (split; [reflexivity|]);
      try (destruct rest; reflexivity).
    apply andb_true_iff in H as [-> ->]. auto. }
  destruct H1 as [H1 H2]. rewrite (prop_JSON_tree k o H1). now apply IH.
Qed.

Lemma has_key_JSON_tree k ps :
  distinct (map fst ps) = true →
  has_key k (JSON_tree (JObj ps)) = true ↔
  ∃ v, assoc k ps = Some v ∧ v ≠ JUndefined.
Proof.
  intros H. rewrite JSON_tree_obj. unfold has_key.
  rewrite bool_decide_eq_true, (assoc_JSON_members k ps H).
  destruct (assoc k ps) as [v|].
  - destruct v; split;
      try (intros _; eexists; split; [reflexivity | discriminate]);
      try (intros _; eauto; fail).
    + intros [x Hx]. discriminate.
    + intros (v & [= <-] & Hv). congruence.
  - split; [intros [x Hx]; discriminate | intros (v & Hv & _); discriminate].
Qed.

(** ** Basic facts about the reporter *)

Lemma resolveHTTPAddresses_state w s : snd (resolveHTTPAddresses w s) = s.
Proof.
  unfold resolveHTTPAddresses. destruct (getContext w) as [c|]; [|reflexivity].
  unfold_M.
  repeat first
    [ reflexivity
    | match goal with
      | |- context [resolve ?c ?a] => destruct (resolve c a); simpl
      | |- context [URL_href ?w ?a ?b] => destruct (URL_href w a b); simpl
      | |- context [match ?v with JUndefined => _ | _ => _ end] => destruct v; simpl
      end ].
Qed.

Lemma getTracerData_core w s : same_core s (snd (getTracerData w s)).
Proof.
  unfold getTracerData, same_core. unfold_M.
  destruct (tracer_scope w) as [sc|]; simpl; [|tauto].
  destruct (_config sc) as [cfg|]; simpl; [|tauto].
  destruct (tags cfg) as [en|]; simpl; [|tauto].
  destruct (active sc); simpl; tauto.
Qed.

Lemma reportAttack_over w rule rm b s :
  MAX_EVENT_BACKLOG < Set_size (events s) →
  reportAttack w rule rm b s = (Return None, s).
Proof.
  intros H. unfold reportAttack. unfold_M.
  apply Z.ltb_lt in H. rewrite H. reflexivity.
Qed.

(** Below or at the threshold of line 110 the call either throws while
    resolving the ambient data, or builds, enqueues and returns a fresh
    event object. *)
Lemma reportAttack_run w rule rm b s c s' :
  Set_size (events s) <= MAX_EVENT_BACKLOG →
  reportAttack w rule rm b s = (c, s') →
  lock s' = lock s ∧ logs s' = logs s ∧ inflight s' = inflight s ∧
  ((∃ err, c = Throw err ∧ events s' = events s ∧ next_obj s' = next_obj s ∧
           uuid_calls s' = uuid_calls s ∧
           (fst (resolveHTTPAddresses w s) = Throw err ∨
            fst (getTracerData w s) = Throw err))
   ∨ (∃ http td,
        fst (resolveHTTPAddresses w s) = Return http ∧
        fst (getTracerData w s) = Return td ∧
        let e := {| obj_id := next_obj s;
                    obj_val := build_event w (uuid w (uuid_calls s))
                                 (Date_toJSON w (date_calls s)) rule rm http td |} in
        c = Return (Some e) ∧ events s' = Set_add e (events s) ∧
        next_obj s' = S (next_obj s) ∧ uuid_calls s' = S (uuid_calls s))).
Proof.
  intros Hsz. unfold reportAttack.
  unfold mbind at 1, M_bind at 1, bind at 1, gets at 1.
  apply Z.ltb_ge in Hsz. rewrite Hsz.
  unfold mbind at 1, M_bind at 1, bind at 1.
  pose proof (resolveHTTPAddresses_state w s) as Hst.
  destruct (resolveHTTPAddresses w s) as [[http|e1] s1]; simpl in Hst; subst s1.
  2:{ intros [= <- <-]. repeat split; try reflexivity. left. exists e1. simpl. tauto. }
  unfold mbind at 1, M_bind at 1, bind at 1.
  pose proof (getTracerData_core w s) as Hc.
  destruct (getTracerData w s) as [[td|e2] s2]; simpl in Hc;
    destruct Hc as (He & Hl & Hlg & Hi & Hn & Hu & Hd).
  2:{ intros [= <- <-]. repeat split; try assumption. left. exists e2. simpl. tauto. }
  unfold_M. simpl. intros [= <- <-]. simpl.
  repeat split; try assumption. right. exists http, td.
  rewrite He, Hn, Hu, Hd. simpl. repeat split; reflexivity.
Qed.

Lemma foldl_Set_delete (l acc : list EventObj) :
  foldl (fun a e => Set_delete e a) acc l =
  List.filter (fun x => forallb (fun e => negb (same_obj e x)) l) acc.
Proof.
  revert acc. induction l as [|e l IH]; intros acc; simpl.
  - induction acc as [|x acc IHa]; simpl; [reflexivity|]. now rewrite <- IHa.
  - rewrite IH. unfold Set_delete. clear IH.
    induction acc as [|x acc IHa]; simpl; [reflexivity|].
    destruct (negb (same_obj e x)); simpl; [|exact IHa].
    destruct (forallb _ l); simpl; [now rewrite IHa | exact IHa].
Qed.

(** Deleting every element of the snapshot empties the set. *)
Lemma drain_all (l : list EventObj) :
  foldl (fun a e => Set_delete e a) l l = [].
Proof.
  rewrite foldl_Set_delete.
  assert (H : ∀ acc, (∀ x, In x acc → In x l) →
            List.filter (fun x => forallb (fun e => negb (same_obj e x)) l) acc = []).
  { induction acc as [|x acc IH]; intros Hin; simpl; [reflexivity|].
    assert (Hx : forallb (fun e => negb (same_obj e x)) l = false).
    { apply not_true_is_false. intros Hall. rewrite forallb_forall in Hall.
      specialize (Hall x (Hin x (or_introl eq_refl))).
      unfold same_obj in Hall. rewrite Nat.eqb_refl in Hall. discriminate. }
    rewrite Hx. apply IH. intros y Hy. apply Hin. now right. }
  apply H. auto.
Qed.

Lemma flush_noop w s :
  lock s = true ∨ events s = [] → flush w s = (Return tt, s).
Proof.
  intros H. unfold flush. unfold_M. simpl.
  destruct H as [-> | ->]; [reflexivity|].
  simpl. now rewrite orb_true_r.
Qed.

(** A call of [flush] that passes the guard of line 171. *)
Lemma flush_drain w s c s' :
  lock s = false → events s ≠ [] → flush w s = (c, s') →
  events s' = [] ∧ next_obj s' = next_obj s ∧
  logs s' = logs s ++
            (if MAX_EVENT_BACKLOG <=? Set_size (events s) then [backlog_warning] else []) ∧
  ((∃ err, c = Throw err ∧
           (JSON_stringify_error w (flush_body w s) = Some err ∨
            (JSON_stringify_error w (flush_body w s) = None ∧ writer_url w = None ∧
             ∃ msg, err = TypeError msg)) ∧
           lock s' = false ∧ inflight s' = inflight s)
   ∨ (∃ req, c = Return tt ∧
             (JSON_stringify_error w (flush_body w s) = None ∧ is_Some (writer_url w)) ∧
             lock s' = true ∧
             inflight s' = inflight s ++ [req] ∧
             payload_events (opt_data req) = events s ∧
             idempotency_key (opt_data req) = uuid w (uuid_calls s) ∧
             protocol_version (opt_data req) = 1)).
Proof.
  intros Hl He. unfold flush.
  unfold mbind at 1, M_bind at 1, bind at 1, gets at 1. unfold id.
  assert (Hsz : (Set_size (events s) =? 0) = false).
  { apply Z.eqb_neq. unfold Set_size. destruct (events s); [congruence|simpl; lia]. }
  rewrite Hl, Hsz. simpl.
  unfold_M. unfold flush_body.
  destruct (MAX_EVENT_BACKLOG <=? Set_size (events s)); simpl;
    rewrite drain_all;
    (destruct (JSON_stringify_error w _) as [e|] eqn:Hj; simpl;
     [ intros [= <- <-]; simpl;
       (split; [reflexivity|]); (split; [reflexivity|]);
       (split; [first [reflexivity | now rewrite app_nil_r]|]);
       left; eexists; repeat split; eauto
     | destruct (writer_url w) as [url|]; simpl; intros [= <- <-]; simpl;
       (split; [reflexivity|]); (split; [reflexivity|]);
       (split; [first [reflexivity | now rewrite app_nil_r]|]);
       [ right; destruct (String.eqb (protocol url) "unix:");
         eexists; repeat split; eauto
       | left; eexists; split; [reflexivity|]; split; [right; eauto|]; split; auto ] ]).
Qed.

(** ** The invariant of the reachable states *)

Lemma Set_has_fresh e l :
  Forall (older_than (obj_id e)) l → Set_has e l = false.
Proof.
  induction 1 as [|x l Hx _ IH]; simpl; [reflexivity|].
  rewrite IH, orb_false_r. unfold same_obj. apply Nat.eqb_neq.
  unfold older_than in Hx. lia.
Qed.

Lemma Set_add_fresh e l :
  Forall (older_than (obj_id e)) l → Set_add e l = l ++ [e].
Proof. intros H. unfold Set_add. now rewrite Set_has_fresh. Qed.

Lemma older_than_mono n m l :
  (n <= m)%nat → Forall (older_than n) l → Forall (older_than m) l.
Proof.
  intros Hnm H. eapply Forall_impl; [exact H|].
  intros e He. unfold older_than in *. lia.
Qed.

Lemma Inv_init : Inv init.
Proof.
  split; simpl.
  - left. auto.
  - constructor.
  - constructor.
  - unfold Set_size, MAX_EVENT_BACKLOG. simpl. lia.
Qed.

(** What a call of [reportAttack] does to a state that satisfies the
    invariant, as seen by [step_out]. *)
Lemma step_report w rule rm b s :
  Inv s →
  let '(r, s') := step_out (CallReportAttack w rule rm b) s in
  lock s' = lock s ∧ logs s' = logs s ∧ inflight s' = inflight s ∧
  (next_obj s <= next_obj s')%nat ∧
  match r with
  | None => events s' = events s
  | Some e => events s' = events s ++ [e] ∧ obj_id e = next_obj s ∧
              next_obj s' = S (next_obj s) ∧
              Set_size (events s) <= MAX_EVENT_BACKLOG
  end.
Proof.
  intros HI. simpl.
  destruct (Z.lt_ge_cases MAX_EVENT_BACKLOG (Set_size (events s))) as [Hov|Hle].
  - rewrite (reportAttack_over _ _ _ _ _ Hov). repeat split; auto.
  - destruct (reportAttack w rule rm b s) as [c s'] eqn:E.
    destruct (reportAttack_run _ _ _ _ _ _ _ Hle E) as (Hl & Hlg & Hi & Hc).
    destruct Hc as [(err & -> & He & Hn & _) | (http & td & _ & _ & -> & He & Hn & _)].
    + repeat split; auto. lia.
    + repeat split; auto; try lia.
      rewrite He. apply Set_add_fresh. simpl. apply (inv_fresh _ HI).
Qed.

Lemma step_preserves_Inv a s : Inv s → Inv (step a s).
Proof.
  intros HI. destruct a as [w rule rm b | w | i err]; unfold step.
  - pose proof (step_report w rule rm b s HI) as H.
    destruct (step_out (CallReportAttack w rule rm b) s) as [r s'].
    destruct H as (Hl & Hlg & Hi & Hn & Hr). simpl.
    destruct HI as [Hf Hfr Hb Hs].
    split.
    + now rewrite Hi, Hl.
    + destruct r as [e|].
      * destruct Hr as (-> & Hid & Hn' & _). apply Forall_app. split.
        -- eapply older_than_mono; eauto.
        -- constructor; [|constructor]. unfold older_than. lia.
      * rewrite Hr. eapply older_than_mono; eauto.
    + rewrite Hi. eapply Forall_impl; [exact Hb|]. simpl. intros r0.
      now apply older_than_mono.
    + destruct r as [e|].
      * destruct Hr as (-> & _ & _ & Hsz). unfold Set_size in *.
        rewrite length_app. simpl. lia.
      * now rewrite Hr.
  - simpl. destruct (flush w s) as [c s'] eqn:E. simpl.
    destruct (lock s) eqn:Hl.
    { rewrite flush_noop in E by auto. now injection E as <- <-. }
    destruct (events s) as [|e0 evs] eqn:Hev.
    { rewrite flush_noop in E by auto. now injection E as <- <-. }
    assert (Hne : events s ≠ []) by (rewrite Hev; discriminate).
    destruct (flush_drain _ _ _ _ Hl Hne E) as (He & Hn & _ & Hc).
    destruct HI as [Hf Hfr Hb Hs].
    destruct Hf as [[Hnil _] | (req & _ & Hlk)]; [|congruence].
    split.
    + destruct Hc as [(err & _ & _ & Hl' & Hi') | (req & _ & _ & Hl' & Hi' & _)].
      * left. rewrite Hi', Hnil. auto.
      * right. exists req. rewrite Hi', Hnil. auto.
    + rewrite He. constructor.
    + destruct Hc as [(err & _ & _ & Hl' & Hi') | (req & _ & _ & Hl' & Hi' & Hp & _)].
      * rewrite Hi', Hnil. constructor.
      * rewrite Hi', Hnil. simpl. constructor; [|constructor].
        rewrite Hp, Hn. exact Hfr.
    + rewrite He. unfold Set_size, MAX_EVENT_BACKLOG. simpl. lia.
  - simpl. unfold complete.
    destruct (inflight s !! i) as [r|] eqn:Hi; [|exact HI].
    destruct HI as [Hf Hfr Hb Hs].
    destruct Hf as [[Hnil _] | (req & Hreq & Hlk)].
    { rewrite Hnil in Hi. discriminate. }
    assert (i = 0%nat) as ->.
    { rewrite Hreq in Hi. destruct i; [reflexivity|discriminate]. }
    unfold flush_callback. unfold_M.
    destruct err; simpl; (split; simpl; auto; rewrite Hreq; simpl; auto).
Qed.

Lemma run_app tr1 tr2 s : run (tr1 ++ tr2) s = run tr2 (run tr1 s).
Proof. unfold run. apply foldl_app. Qed.

Lemma run_preserves_Inv tr s : Inv s → Inv (run tr s).
Proof.
  revert s. induction tr as [|a tr IH]; intros s HI; simpl; [exact HI|].
  apply IH. now apply step_preserves_Inv.
Qed.

Lemma reachable_Inv tr : Inv (run tr init).
Proof. apply run_preserves_Inv, Inv_init. Qed.

(** ** The backlog bound *)

(** Over the bound a report is refused and nothing changes. *)
Lemma reportAttack_refused w rule rm b s :
  MAX_EVENT_BACKLOG < Set_size (events s) →
  step_out (CallReportAttack w rule rm b) s = (None, s).
Proof. intros H. simpl. now rewrite reportAttack_over. Qed.

(** In every reachable state the backlog holds at most one event more
    than [MAX_EVENT_BACKLOG]. *)
Lemma backlog_size_reachable tr :
  Set_size (events (run tr init)) <= MAX_EVENT_BACKLOG + 1.
Proof. apply inv_size, reachable_Inv. Qed.

(** With the backlog exactly at the bound, the guard [events.size >
    MAX_EVENT_BACKLOG] of line 110 lets the report through. *)
Lemma reportAttack_at_bound w rule rm b s http td :
  Inv s →
  Set_size (events s) = MAX_EVENT_BACKLOG →
  fst (resolveHTTPAddresses w s) = Return http →
  fst (getTracerData w s) = Return td →
  ∃ e, fst (reportAttack w rule rm b s) = Return (Some e) ∧
       events (snd (reportAttack w rule rm b s)) = events s ++ [e] ∧
       Set_size (events (snd (reportAttack w rule rm b s))) = MAX_EVENT_BACKLOG + 1.
Proof.
  intros HI Hsz Hh Ht.
  destruct (reportAttack w rule rm b s) as [c s'] eqn:E.
  assert (Hle : Set_size (events s) <= MAX_EVENT_BACKLOG) by lia.
  destruct (reportAttack_run _ _ _ _ _ _ _ Hle E) as (_ & _ & _ & Hc).
  destruct Hc as [(err & _ & _ & _ & _ & [H|H]) | (h & t & _ & _ & -> & He & _)].
  - congruence.
  - congruence.
  - eexists. simpl. split; [reflexivity|].
    rewrite He, Set_add_fresh by (simpl; apply (inv_fresh _ HI)).
    split; [reflexivity|]. unfold Set_size in *. rewrite length_app. simpl. lia.
Qed.

Lemma reports_size (n : N) :
  Z.of_N n <= MAX_EVENT_BACKLOG + 1 →
  Set_size (events (reports n)) = Z.of_N n ∧ Inv (reports n).
Proof.
  unfold reports. induction n as [|n IH] using N.peano_ind; intros Hn.
  - split; [reflexivity | apply Inv_init].
  - rewrite N.iter_succ. destruct IH as [Hsz HI]; [lia|].
    set (s := N.iter n _ init) in *. clearbody s.
    split; [|now apply step_preserves_Inv].
    unfold step.
    pose proof (step_report env0 JUndefined JUndefined JUndefined s HI) as H.
    destruct (step_out _ s) as [r s'] eqn:E. simpl.
    destruct H as (_ & _ & _ & _ & Hr).
    simpl in E.
    destruct (reportAttack env0 JUndefined JUndefined JUndefined s) as [c s''] eqn:E'.
    assert (Hle : Set_size (events s) <= MAX_EVENT_BACKLOG) by lia.
    destruct (reportAttack_run _ _ _ _ _ _ _ Hle E') as (_ & _ & _ & Hc).
    destruct Hc as [(err & _ & _ & _ & _ & [H|H]) | (h & t & _ & _ & -> & _)].
    + discriminate H.
    + discriminate H.
    + injection E as <- <-. destruct Hr as (-> & _).
      unfold Set_size in *. rewrite length_app. simpl. lia.
Qed.

(** C1 (the code departs from the claim): one million reports from the
    empty backlog leave it exactly at the bound of 1,000,000 entries, and
    the next call of reportAttack still returns an event and enqueues it,
    so that the backlog holds 1,000,001 entries. *)
Theorem reportAttack_exceeds_bound :
  Set_size (events (reports 1000000)) = MAX_EVENT_BACKLOG ∧
  ∃ e, fst (reportAttack env0 JUndefined JUndefined JUndefined (reports 1000000))
         = Return (Some e) ∧
       Set_size (events (snd (reportAttack env0 JUndefined JUndefined JUndefined
                                (reports 1000000))))
         = MAX_EVENT_BACKLOG + 1.
Proof.
  assert (Hb : Z.of_N 1000000 <= MAX_EVENT_BACKLOG + 1)
    by (unfold MAX_EVENT_BACKLOG; lia).
  destruct (reports_size 1000000 Hb) as [Hsz HI].
  generalize dependent (reports 1000000). intros s Hsz HI.
  assert (Hsz' : Set_size (events s) = MAX_EVENT_BACKLOG)
    by (rewrite Hsz; reflexivity).
  split; [exact Hsz'|].
  destruct (reportAttack_at_bound env0 JUndefined JUndefined JUndefined s
              (JObj []) (JObj [("serviceName", JStr "web"); ("serviceEnv", JStr "prod");
                               ("serviceVersion", JUndefined);
                               ("tags", JArr [JStr "_dd.appsec.enabled:1"])])
              HI Hsz' eq_refl eq_refl) as (e & H1 & _ & H3).
  exists e. split; assumption.
Qed.

(** ** The flush cycle *)

Lemma reachable_is_Inv s : reachable s → Inv s.
Proof. intros [tr ->]. apply reachable_Inv. Qed.

Lemma complete_spec i err s req :
  Inv s → inflight s !! i = Some req →
  inflight s = [req] ∧ i = 0%nat ∧
  lock (complete i err s) = false ∧ inflight (complete i err s) = [] ∧
  events (complete i err s) = events s ∧
  next_obj (complete i err s) = next_obj s ∧
  logs (complete i err s) =
    logs s ++ match err with Some e => [LogError e] | None => [] end.
Proof.
  intros HI Hi. destruct (inv_flight _ HI) as [[Hnil _] | (r & Hr & _)].
  { rewrite Hnil in Hi. discriminate. }
  rewrite Hr in Hi. destruct i; [|discriminate]. injection Hi as ->.
  unfold complete. rewrite Hr. simpl. unfold flush_callback. unfold_M.
  destruct err; simpl; rewrite Hr; simpl; repeat split; auto.
  now rewrite app_nil_r.
Qed.

(** While a transmission is outstanding and until it completes, calls of
    [reportAttack] and [flush] keep the lock and the outstanding request,
    and the backlog grows by exactly the events that were returned. *)
Lemma locked_run tr s :
  Inv s → lock s = true → forallb (fun a => negb (is_Complete a)) tr = true →
  lock (run tr s) = true ∧ inflight (run tr s) = inflight s ∧
  events (run tr s) = events s ++ enqueued tr s ∧
  Forall (fun e => (next_obj s <= obj_id e)%nat) (enqueued tr s).
Proof.
  revert s. induction tr as [|a tr IH]; intros s HI Hl Hnc; simpl.
  { rewrite app_nil_r. auto. }
  simpl in Hnc. apply andb_true_iff in Hnc as [Ha Hnc].
  assert (Hstep : lock (step a s) = true ∧ inflight (step a s) = inflight s ∧
                  (next_obj s <= next_obj (step a s))%nat ∧
                  match fst (step_out a s) with
                  | Some e => events (step a s) = events s ++ [e] ∧
                              obj_id e = next_obj s
                  | None => events (step a s) = events s
                  end).
  { destruct a as [w rule rm b | w | i err]; [| |discriminate].
    - pose proof (step_report w rule rm b s HI) as H. unfold step.
      destruct (step_out (CallReportAttack w rule rm b) s) as [r s'].
      destruct H as (H1 & _ & H3 & H4 & H5). simpl.
      repeat split; try congruence; auto.
      destruct r; tauto.
    - unfold step. simpl. rewrite flush_noop by auto. simpl. auto. }
  destruct Hstep as (Hl' & Hi' & Hn' & He').
  destruct (IH (step a s) (step_preserves_Inv _ _ HI) Hl' Hnc)
    as (IH1 & IH2 & IH3 & IH4).
  split; [exact IH1|]. split; [congruence|].
  assert (Hmono : Forall (fun e => (next_obj s <= obj_id e)%nat)
                    (enqueued tr (step a s))).
  { eapply Forall_impl; [exact IH4|]. simpl. intros e He. lia. }
  destruct (fst (step_out a s)) as [e|].
  - destruct He' as [He' Hid]. split.
    + rewrite IH3, He', <- app_assoc. reflexivity.
    + constructor; [lia | exact Hmono].
  - split; [rewrite IH3, He'; reflexivity | exact Hmono].
Qed.

(** Whatever happens later, the backlog only ever receives event objects
    allocated later. *)
Lemma later_events_fresh tr s :
  Inv s →
  (next_obj s <= next_obj (run tr s))%nat ∧
  Forall (fun e => e ∈ events s ∨ (next_obj s <= obj_id e)%nat) (events (run tr s)).
Proof.
  revert s. induction tr as [|a tr IH]; intros s HI; simpl.
  { split; [lia|]. apply Forall_forall. auto. }
  assert (Hstep : (next_obj s <= next_obj (step a s))%nat ∧
                  Forall (fun e => e ∈ events s ∨ (next_obj s <= obj_id e)%nat)
                    (events (step a s))).
  { destruct a as [w rule rm b | w | i err].
    - pose proof (step_report w rule rm b s HI) as H. unfold step.
      destruct (step_out (CallReportAttack w rule rm b) s) as [r s'].
      destruct H as (_ & _ & _ & H4 & H5). simpl. split; [exact H4|].
      destruct r as [e|].
      + destruct H5 as (-> & Hid & _). apply Forall_app. split.
        * apply Forall_forall. auto.
        * constructor; [right; lia | constructor].
      + rewrite H5. apply Forall_forall. auto.
    - unfold step. simpl. destruct (flush w s) as [c s'] eqn:E. simpl.
      destruct (lock s) eqn:Hl.
      { rewrite flush_noop in E by auto. injection E as <- <-.
        split; [lia|]. apply Forall_forall. auto. }
      destruct (events s) as [|e0 evs] eqn:Hev.
      { rewrite flush_noop in E by auto. injection E as <- <-.
        split; [lia|]. rewrite Hev. constructor. }
      assert (Hne : events s ≠ []) by (rewrite Hev; discriminate).
      destruct (flush_drain _ _ _ _ Hl Hne E) as (He & Hn & _).
      rewrite He, Hn. split; [lia | constructor].
    - unfold step. simpl. unfold complete.
      destruct (inflight s !! i) as [r|] eqn:Hi.
      + destruct (complete_spec i err s r HI Hi) as (_ & _ & _ & _ & He & Hn & _).
        unfold complete in He, Hn. rewrite Hi in He, Hn. rewrite He, Hn.
        split; [lia|]. apply Forall_forall. auto.
      + split; [lia|]. apply Forall_forall. auto. }
  destruct Hstep as [Hn Hev].
  destruct (IH (step a s) (step_preserves_Inv _ _ HI)) as [IHn IHev].
  split; [lia|].
  eapply Forall_impl; [exact IHev|]. simpl. intros e [He | He].
  - rewrite Forall_forall in Hev. destruct (Hev e He) as [H|H]; [left|right]; auto.
  - right. lia.
Qed.

Lemma flush_is_step w s : snd (flush w s) = step (CallFlush w) s.
Proof. reflexivity. Qed.

(** A call of [flush] that changes the set of outstanding requests passed
    the guard and handed exactly one request to the transport. *)
Lemma flush_started w s :
  Inv s → inflight (snd (flush w s)) ≠ inflight s →
  lock s = false ∧ events s ≠ [] ∧ inflight s = [] ∧
  fst (flush w s) = Return tt ∧ lock (snd (flush w s)) = true ∧
  events (snd (flush w s)) = [] ∧ next_obj (snd (flush w s)) = next_obj s ∧
  ∃ req, inflight (snd (flush w s)) = [req] ∧
         payload_events (opt_data req) = events s.
Proof.
  intros HI Hch.
  destruct (lock s) eqn:Hl.
  { rewrite flush_noop in Hch by auto. now destruct Hch. }
  destruct (events s) as [|e0 evs] eqn:Hev.
  { rewrite flush_noop in Hch by auto. now destruct Hch. }
  assert (Hne : events s ≠ []) by (rewrite Hev; discriminate).
  destruct (flush w s) as [c s1] eqn:E. simpl in *.
  destruct (flush_drain _ _ _ _ Hl Hne E) as (He & Hn & _ & Hc).
  destruct Hc as [(err & _ & _ & _ & Hi) | (req & -> & _ & Hl1 & Hi & Hp & _)].
  { now destruct Hch. }
  destruct (inv_flight _ HI) as [[Hnil _] | (r & _ & Hlk)]; [|congruence].
  rewrite Hnil in *. simpl in Hi.
  repeat split; auto; try congruence. exists req. rewrite <- Hev. auto.
Qed.

(** C2: in every reachable state at most one flush transmission is
    outstanding, and the lock is held exactly when one is; a call of flush
    made while the lock is held or the backlog is empty changes nothing; a
    call of flush that hands a request to the transport found the lock
    free and leaves it held with that request as the only outstanding one;
    until the transport completes the request no call of reportAttack or
    flush releases the lock; completion, with or without an error,
    releases it. *)
Theorem one_flush_in_flight (s : State) (w : Env) :
  reachable s →
  (length (inflight s) <= 1)%nat ∧
  (lock s = true ↔ length (inflight s) = 1%nat) ∧
  (lock s = true ∨ events s = [] → flush w s = (Return tt, s)) ∧
  (inflight (snd (flush w s)) ≠ inflight s →
     lock s = false ∧ lock (snd (flush w s)) = true ∧
     ∃ req, inflight (snd (flush w s)) = [req]) ∧
  (∀ a, is_Complete a = false → lock s = true →
     lock (step a s) = true ∧ inflight (step a s) = inflight s) ∧
  (∀ i err, is_Some (inflight s !! i) →
     lock (complete i err s) = false ∧ inflight (complete i err s) = []).
Proof.
  intros Hr. pose proof (reachable_is_Inv s Hr) as HI.
  split; [|split; [|split; [|split; [|split]]]].
  - destruct (inv_flight _ HI) as [[-> _] | (r & -> & _)]; simpl; lia.
  - destruct (inv_flight _ HI) as [[-> ->] | (r & -> & ->)]; simpl; split;
      congruence.
  - apply flush_noop.
  - intros Hch.
    destruct (flush_started w s HI Hch) as (Hl & _ & _ & _ & Hl1 & _ & _ & req & Hq & _).
    eauto.
  - intros a Ha Hl.
    destruct (locked_run [a] s HI Hl) as (H1 & H2 & _).
    { simpl. now rewrite Ha. }
    auto.
  - intros i err [req Hi].
    destruct (complete_spec i err s req HI Hi) as (_ & _ & H1 & H2 & _). auto.
Qed.

Lemma one_flush_in_flight_witness :
  reachable busy_state ∧
  lock busy_state = true ∧
  flush env0 busy_state = (Return tt, busy_state) ∧
  lock (complete 0 (Some (Error "ECONNREFUSED")) busy_state) = false.
Proof.
  assert (Hr : reachable busy_state) by (eexists; reflexivity).
  destruct (one_flush_in_flight busy_state env0 Hr) as (_ & _ & H3 & _ & _ & H6).
  split; [exact Hr|]. split; [reflexivity|]. split.
  - apply H3. left. reflexivity.
  - apply H6. vm_compute. eauto.
Defined.

(** C3: a call of flush that starts a transmission hands over exactly the
    events that were in the backlog when it was called, which are the
    events of the serialized body, and leaves the backlog empty; up to the
    completion of the transmission the outstanding request stays that one,
    the backlog consists exactly of the events that calls of reportAttack
    returned since, none of which is in the batch; they are still in the
    backlog when the transmission completes, and the next call of flush
    drains exactly them: they are its batch when it starts a transmission,
    which it does whenever their body can be serialized and the exporter
    has a writer URL. *)
Theorem flush_takes_snapshot (s : State) (w : Env) :
  reachable s →
  inflight (snd (flush w s)) ≠ inflight s →
  ∃ req,
    inflight (snd (flush w s)) = [req] ∧
    payload_events (opt_data req) = events s ∧
    get_in ["events"] (stringify_payload (opt_data req))
      = JSON_tree (JArr (map obj_val (events s))) ∧
    events (snd (flush w s)) = [] ∧
    ∀ tr, forallb (fun a => negb (is_Complete a)) tr = true →
      inflight (run tr (snd (flush w s))) = [req] ∧
      events (run tr (snd (flush w s))) = enqueued tr (snd (flush w s)) ∧
      (∀ e, e ∈ enqueued tr (snd (flush w s)) →
            obj_id e ∉ ids (payload_events (opt_data req))) ∧
      ∀ err w',
        events (complete 0 err (run tr (snd (flush w s))))
          = enqueued tr (snd (flush w s)) ∧
        (enqueued tr (snd (flush w s)) ≠ [] →
         events (snd (flush w' (complete 0 err (run tr (snd (flush w s)))))) = [] ∧
         (inflight (snd (flush w' (complete 0 err (run tr (snd (flush w s)))))) = [] ∨
          ∃ req',
            inflight (snd (flush w' (complete 0 err (run tr (snd (flush w s))))))
              = [req'] ∧
            payload_events (opt_data req') = enqueued tr (snd (flush w s))) ∧
         (JSON_stringify_error w'
            (flush_body w' (complete 0 err (run tr (snd (flush w s))))) = None →
          is_Some (writer_url w') →
          ∃ req',
            inflight (snd (flush w' (complete 0 err (run tr (snd (flush w s))))))
              = [req'] ∧
            payload_events (opt_data req') = enqueued tr (snd (flush w s)))).
Proof.
  intros Hr Hch. pose proof (reachable_is_Inv s Hr) as HI.
  destruct (flush_started w s HI Hch)
    as (Hl & Hne & Hnil & _ & Hl1 & He1 & Hn1 & req & Hq & Hp).
  assert (HI1 : Inv (snd (flush w s))).
  { rewrite flush_is_step. now apply step_preserves_Inv. }
  set (s1 := snd (flush w s)) in *.
  exists req. split; [exact Hq|]. split; [exact Hp|]. split.
  { unfold stringify_payload. rewrite get_in_JSON_tree by reflexivity.
    unfold get_in. simpl foldl. now rewrite Hp. }
  split; [exact He1|]. intros tr H.
  split; [|split; [|split; [|intros err w'; split]]].
  - destruct (locked_run tr s1 HI1 Hl1 H) as (_ & H2 & _). congruence.
  - destruct (locked_run tr s1 HI1 Hl1 H) as (_ & _ & H3 & _).
    rewrite H3, He1. reflexivity.
  - intros e He Hin.
    destruct (locked_run tr s1 HI1 Hl1 H) as (_ & _ & _ & H4).
    rewrite Forall_forall in H4. specialize (H4 e He).
    unfold ids in Hin. apply list_elem_of_fmap in Hin as (e' & Hid & He').
    rewrite Hp in He'. pose proof (inv_fresh _ HI) as Hf.
    rewrite Forall_forall in Hf. specialize (Hf e' He'). unfold older_than in Hf.
    lia.
  - destruct (locked_run tr s1 HI1 Hl1 H) as (_ & H2 & H3 & _).
    assert (Hi : inflight (run tr s1) !! 0%nat = Some req) by (rewrite H2, Hq; reflexivity).
    destruct (complete_spec 0 err _ req (run_preserves_Inv tr s1 HI1) Hi)
      as (_ & _ & _ & _ & He & _).
    rewrite He, H3, He1. reflexivity.
  - intros Hne'.
    destruct (locked_run tr s1 HI1 Hl1 H) as (_ & H2 & H3 & _).
    assert (Hi : inflight (run tr s1) !! 0%nat = Some req) by (rewrite H2, Hq; reflexivity).
    pose proof (run_preserves_Inv tr s1 HI1) as HI2.
    destruct (complete_spec 0 err _ req HI2 Hi) as (_ & _ & Hl3 & Hi3 & He3 & _).
    set (s3 := complete 0 err (run tr s1)) in *.
    assert (He3' : events s3 = enqueued tr s1) by (rewrite He3, H3, He1; reflexivity).
    assert (Hne3 : events s3 ≠ []) by (rewrite He3'; exact Hne').
    destruct (flush w' s3) as [c' s4] eqn:E. simpl.
    destruct (flush_drain _ _ _ _ Hl3 Hne3 E) as (He4 & _ & _ & Hc).
    split; [exact He4|].
    destruct Hc as [(e & _ & Hwhy & _ & Hi4) | (req' & _ & _ & _ & Hi4 & Hp4 & _)].
    + split; [left; congruence|]. intros Hser Hurl.
      destruct Hwhy as [Hj | (_ & Hnone & _)]; [congruence|].
      rewrite Hnone in Hurl. destruct Hurl; discriminate.
    + assert (Hreq : ∃ req', inflight s4 = [req'] ∧
                             payload_events (opt_data req') = enqueued tr s1).
      { exists req'. rewrite Hi4, Hi3, Hp4, He3'. auto. }
      split; [right; exact Hreq | intros _ _; exact Hreq].
Qed.

Lemma flush_takes_snapshot_witness :
  reachable (run [CallReportAttack env0 (JStr "rule") (JArr []) JUndefined] init) ∧
  ∃ req,
    inflight busy_state = [req] ∧
    payload_events (opt_data req) =
      events (run [CallReportAttack env0 (JStr "rule") (JArr []) JUndefined] init) ∧
    events busy_state = [].
Proof.
  assert (Hr : reachable (run [CallReportAttack env0 (JStr "rule") (JArr []) JUndefined] init))
    by (eexists; reflexivity).
  split; [exact Hr|].
  destruct (flush_takes_snapshot _ env0 Hr) as (req & H1 & H2 & _ & H3 & _).
  - vm_compute. discriminate.
  - exists req. auto.
Defined.

(** C4: a call of flush that passes its guard has emptied the backlog
    when it returns or throws, whether or not a request reached the
    transport, and a request that did carries the drained events; whatever
    happens afterwards no drained event is in the backlog again, and when
    the transport completes a request with an error the callback logs the
    error, releases the lock and puts nothing back. *)
Theorem failed_batch_is_dropped (s : State) (w : Env) :
  reachable s → lock s = false → events s ≠ [] →
  events (snd (flush w s)) = [] ∧
  (inflight (snd (flush w s)) = [] ∨
   ∃ req, inflight (snd (flush w s)) = [req] ∧
          payload_events (opt_data req) = events s) ∧
  ∀ tr,
    (∀ e, e ∈ events (run tr (snd (flush w s))) → obj_id e ∉ ids (events s)) ∧
    ∀ i err req,
      inflight (run tr (snd (flush w s))) !! i = Some req →
      events (complete i (Some err) (run tr (snd (flush w s))))
        = events (run tr (snd (flush w s))) ∧
      logs (complete i (Some err) (run tr (snd (flush w s))))
        = logs (run tr (snd (flush w s))) ++ [LogError err] ∧
      lock (complete i (Some err) (run tr (snd (flush w s)))) = false ∧
      inflight (complete i (Some err) (run tr (snd (flush w s)))) = [].
Proof.
  intros Hr Hl Hne. pose proof (reachable_is_Inv s Hr) as HI.
  assert (HI1 : Inv (snd (flush w s))).
  { rewrite flush_is_step. now apply step_preserves_Inv. }
  destruct (flush w s) as [c s1] eqn:E. simpl in *.
  destruct (flush_drain _ _ _ _ Hl Hne E) as (He & Hn & _ & Hc).
  assert (Hnil : inflight s = []).
  { destruct (inv_flight _ HI) as [[H _] | (r & _ & H)]; [exact H | congruence]. }
  split; [exact He|]. split.
  { destruct Hc as [(err & _ & _ & _ & Hi) | (req & _ & _ & _ & Hi & Hp & _)].
    - left. congruence.
    - right. exists req. rewrite Hi, Hnil. auto. }
  intros tr. split.
  - intros e Hin Hold.
    destruct (later_events_fresh tr s1 HI1) as [_ Hf].
    rewrite Forall_forall in Hf. destruct (Hf e Hin) as [H | H].
    + rewrite He in H. inversion H.
    + unfold ids in Hold. apply list_elem_of_fmap in Hold as (e' & Hid & He').
      pose proof (inv_fresh _ HI) as Hfr. rewrite Forall_forall in Hfr.
      specialize (Hfr e' He'). unfold older_than in Hfr. lia.
  - intros i err req Hi.
    destruct (complete_spec i (Some err) _ req (run_preserves_Inv tr s1 HI1) Hi)
      as (_ & _ & H1 & H2 & H3 & _ & H5).
    auto.
Qed.

Lemma failed_batch_is_dropped_witness :
  reachable (run [CallReportAttack env0 (JStr "rule") (JArr []) JUndefined] init) ∧
  events (complete 0 (Some (Error "ECONNREFUSED")) busy_state) = [] ∧
  logs (complete 0 (Some (Error "ECONNREFUSED")) busy_state)
    = [LogError (Error "ECONNREFUSED")].
Proof.
  assert (Hr : reachable (run [CallReportAttack env0 (JStr "rule") (JArr []) JUndefined] init))
    by (eexists; reflexivity).
  split; [exact Hr|].
  destruct (failed_batch_is_dropped _ env0 Hr) as (_ & _ & H).
  - reflexivity.
  - vm_compute. discriminate.
  - destruct (H []) as [_ H2].
    destruct (H2 0%nat (Error "ECONNREFUSED")
                (default
                   {| opt_path := ""; opt_method := ""; opt_headers := [];
                      opt_data := {| protocol_version := 0; idempotency_key := "";
                                     payload_events := [] |};
                      opt_socketPath := None; opt_protocol := None;
                      opt_hostname := None; opt_port := None |}
                   (inflight busy_state !! 0%nat)))
      as (H3 & H4 & _).
    + reflexivity.
    + split; [exact H3 | exact H4].
Defined.

(** ** Ambient context of a report *)

Lemma resolveHTTPAddresses_none w s :
  getContext w = None → resolveHTTPAddresses w s = (Return (JObj []), s).
Proof. intros H. unfold resolveHTTPAddresses. now rewrite H. Qed.

Lemma resolveHTTPAddresses_some w s ctx path headers href method ip port :
  getContext w = Some ctx →
  resolve ctx (HTTP_INCOMING_URL (Addresses w)) = Return path →
  resolve ctx (HTTP_INCOMING_HEADERS (Addresses w)) = Return headers →
  headers ≠ JUndefined → headers ≠ JNull →
  URL_href w (ToString path) ("http://" +:+ ToString (prop headers "host")) = Some href →
  resolve ctx (HTTP_INCOMING_METHOD (Addresses w)) = Return method →
  resolve ctx (HTTP_INCOMING_REMOTE_IP (Addresses w)) = Return ip →
  resolve ctx (HTTP_INCOMING_REMOTE_PORT (Addresses w)) = Return port →
  resolveHTTPAddresses w s =
    (Return (JObj [("method", method);
                   ("url", JStr (split_first "?"%char href));
                   ("remote_ip", ip);
                   ("remote_port", port);
                   ("headers", getHeadersToSend headers)]), s).
Proof.
  intros Hc Hp Hh Hu Hn Hr Hm Hi Hpo. unfold resolveHTTPAddresses.
  rewrite Hc. unfold_M. rewrite Hp, Hh. simpl.
  destruct headers; try congruence; simpl in *; rewrite Hr; simpl;
    rewrite Hm, Hi, Hpo; reflexivity.
Qed.

(** The other direction: when [resolveHTTPAddresses] returns under an
    execution context, the context resolved the addresses it read. *)
Lemma resolveHTTPAddresses_inv w s ctx http :
  getContext w = Some ctx →
  fst (resolveHTTPAddresses w s) = Return http →
  ∃ path headers href method ip port,
    resolve ctx (HTTP_INCOMING_URL (Addresses w)) = Return path ∧
    resolve ctx (HTTP_INCOMING_HEADERS (Addresses w)) = Return headers ∧
    headers ≠ JUndefined ∧ headers ≠ JNull ∧
    URL_href w (ToString path) ("http://" +:+ ToString (prop headers "host")) = Some href ∧
    resolve ctx (HTTP_INCOMING_METHOD (Addresses w)) = Return method ∧
    resolve ctx (HTTP_INCOMING_REMOTE_IP (Addresses w)) = Return ip ∧
    resolve ctx (HTTP_INCOMING_REMOTE_PORT (Addresses w)) = Return port ∧
    http = JObj [("method", method);
                 ("url", JStr (split_first "?"%char href));
                 ("remote_ip", ip);
                 ("remote_port", port);
                 ("headers", getHeadersToSend headers)].
Proof.
  intros Hc. unfold resolveHTTPAddresses. rewrite Hc. unfold_M.
  destruct (resolve ctx (HTTP_INCOMING_URL _)) as [path|] eqn:Hp; simpl; [|discriminate].
  destruct (resolve ctx (HTTP_INCOMING_HEADERS _)) as [headers|] eqn:Hh; simpl; [|discriminate].
  destruct headers; simpl; try discriminate;
    (destruct (URL_href w _ _) as [href|] eqn:Hr; simpl; [|discriminate];
     destruct (resolve ctx (HTTP_INCOMING_METHOD _)) as [method|] eqn:Hm; simpl; [|discriminate];
     destruct (resolve ctx (HTTP_INCOMING_REMOTE_IP _)) as [ip|] eqn:Hi; simpl; [|discriminate];
     destruct (resolve ctx (HTTP_INCOMING_REMOTE_PORT _)) as [port|] eqn:Hpo; simpl; [|discriminate];
     intros [= <-]; do 6 eexists; repeat split; eauto; discriminate).
Qed.

Lemma getTracerData_ok w s sc cfg entries :
  tracer_scope w = Some sc → _config sc = Some cfg → tags cfg = Some entries →
  fst (getTracerData w s) =
    Return (JObj ([("serviceName", service cfg);
                   ("serviceEnv", env cfg);
                   ("serviceVersion", version cfg);
                   ("tags", JArr (map (fun kv => JStr (fst kv +:+ ":" +:+ ToString (snd kv)))
                                    entries))] ++
                  match active sc with
                  | Some sp => [("spanId", toSpanId sp); ("traceId", toTraceId sp)]
                  | None => []
                  end)).
Proof.
  intros H1 H2 H3. unfold getTracerData. unfold_M. rewrite H1. simpl.
  rewrite H2. simpl. rewrite H3. simpl. destruct (active sc); reflexivity.
Qed.

Lemma getTracerData_inv w s td :
  fst (getTracerData w s) = Return td →
  ∃ sc cfg entries,
    tracer_scope w = Some sc ∧ _config sc = Some cfg ∧ tags cfg = Some entries.
Proof.
  unfold getTracerData. unfold_M.
  destruct (tracer_scope w) as [sc|] eqn:H1; simpl; [|discriminate].
  destruct (_config sc) as [cfg|] eqn:H2; simpl; [|discriminate].
  destruct (tags cfg) as [en|] eqn:H3; simpl; [|discriminate].
  intros _. exists sc, cfg, en. auto.
Qed.

Lemma Set_has_add e l : Set_has e (Set_add e l) = true.
Proof.
  unfold Set_add. destruct (Set_has e l) eqn:H; [exact H|].
  unfold Set_has. rewrite existsb_app. simpl.
  unfold same_obj. rewrite Nat.eqb_refl. simpl. apply orb_true_r.
Qed.

(** C5 (amended): below the backlog bound, with a tracer installed
    whose scope carries a configuration with a tags object, and with
    either no execution context or one that resolves the five HTTP
    addresses with headers that are neither undefined nor null and a URL
    that can be built, reportAttack returns an event that is in the
    backlog; without an execution context the request block of the event
    serializes to an empty object, and without an active span the span and
    trace identifiers are undefined. *)
Theorem reportAttack_tolerates_absent_context
    (w : Env) (rule rm b : JSValue) (s : State)
    (sc : Scope) (cfg : ScopeConfig) (entries : list (string * JSValue)) :
  Set_size (events s) < MAX_EVENT_BACKLOG →
  tracer_scope w = Some sc → _config sc = Some cfg → tags cfg = Some entries →
  (getContext w = None ∨
   ∃ ctx path headers href method ip port,
     getContext w = Some ctx ∧
     resolve ctx (HTTP_INCOMING_URL (Addresses w)) = Return path ∧
     resolve ctx (HTTP_INCOMING_HEADERS (Addresses w)) = Return headers ∧
     headers ≠ JUndefined ∧ headers ≠ JNull ∧
     URL_href w (ToString path) ("http://" +:+ ToString (prop headers "host"))
       = Some href ∧
     resolve ctx (HTTP_INCOMING_METHOD (Addresses w)) = Return method ∧
     resolve ctx (HTTP_INCOMING_REMOTE_IP (Addresses w)) = Return ip ∧
     resolve ctx (HTTP_INCOMING_REMOTE_PORT (Addresses w)) = Return port) →
  ∃ e, fst (reportAttack w rule rm b s) = Return (Some e) ∧
       Set_has e (events (snd (reportAttack w rule rm b s))) = true ∧
       (getContext w = None →
          JSON_tree (get_in request_path (obj_val e)) = JObj []) ∧
       (active sc = None →
          get_in ["context"; "span"; "id"] (obj_val e) = JUndefined ∧
          get_in ["context"; "trace"; "id"] (obj_val e) = JUndefined).
Proof.
  intros Hsz Ht Hcf Htg Hctx.
  pose proof (getTracerData_ok w s sc cfg entries Ht Hcf Htg) as Htd.
  assert (Hhttp : ∃ http, resolveHTTPAddresses w s = (Return http, s) ∧
                          (getContext w = None → http = JObj [])).
  { destruct Hctx as [Hn | (ctx & path & headers & href & method & ip & port &
                           Hc & H1 & H2 & H3 & H4 & H5 & H6 & H7 & H8)].
    - eexists. split; [now apply resolveHTTPAddresses_none | auto].
    - eexists. split; [eapply resolveHTTPAddresses_some; eauto | congruence]. }
  destruct Hhttp as (http & Hh & Hnone).
  destruct (reportAttack w rule rm b s) as [c s'] eqn:E.
  assert (Hle : Set_size (events s) <= MAX_EVENT_BACKLOG) by lia.
  destruct (reportAttack_run _ _ _ _ _ _ _ Hle E) as (_ & _ & _ & Hc).
  destruct Hc as [(err & _ & _ & _ & _ & [H|H]) | (h & t & Hh' & Ht' & -> & He & _)].
  - rewrite Hh in H. discriminate.
  - rewrite Htd in H. discriminate.
  - rewrite Hh in Hh'. cbn [fst] in Hh'. injection Hh' as <-.
    rewrite Htd in Ht'. injection Ht' as <-.
    eexists. split; [reflexivity|]. cbn [snd fst obj_val]. split; [|split].
    + rewrite He. apply Set_has_add.
    + intros Hn. rewrite (Hnone Hn). reflexivity.
    + intros Ha. rewrite Ha. split; reflexivity.
Qed.

Lemma reportAttack_tolerates_absent_context_witness :
  Set_size (events init) < MAX_EVENT_BACKLOG ∧
  ∃ e, fst (reportAttack env0 (JStr "rule") (JArr []) JUndefined init) = Return (Some e) ∧
       JSON_tree (get_in request_path (obj_val e)) = JObj [] ∧
       get_in ["context"; "span"; "id"] (obj_val e) = JUndefined.
Proof.
  assert (Hsz : Set_size (events init) < MAX_EVENT_BACKLOG) by reflexivity.
  split; [exact Hsz|].
  destruct (reportAttack_tolerates_absent_context env0 (JStr "rule") (JArr []) JUndefined
              init {| _config := Some config0; active := None |} config0
              [("_dd.appsec.enabled", JNum 1)] Hsz eq_refl eq_refl eq_refl
              (or_introl eq_refl))
    as (e & H1 & _ & H3 & H4).
  exists e. split; [exact H1|]. split; [exact (H3 eq_refl) | exact (proj1 (H4 eq_refl))].
Defined.

(** C5 as stated fails: with an empty backlog and no tracer installed
    ([global._ddtrace._tracer.scope()] cannot be evaluated), reportAttack
    throws a TypeError from [getTracerData] and returns no event. *)
Lemma reportAttack_throws_without_tracer :
  Set_size (events init) < MAX_EVENT_BACKLOG ∧
  fst (reportAttack (with_tracer None env0) (JStr "rule") (JArr []) JUndefined init)
    = Throw (TypeError "Cannot read property 'scope' of undefined").
Proof. split; reflexivity. Qed.

(** The scope of the no-op tracer has no [_config]: the same failure. *)
Lemma reportAttack_throws_with_noop_scope :
  ∃ err,
    fst (reportAttack (with_tracer (Some {| _config := None; active := None |}) env0)
           (JStr "rule") (JArr []) JUndefined init) = Throw err.
Proof. eexists. reflexivity. Qed.

(** An execution context in which the headers were never published:
    [headers.host] on line 39 throws before the guard of
    [getHeadersToSend] is reached. *)
Lemma reportAttack_throws_on_unresolved_headers :
  getHeadersToSend JUndefined = JObj [] ∧
  ∃ err,
    fst (reportAttack
           (with_context (Some (context_of [("server.request.method", JStr "GET")])) env0)
           (JStr "rule") (JArr []) JUndefined init) = Throw err.
Proof. split; [reflexivity | eexists; reflexivity]. Qed.

(** ** The text of [Date.prototype.toJSON] *)

(** The model on known dates: the epoch, a leap day, the millisecond
    before the epoch, and the ends of the range of four-digit years and of
    the range of time values. *)
Lemma toISOString_examples :
  toISOString 0 = "1970-01-01T00:00:00.000Z" ∧
  toISOString 1234567890123 = "2009-02-13T23:31:30.123Z" ∧
  toISOString 951782400000 = "2000-02-29T00:00:00.000Z" ∧
  toISOString 1709251199999 = "2024-02-29T23:59:59.999Z" ∧
  toISOString (-1) = "1969-12-31T23:59:59.999Z" ∧
  toISOString (-62167219200000) = "0000-01-01T00:00:00.000Z" ∧
  toISOString (-62198755200000) = "-000001-01-01T00:00:00.000Z" ∧
  toISOString 253402300800000 = "+010000-01-01T00:00:00.000Z" ∧
  toISOString 8640000000000000 = "+275760-09-13T00:00:00.000Z" ∧
  toISOString (-8640000000000000) = "-271821-04-20T00:00:00.000Z".
Proof. vm_compute. repeat split. Qed.

Lemma is_ISO_8601_examples :
  is_ISO_8601 "2021-09-01T00:00:00.000Z" = true ∧
  is_ISO_8601 "+275760-09-13T00:00:00.000Z" = true ∧
  is_ISO_8601 "2021-13-01T00:00:00.000Z" = false ∧
  is_ISO_8601 "2021-09-01 00:00:00.000Z" = false ∧
  is_ISO_8601 "2021-09-01T00:00:00Z" = false ∧
  is_ISO_8601 "2021-09-01T00:00:00.000Zx" = false.
Proof. vm_compute. repeat split. Qed.


Lemma digit_value_digit_char x :
  digit_value (digit_char x) = Some (x mod 10).
Proof.
  unfold digit_char.
  assert (H : 0 <= x mod 10 < 10) by (apply Z.mod_pos_bound; lia).
  remember (x mod 10) as r eqn:E. clear E.
  assert (Hr : r = 0 ∨ r = 1 ∨ r = 2 ∨ r = 3 ∨ r = 4 ∨ r = 5 ∨ r = 6 ∨ r = 7 ∨
               r = 8 ∨ r = 9) by lia.
  destruct Hr as [-> | [-> | [-> | [-> | [-> | [-> | [-> | [-> | [-> | ->]]]]]]]]];
    reflexivity.
Qed.

Lemma take_year_digit x r :
  take_year (String (digit_char x) r) = snd <$> take_digits 4 0 (String (digit_char x) r).
Proof.
  unfold take_year, digit_char.
  assert (H : 0 <= x mod 10 < 10) by (apply Z.mod_pos_bound; lia).
  remember (x mod 10) as d eqn:E. clear E.
  assert (Hr : d = 0 ∨ d = 1 ∨ d = 2 ∨ d = 3 ∨ d = 4 ∨ d = 5 ∨ d = 6 ∨ d = 7 ∨
               d = 8 ∨ d = 9) by lia.
  destruct Hr as [-> | [-> | [-> | [-> | [-> | [-> | [-> | [-> | [-> | ->]]]]]]]]];
    reflexivity.
Qed.

Lemma two_digits_pad2 lo hi x rest :
  0 <= x < 100 → lo <= x <= hi → two_digits lo hi (pad2 x rest) = Some rest.
Proof.
  intros H Hr. unfold two_digits, pad2. cbn [take_digits].
  rewrite !digit_value_digit_char. cbn [mbind option_bind fst snd].
  assert (Hq : 0 <= x / 10 < 10).
  { split; [apply Z.div_pos; lia | apply Z.div_lt_upper_bound; lia]. }
  rewrite (Z.mod_small (x / 10) 10) by lia.
  pose proof (Z.div_mod x 10 ltac:(lia)) as Hx.
  replace (10 * (10 * 0 + x / 10) + x mod 10) with x by lia.
  replace ((lo <=? x) && (x <=? hi)) with true; [reflexivity|].
  symmetry. apply andb_true_iff. lia.
Qed.

Lemma take_digits_pad3 x rest :
  ∃ v, take_digits 3 0 (pad3 x rest) = Some (v, rest).
Proof.
  unfold pad3, pad2. cbn [take_digits]. rewrite !digit_value_digit_char. eauto.
Qed.

Lemma take_digits_pad4 x rest :
  ∃ v, take_digits 4 0 (pad4 x rest) = Some (v, rest).
Proof.
  unfold pad4, pad3, pad2. cbn [take_digits]. rewrite !digit_value_digit_char. eauto.
Qed.

Lemma take_digits_pad6 x rest :
  ∃ v, take_digits 6 0 (pad6 x rest) = Some (v, rest).
Proof.
  unfold pad6, pad4, pad3, pad2. cbn [take_digits]. rewrite !digit_value_digit_char. eauto.
Qed.

Lemma check_from_spec n z0 f z :
  check_from n z0 f = true → z0 <= z < z0 + Z.of_nat n → f z = true.
Proof.
  revert z0. induction n as [|k IH]; simpl; intros z0 H Hz; [lia|].
  apply andb_true_iff in H as [H1 H2].
  destruct (Z.eq_dec z z0) as [-> | Hne]; [exact H1|].
  apply (IH (z0 + 1)); [exact H2 | lia].
Qed.

(** Every day of an era is one of the 366 days of its year, and each of
    these has a month from 1 to 12 and a day of the month from 1 to 31:
    checked on the 146097 days of an era and the 366 days of a year. *)
Lemma era_days_checked :
  check_from (Z.to_nat 146097) 0
    (fun doe => let doy := day_of_year doe in (0 <=? doy) && (doy <=? 365)) = true.
Proof. vm_compute. reflexivity. Qed.

Lemma year_days_checked :
  check_from 366 0
    (fun doy => let m := month_of_year_day doy in
                let d := date_of_year_day doy in
                (1 <=? m) && (m <=? 12) && (1 <=? d) && (d <=? 31)) = true.
Proof. vm_compute. reflexivity. Qed.

Lemma era_day_ranges doe :
  0 <= doe < 146097 →
  1 <= month_of_year_day (day_of_year doe) <= 12 ∧
  1 <= date_of_year_day (day_of_year doe) <= 31.
Proof.
  intros H.
  pose proof (check_from_spec _ _ _ doe era_days_checked) as Hc.
  cbv beta zeta in Hc. rewrite Z2Nat.id in Hc by lia. specialize (Hc ltac:(lia)).
  rewrite !andb_true_iff in Hc.
  pose proof (check_from_spec _ _ _ (day_of_year doe) year_days_checked) as Hy.
  cbv beta zeta in Hy. specialize (Hy ltac:(lia)).
  rewrite !andb_true_iff in Hy. lia.
Qed.

(** Whatever the time value, the text of [toISOString] is a date and
    time in the ISO-8601 format. *)
Lemma toISOString_is_ISO_8601 (t : Z) : is_ISO_8601 (toISOString t) = true.
Proof.
  unfold toISOString.
  unfold civil_from_days.
  set (doe := (t / msPerDay + 719468) mod 146097).
  assert (Hdoe : 0 <= doe < 146097) by (apply Z.mod_pos_bound; lia).
  destruct (era_day_ranges doe Hdoe) as [Hm Hd].
  assert (Hms : 0 <= t mod msPerDay < 86400000)
    by (apply Z.mod_pos_bound; unfold msPerDay; lia).
  set (ms := t mod msPerDay) in *.
  assert (Hh : 0 <= ms / 3600000 < 24).
  { split; [apply Z.div_pos; lia | apply Z.div_lt_upper_bound; lia]. }
  assert (Hmi : 0 <= ms / 60000 mod 60 < 60) by (apply Z.mod_pos_bound; lia).
  assert (Hs : 0 <= ms / 1000 mod 60 < 60) by (apply Z.mod_pos_bound; lia).
  assert (Hf : 0 <= ms mod 1000 < 1000) by (apply Z.mod_pos_bound; lia).
  set (yr := if month_of_year_day (day_of_year doe) <=? 2 then _ else _). clearbody yr.
  set (tail := String "-" _).
  assert (Hy : take_year (if (0 <=? yr) && (yr <=? 9999) then pad4 yr tail
                          else String (if yr <? 0 then "-"%char else "+"%char)
                                 (pad6 (Z.abs yr) tail)) = Some tail).
  { destruct ((0 <=? yr) && (yr <=? 9999)).
    - unfold pad4 at 1. rewrite take_year_digit. fold (pad4 yr tail).
      destruct (take_digits_pad4 yr tail) as [v ->]. reflexivity.
    - destruct (take_digits_pad6 (Z.abs yr) tail) as [v Hv].
      unfold take_year. destruct (yr <? 0); rewrite Hv; reflexivity. }
  destruct (take_digits_pad3 (ms mod 1000) "Z") as [v Hv].
  unfold is_ISO_8601. rewrite Hy. unfold tail.
  repeat first
    [ rewrite two_digits_pad2 by lia
    | rewrite Hv
    | progress cbn [mbind option_bind expect Ascii.eqb Bool.eqb snd] ].
  reflexivity.
Qed.

(** ** Values drawn from the uuid generator *)

Lemma flush_uuid_calls w s :
  lock s = false → events s ≠ [] →
  uuid_calls (snd (flush w s)) = S (uuid_calls s).
Proof.
  intros Hl Hne.
  assert (Hsz : (Set_size (events s) =? 0) = false).
  { apply Z.eqb_neq. unfold Set_size. destruct (events s); [congruence|simpl; lia]. }
  unfold flush. unfold_M. unfold id. rewrite Hl, Hsz. simpl.
  destruct (MAX_EVENT_BACKLOG <=? Set_size (events s)); simpl;
    (destruct (JSON_stringify_error w _); unfold throw, ret; simpl;
     [reflexivity | destruct (writer_url w); reflexivity]).
Qed.

(** What one action draws from the uuid generator: at most one value, the
    next one, which becomes the id of the returned event or the key of the
    request handed over. *)
Lemma step_draws u a s :
  uses_uuid u a →
  (uuid_calls s <= uuid_calls (step a s))%nat ∧
  (uuid_calls (step a s) <= S (uuid_calls s))%nat ∧
  match fst (step_out a s) with
  | Some e => event_id_of e = JStr (u (uuid_calls s)) ∧
              uuid_calls (step a s) = S (uuid_calls s)
  | None => True
  end ∧
  match (if is_Complete a then []
         else drop (length (inflight s)) (inflight (step a s))) with
  | [] => True
  | [r] => key_of r = JStr (u (uuid_calls s)) ∧
           uuid_calls (step a s) = S (uuid_calls s) ∧
           fst (step_out a s) = None
  | _ => False
  end.
Proof.
  intros Hu. destruct a as [w rule rm b | w | i err]; unfold step; simpl.
  - unfold uses_uuid in Hu. simpl in Hu.
    destruct (Z.lt_ge_cases MAX_EVENT_BACKLOG (Set_size (events s))) as [Hov|Hle].
    { rewrite (reportAttack_over _ _ _ _ _ Hov). simpl.
      rewrite drop_all. repeat split; lia. }
    destruct (reportAttack w rule rm b s) as [c s'] eqn:E.
    destruct (reportAttack_run _ _ _ _ _ _ _ Hle E) as (_ & _ & Hi & Hc).
    destruct Hc as [(err & -> & _ & _ & Hc & _) | (http & td & _ & _ & -> & _ & _ & Hc)];
      simpl; rewrite Hi, drop_all, Hc.
    + repeat split; lia.
    + repeat split; try lia. unfold event_id_of. simpl. now rewrite Hu.
  - unfold uses_uuid in Hu. simpl in Hu.
    destruct (lock s) eqn:Hl.
    { rewrite flush_noop by auto. simpl. rewrite drop_all. repeat split; lia. }
    destruct (events s) as [|e0 evs] eqn:Hev.
    { rewrite flush_noop by auto. simpl. rewrite drop_all. repeat split; lia. }
    assert (Hne : events s ≠ []) by (rewrite Hev; discriminate).
    pose proof (flush_uuid_calls w s Hl Hne) as Hc.
    destruct (flush w s) as [c s'] eqn:E. simpl in *.
    destruct (flush_drain _ _ _ _ Hl Hne E) as (_ & _ & _ & Hd).
    destruct Hd as [(err & _ & _ & _ & Hi) | (req & _ & _ & _ & Hi & _ & Hk & _)];
      rewrite Hi, Hc.
    + rewrite drop_all. repeat split; lia.
    + rewrite drop_app_length. repeat split; try lia.
      unfold key_of. now rewrite Hk, Hu.
  - unfold complete. destruct (inflight s !! i); simpl; [|repeat split; lia].
    unfold flush_callback. unfold_M. destruct err; simpl; repeat split; lia.
Qed.

Lemma run_draws u tr s :
  Forall (uses_uuid u) tr →
  ∃ ie ik,
    map event_id_of (enqueued tr s) = map (fun i => JStr (u i)) ie ∧
    map key_of (requested tr s) = map (fun i => JStr (u i)) ik ∧
    NoDup (ie ++ ik) ∧
    Forall (fun i => (uuid_calls s <= i)%nat) (ie ++ ik).
Proof.
  revert s. induction tr as [|a tr IH]; intros s Hall.
  { exists [], []. simpl. repeat split; constructor. }
  apply Forall_cons in Hall as [Ha Hall].
  destruct (IH (step a s) Hall) as (ie & ik & He & Hk & Hnd & Hge).
  destruct (step_draws u a s Ha) as (Hmono & Hmax & Hev & Hreq).
  simpl.
  assert (Hlater : Forall (fun i => (uuid_calls s <= i)%nat) (ie ++ ik)).
  { eapply Forall_impl; [exact Hge|]. simpl. intros i Hi. lia. }
  destruct (fst (step_out a s)) as [e|].
  - destruct Hev as [Hid Hs].
    assert (Hnone : (if is_Complete a then []
                     else drop (length (inflight s)) (inflight (step a s))) = []).
    { destruct (if is_Complete a then [] else _) as [|r [|r' l]]; [reflexivity| |tauto].
      destruct Hreq as (_ & _ & [=]). }
    rewrite Hnone. simpl.
    exists (uuid_calls s :: ie), ik. simpl. rewrite Hid, He.
    split; [reflexivity|]. split; [exact Hk|]. split.
    + constructor; [|exact Hnd]. intros Hin.
      rewrite Forall_forall in Hge. specialize (Hge _ Hin). lia.
    + constructor; [lia | exact Hlater].
  - destruct (if is_Complete a then [] else _) as [|r [|r' l]]; [| |tauto].
    + simpl. exists ie, ik. auto.
    + destruct Hreq as (Hkey & Hs & _). simpl.
      exists ie, (uuid_calls s :: ik). rewrite Hkey, Hk.
      split; [exact He|]. split; [reflexivity|]. split.
      * apply NoDup_app in Hnd as (H1 & H2 & H3).
        apply NoDup_app. split; [exact H1|]. split.
        -- intros x Hx Hx'. apply elem_of_cons in Hx' as [-> | Hx']; [|now apply (H2 x)].
           rewrite Forall_forall in Hge.
           specialize (Hge (uuid_calls s)). rewrite elem_of_app in Hge.
           specialize (Hge (or_introl Hx)). lia.
        -- constructor; [|exact H3]. intros Hin.
           rewrite Forall_forall in Hge.
           specialize (Hge (uuid_calls s)). rewrite elem_of_app in Hge.
           specialize (Hge (or_intror Hin)). lia.
      * apply Forall_app in Hlater as [L1 L2]. apply Forall_app. split; [exact L1|].
        constructor; [lia | exact L2].
Qed.

Lemma enqueued_app tr1 tr2 s :
  enqueued (tr1 ++ tr2) s = enqueued tr1 s ++ enqueued tr2 (run tr1 s).
Proof.
  revert s. induction tr1 as [|a tr1 IH]; intros s; simpl; [reflexivity|].
  rewrite IH. destruct (fst (step_out a s)); reflexivity.
Qed.

Lemma requested_app tr1 tr2 s :
  requested (tr1 ++ tr2) s = requested tr1 s ++ requested tr2 (run tr1 s).
Proof.
  revert s. induction tr1 as [|a tr1 IH]; intros s; simpl; [reflexivity|].
  rewrite IH, app_assoc. reflexivity.
Qed.

(** The generator of the example environments never repeats a value. *)
Lemma uuid_env0_inj (i j : nat) : uuid env0 i = uuid env0 j → i = j.
Proof.
  simpl. intros H. injection H as H. change (pretty i = pretty j) in H.
  now apply (inj pretty) in H.
Qed.

(** The id of the event that a call returns after a run has been used
    neither for an event nor for a request of the run, when the generator
    never repeats a value. *)
Lemma event_id_unused u tr a e :
  (∀ i j, u i = u j → i = j) →
  Forall (uses_uuid u) (tr ++ [a]) →
  fst (step_out a (run tr init)) = Some e →
  event_id_of e ∉ map event_id_of (enqueued tr init) ++ map key_of (requested tr init).
Proof.
  intros Hinj Hall He.
  destruct (run_draws u (tr ++ [a]) init Hall) as (ie & ik & Hie & Hik & Hnd & _).
  assert (Hi : Inj (=) (=) (fun i => JStr (u i))).
  { intros i j [= H]. now apply Hinj. }
  apply (NoDup_fmap_2 (fun i => JStr (u i))) in Hnd.
  rewrite map_app, <- Hie, <- Hik, enqueued_app, requested_app in Hnd.
  cbn [enqueued] in Hnd. rewrite He in Hnd.
  rewrite !map_app in Hnd. cbn [map] in Hnd.
  apply NoDup_app in Hnd as (H1 & H2 & _).
  apply NoDup_app in H1 as (_ & H3 & _).
  intros Hin. apply elem_of_app in Hin as [Hin | Hin].
  - apply (H3 _ Hin). now left.
  - apply (H2 (event_id_of e)).
    + apply elem_of_app. right. now left.
    + apply elem_of_app. now left.
Qed.

(** ** Serialized shape of an event *)

Lemma set_prop_elem k v ps k' v' :
  (k', v') ∈ set_prop k v ps → (k', v') = (k, v) ∨ (k', v') ∈ ps.
Proof.
  induction ps as [|[k0 v0] r IH]; simpl; intros H.
  - apply list_elem_of_singleton in H. auto.
  - destruct (String.eqb k k0).
    + apply elem_of_cons in H as [H|H]; [auto | right; now right].
    + apply elem_of_cons in H as [H|H]; [right; rewrite H; now left|].
      destruct (IH H) as [?|?]; [auto | right; now right].
Qed.

Lemma getHeadersToSend_loop_elem headers names result k v :
  (k, v) ∈ getHeadersToSend_loop headers names result →
  (k, v) ∈ result ∨
  (k ∈ names ∧ v = JArr [prop headers k] ∧ truthy (prop headers k) = true).
Proof.
  revert result. induction names as [|n rest IH]; simpl; intros result H; [auto|].
  destruct (IH _ H) as [Hr | (Hk & Hv & Ht)].
  - destruct (truthy (prop headers n)) eqn:Htr; [|auto].
    apply set_prop_elem in Hr as [[= -> ->] | Hr]; [|auto].
    right. split; [now left | auto].
  - right. split; [now right | auto].
Qed.

(** [getHeadersToSend] returns an object whose keys are allow-listed and
    whose values are one-element arrays of the (truthy) header value. *)
Lemma getHeadersToSend_spec headers :
  ∃ hs, getHeadersToSend headers = JObj hs ∧
        ∀ k v, (k, v) ∈ hs →
          k ∈ HEADERS_TO_SEND ∧ v = JArr [prop headers k] ∧
          truthy (prop headers k) = true.
Proof.
  unfold getHeadersToSend. destruct (negb (truthy headers)).
  - exists []. split; [reflexivity|]. intros k v H. inversion H.
  - eexists. split; [reflexivity|]. intros k v H.
    apply getHeadersToSend_loop_elem in H as [H|H]; [inversion H | exact H].
Qed.

Lemma JSON_tree_singleton x :
  truthy x = true → JSON_tree (JArr [x]) = JArr [JSON_tree x].
Proof. destruct x; simpl; intros H; try discriminate; reflexivity. Qed.

(** Whatever [resolveHTTPAddresses] returns has no [route]. *)
Lemma resolveHTTPAddresses_no_route w s http :
  fst (resolveHTTPAddresses w s) = Return http → prop http "route" = JUndefined.
Proof.
  destruct (getContext w) as [ctx|] eqn:Hc; intros H.
  - destruct (resolveHTTPAddresses_inv w s ctx http Hc H)
      as (? & ? & ? & ? & ? & ? & _ & _ & _ & _ & _ & _ & _ & _ & ->).
    reflexivity.
  - rewrite resolveHTTPAddresses_none in H by exact Hc. now injection H as <-.
Qed.

(** C6 (amended): every event returned by reportAttack serializes with
    event_type appsec, event_version 1.0.0, a fresh event_id and an
    ISO-8601 detected_at: the event_id is the value that uuid() gave to
    the call, which is the id of no event reported before and the key of
    no request made before when uuid() never repeats a value, and the
    detected_at is the text that (new Date()).toJSON() gave to the call,
    which is in the ISO-8601 format; each of the context blocks host,
    http, library, service, span, tags and trace carries a
    context_version string; the request block never has a resource field;
    rule and rule_match are present exactly when the argument is not
    undefined; under an execution context the request block has a url and
    headers, and method, remote_ip and remote_port are the resolved values
    unchanged, each present exactly when the value is not undefined; the
    url is the href of the published URL resolved against http://<host
    header> cut at its first question mark, and the headers object has
    allow-listed names only, each with the one-element array of the
    header's value. *)
Theorem attack_event_shape (w : Env) (rule rm b : JSValue) (s : State) (e : EventObj) :
  fst (reportAttack w rule rm b s) = Return (Some e) →
  get_in ["event_type"] (JSON_tree (obj_val e)) = JStr "appsec" ∧
  get_in ["event_version"] (JSON_tree (obj_val e)) = JStr "1.0.0" ∧
  get_in ["event_id"] (JSON_tree (obj_val e)) = JStr (uuid w (uuid_calls s)) ∧
  (∀ tr, s = run tr init → Forall (uses_uuid (uuid w)) tr →
         (∀ i j, uuid w i = uuid w j → i = j) →
         event_id_of e ∉
           map event_id_of (enqueued tr init) ++ map key_of (requested tr init)) ∧
  get_in ["detected_at"] (JSON_tree (obj_val e)) = JStr (Date_toJSON w (date_calls s)) ∧
  is_ISO_8601 (Date_toJSON w (date_calls s)) = true ∧
  (∀ k, k ∈ context_blocks →
     ∃ v, get_in ["context"; k; "context_version"] (JSON_tree (obj_val e)) = JStr v) ∧
  has_key "resource" (get_in request_path (JSON_tree (obj_val e))) = false ∧
  (has_key "rule" (JSON_tree (obj_val e)) = true ↔ rule ≠ JUndefined) ∧
  (has_key "rule_match" (JSON_tree (obj_val e)) = true ↔ rm ≠ JUndefined) ∧
  (∀ ctx, getContext w = Some ctx →
     ∃ path headers href method ip port hs,
       resolve ctx (HTTP_INCOMING_URL (Addresses w)) = Return path ∧
       resolve ctx (HTTP_INCOMING_HEADERS (Addresses w)) = Return headers ∧
       resolve ctx (HTTP_INCOMING_METHOD (Addresses w)) = Return method ∧
       URL_href w (ToString path) ("http://" +:+ ToString (prop headers "host"))
         = Some href ∧
       get_in (request_path ++ ["method"]) (obj_val e) = method ∧
       get_in (request_path ++ ["url"]) (JSON_tree (obj_val e))
         = JStr (split_first "?"%char href) ∧
       get_in (request_path ++ ["headers"]) (JSON_tree (obj_val e)) = JObj hs ∧
       (∀ k v, (k, v) ∈ hs →
          k ∈ HEADERS_TO_SEND ∧ v = JArr [JSON_tree (prop headers k)]) ∧
       resolve ctx (HTTP_INCOMING_REMOTE_IP (Addresses w)) = Return ip ∧
       resolve ctx (HTTP_INCOMING_REMOTE_PORT (Addresses w)) = Return port ∧
       get_in (request_path ++ ["method"]) (JSON_tree (obj_val e)) = JSON_tree method ∧
       get_in (request_path ++ ["remote_ip"]) (JSON_tree (obj_val e)) = JSON_tree ip ∧
       get_in (request_path ++ ["remote_port"]) (JSON_tree (obj_val e)) = JSON_tree port ∧
       (∀ k v, (k, v) ∈ [("method", method); ("remote_ip", ip); ("remote_port", port)] →
          (has_key k (get_in request_path (JSON_tree (obj_val e))) = true ↔
           v ≠ JUndefined)) ∧
       has_key "url" (get_in request_path (JSON_tree (obj_val e))) = true ∧
       has_key "headers" (get_in request_path (JSON_tree (obj_val e))) = true).
Proof.
  intros H.
  assert (Hfresh : ∀ tr, s = run tr init → Forall (uses_uuid (uuid w)) tr →
             (∀ i j, uuid w i = uuid w j → i = j) →
             event_id_of e ∉
               map event_id_of (enqueued tr init) ++ map key_of (requested tr init)).
  { intros tr -> Hall Hinj.
    apply (event_id_unused (uuid w) tr (CallReportAttack w rule rm b) e Hinj).
    - apply Forall_app. split; [exact Hall|]. constructor; [reflexivity | constructor].
    - simpl. destruct (reportAttack w rule rm b (run tr init)) as [[r|err] s1];
        simpl in H; [now injection H as -> | discriminate]. }
  destruct (reportAttack w rule rm b s) as [c s'] eqn:E. simpl in H. subst c.
  assert (Hle : Set_size (events s) <= MAX_EVENT_BACKLOG).
  { destruct (Z.lt_ge_cases MAX_EVENT_BACKLOG (Set_size (events s))) as [Hov|Hle];
      [|exact Hle].
    rewrite (reportAttack_over _ _ _ _ _ Hov) in E. discriminate. }
  destruct (reportAttack_run _ _ _ _ _ _ _ Hle E) as (_ & _ & _ & Hc).
  destruct Hc as [(err & [=] & _) | (http & td & Hh & Ht & He & _)].
  injection He as ->. simpl obj_val.
  pose proof (resolveHTTPAddresses_no_route w s http Hh) as Hroute.
  split; [now rewrite get_in_JSON_tree by reflexivity|].
  split; [now rewrite get_in_JSON_tree by reflexivity|].
  split; [now rewrite get_in_JSON_tree by reflexivity|].
  split; [exact Hfresh|]. clear Hfresh.
  split; [now rewrite get_in_JSON_tree by reflexivity|].
  split; [apply toISOString_is_ISO_8601|].
  split.
  { intros k Hk. unfold context_blocks in Hk.
    repeat (apply elem_of_cons in Hk as [-> | Hk];
            [rewrite get_in_JSON_tree by reflexivity; eexists; reflexivity|]).
    inversion Hk. }
  split.
  { rewrite get_in_JSON_tree by reflexivity.
    apply not_true_is_false. intros Hk.
    unfold request_path, get_in, build_event in Hk. simpl foldl in Hk.
    apply has_key_JSON_tree in Hk; [|reflexivity].
    destruct Hk as (v & Hv & Hne). simpl in Hv. injection Hv as <-.
    now rewrite Hroute in Hne. }
  split.
  { unfold build_event. rewrite has_key_JSON_tree by reflexivity. simpl.
    split; [intros (v & [= <-] & Hv); exact Hv | eauto]. }
  split.
  { unfold build_event. rewrite has_key_JSON_tree by reflexivity. simpl.
    split; [intros (v & [= <-] & Hv); exact Hv | eauto]. }
  intros ctx Hctx.
  destruct (resolveHTTPAddresses_inv w s ctx http Hctx Hh)
    as (path & headers & href & method & ip & port &
        H1 & H2 & _ & _ & H5 & H6 & H7 & H8 & ->).
  destruct (getHeadersToSend_spec headers) as (hs & Hhs & Hall).
  exists path, headers, href, method, ip, port, (JSON_members hs).
  repeat (split; [assumption|]).
  split; [reflexivity|].
  split; [now rewrite get_in_JSON_tree by reflexivity|].
  split.
  { rewrite get_in_JSON_tree by reflexivity.
    unfold request_path, get_in, build_event. simpl foldl.
    change (prop _ "headers") with (getHeadersToSend headers).
    rewrite Hhs. apply JSON_tree_obj. }
  split.
  { intros k v Hin.
    apply JSON_members_elem in Hin as (v0 & Hin & _ & ->).
    destruct (Hall k v0 Hin) as (Hk & -> & Htr).
    split; [exact Hk|]. now apply JSON_tree_singleton. }
  repeat (split; [assumption|]).
  split; [now rewrite get_in_JSON_tree by reflexivity|].
  split; [now rewrite get_in_JSON_tree by reflexivity|].
  split; [now rewrite get_in_JSON_tree by reflexivity|].
  rewrite get_in_JSON_tree by reflexivity.
  unfold request_path, get_in, build_event. simpl foldl.
  change (prop (JObj ?ps) ?k) with (default JUndefined (assoc k ps)).
  cbn [assoc String.eqb Ascii.eqb Bool.eqb default].
  rewrite Hhs.
  split; [|split].
  - intros k v Hin. rewrite has_key_JSON_tree by reflexivity.
    repeat (apply elem_of_cons in Hin as [[= -> ->] | Hin];
            [cbn [assoc String.eqb Ascii.eqb Bool.eqb];
             split; [intros (v' & [= <-] & Hv); exact Hv | eauto]|]).
    inversion Hin.
  - apply has_key_JSON_tree; [reflexivity|]. eexists. split; [reflexivity | discriminate].
  - apply has_key_JSON_tree; [reflexivity|]. eexists. split; [reflexivity | discriminate].
Qed.

Lemma attack_event_shape_witness :
  fst (reportAttack env1 (JStr "rule") (JArr []) JUndefined init)
    = Return (Some scenario_event) ∧
  get_in ["event_type"] (JSON_tree (obj_val scenario_event)) = JStr "appsec" ∧
  get_in (request_path ++ ["method"]) (obj_val scenario_event) = JStr "GET" ∧
  get_in (request_path ++ ["url"]) (JSON_tree (obj_val scenario_event))
    = JStr "https://x/y" ∧
  get_in (request_path ++ ["remote_ip"]) (JSON_tree (obj_val scenario_event))
    = JStr "10.0.0.1" ∧
  get_in (request_path ++ ["remote_port"]) (JSON_tree (obj_val scenario_event))
    = JNum 4242 ∧
  get_in ["detected_at"] (JSON_tree (obj_val scenario_event))
    = JStr "2021-09-01T00:00:00.000Z" ∧
  get_in ["event_id"] (JSON_tree (obj_val later_event)) = JStr "uuid-2" ∧
  event_id_of later_event ∉ [JStr "uuid-0"; JStr "uuid-1"].
Proof.
  assert (H : fst (reportAttack env1 (JStr "rule") (JArr []) JUndefined init)
              = Return (Some scenario_event)) by reflexivity.
  assert (H' : fst (reportAttack env1 (JStr "rule") (JArr []) JUndefined
                      (run [CallReportAttack env1 (JStr "rule") (JArr []) JUndefined;
                            CallFlush env1] init))
               = Return (Some later_event)) by (vm_compute; reflexivity).
  destruct (attack_event_shape env1 (JStr "rule") (JArr []) JUndefined _
              later_event H') as (_ & _ & Hid & Hfr & _).
  specialize (Hfr _ eq_refl ltac:(repeat constructor) uuid_env0_inj).
  destruct (attack_event_shape env1 (JStr "rule") (JArr []) JUndefined init
              scenario_event H) as (H1 & _ & _ & _ & Hd & _ & _ & _ & _ & _ & H7).
  destruct (H7 (context_of store1) eq_refl)
    as (path & headers & href & method & ip & port & hs & Hp & Hh & Hm & Hu & Hme &
        Hurl & _ & _ & Hip & Hport & _ & Hgi & Hgp & _).
  split; [exact H|]. split; [exact H1|].
  vm_compute in Hp, Hh, Hm. injection Hp as <-. injection Hh as <-. injection Hm as <-.
  vm_compute in Hu. injection Hu as <-.
  vm_compute in Hip, Hport. injection Hip as <-. injection Hport as <-.
  split; [exact Hme|]. split; [exact Hurl|]. split; [exact Hgi|]. split; [exact Hgp|].
  split; [rewrite Hd; vm_compute; reflexivity|].
  split; [rewrite Hid; vm_compute; reflexivity|].
  vm_compute in Hfr. vm_compute. exact Hfr.
Defined.

(** C6 as stated fails: in the scenario the serialized event has the url
    https://x/y and the method GET, but not every documented field of the
    request block is present: resource is missing. *)
Lemma scenario_event_lacks_resource :
  fst (reportAttack env1 (JStr "rule") (JArr []) JUndefined init)
    = Return (Some scenario_event) ∧
  get_in (request_path ++ ["url"]) (JSON_tree (obj_val scenario_event))
    = JStr "https://x/y" ∧
  get_in (request_path ++ ["method"]) (JSON_tree (obj_val scenario_event))
    = JStr "GET" ∧
  forallb (fun k => has_key k (get_in request_path (JSON_tree (obj_val scenario_event))))
    documented_request_fields = false ∧
  has_key "resource" (get_in request_path (JSON_tree (obj_val scenario_event))) = false.
Proof. repeat split; vm_compute; reflexivity. Qed.

(** Without an execution context the request block of the serialized
    event is empty: none of its documented fields is present. *)
Lemma request_block_empty_without_context :
  get_in request_path
    (JSON_tree (obj_val (returned (fst (reportAttack env0 (JStr "rule") (JArr [])
                                          JUndefined init))))) = JObj [].
Proof. vm_compute. reflexivity. Qed.

(** Under an execution context in which no remote address was published
    the request block has neither remote_ip nor remote_port. *)
Lemma remote_address_absent_when_unpublished :
  let request :=
    get_in request_path
      (JSON_tree (obj_val (returned (fst (reportAttack
         (with_context
            (Some (context_of [("server.request.method", JStr "GET");
                               ("server.request.uri.raw", JStr "/y");
                               ("server.request.headers.no_cookies",
                                  JObj [("host", JStr "x")])]))
            env0)
         (JStr "rule") (JArr []) JUndefined init))))) in
  has_key "method" request = true ∧ has_key "url" request = true ∧
  has_key "headers" request = true ∧
  has_key "remote_ip" request = false ∧ has_key "remote_port" request = false.
Proof. vm_compute. repeat split. Qed.

(** The url of an event is not the published URL without its query
    string: a published path is resolved against the host header. *)
Lemma url_is_resolved_against_host :
  get_in (request_path ++ ["url"])
    (obj_val (returned (fst (reportAttack
       (with_context
          (Some (context_of [("server.request.uri.raw", JStr "/y?z=1");
                             ("server.request.headers.no_cookies",
                                JObj [("host", JStr "x")])]))
          env0)
       (JStr "rule") (JArr []) JUndefined init))))
  = JStr "http://x/y".
Proof. reflexivity. Qed.

(** Called with one argument, as [applyResult] does, the event has no
    rule_match when serialized. *)
Lemma rule_match_absent_without_second_argument :
  has_key "rule_match"
    (JSON_tree (obj_val (returned (fst (reportAttack env1 (JStr "rule") JUndefined
                                          JUndefined init))))) = false.
Proof. reflexivity. Qed.

(** ** Sorting and de-duplicating addresses *)

Lemma ascii_compare_N (x y : Ascii.ascii) :
  Ascii.compare x y = N.compare (N_of_ascii x) (N_of_ascii y).
Proof. reflexivity. Qed.

Lemma string_compare_not_Gt_trans (a b c : string) :
  String.compare a b ≠ Gt → String.compare b c ≠ Gt → String.compare a c ≠ Gt.
Proof.
  revert b c. induction a as [|x a IH]; intros [|y b] [|z c]; simpl;
    try congruence.
  rewrite !ascii_compare_N.
  destruct (N.compare_spec (N_of_ascii x) (N_of_ascii y)) as [Exy|Lxy|Gxy];
    destruct (N.compare_spec (N_of_ascii y) (N_of_ascii z)) as [Eyz|Lyz|Gyz];
    try congruence;
    destruct (N.compare_spec (N_of_ascii x) (N_of_ascii z)) as [Exz|Lxz|Gxz];
    try congruence; try lia.
  apply IH.
Qed.

Lemma leb_not_Gt (a b : string) : String.leb a b = true ↔ String.compare a b ≠ Gt.
Proof. unfold String.leb. destruct (String.compare a b); split; congruence. Qed.

#[global] Instance str_le_trans : Transitive str_le.
Proof.
  intros a b c. unfold str_le. rewrite !leb_not_Gt.
  apply string_compare_not_Gt_trans.
Qed.

#[global] Instance str_le_total : Total str_le.
Proof. intros a b. apply String.leb_total. Qed.

#[global] Instance str_le_antisym : AntiSymm (=) str_le.
Proof. intros a b. apply String.leb_antisym. Qed.

Lemma Array_from_Set_elem (l : list string) (x : string) :
  x ∈ Array_from_Set l ↔ x ∈ l.
Proof.
  induction l as [|y r IH]; simpl; [reflexivity|].
  rewrite !elem_of_cons, list_elem_of_In, filter_In, <- list_elem_of_In, IH.
  rewrite negb_true_iff, String.eqb_neq.
  destruct (decide (x = y)) as [->|Hne]; [tauto|].
  split; [tauto | intros [?|?]; [tauto | right; split; [assumption | congruence]]].
Qed.

Lemma NoDup_List_filter {A} (f : A → bool) (l : list A) :
  NoDup l → NoDup (List.filter f l).
Proof.
  induction 1 as [|x l Hx Hl IH]; simpl; [constructor|].
  destruct (f x); [|exact IH]. constructor; [|exact IH].
  rewrite list_elem_of_In, filter_In, <- list_elem_of_In. tauto.
Qed.

Lemma Array_from_Set_NoDup (l : list string) : NoDup (Array_from_Set l).
Proof.
  induction l as [|y r IH]; simpl; constructor.
  - rewrite list_elem_of_In, filter_In, negb_true_iff, String.eqb_neq. tauto.
  - now apply NoDup_List_filter.
Qed.

Lemma canonical_elem (l : list string) (x : string) : x ∈ canonical l ↔ x ∈ l.
Proof.
  unfold canonical, sort. rewrite merge_sort_Permutation. apply Array_from_Set_elem.
Qed.

Lemma canonical_NoDup (l : list string) : NoDup (canonical l).
Proof.
  unfold canonical, sort. rewrite merge_sort_Permutation. apply Array_from_Set_NoDup.
Qed.

Lemma canonical_sorted (l : list string) : StronglySorted str_le (canonical l).
Proof. apply StronglySorted_merge_sort; apply _. Qed.

(** The canonical address list depends on the set of addresses only, not
    on their order or repetition. *)
Lemma canonical_set_eq (l1 l2 : list string) :
  (∀ a, a ∈ l1 ↔ a ∈ l2) → canonical l1 = canonical l2.
Proof.
  intros H. apply (StronglySorted_unique str_le); try apply canonical_sorted.
  apply NoDup_Permutation; try apply canonical_NoDup.
  intros a. now rewrite !canonical_elem.
Qed.

(** ** The subscriptions that the constructor registers *)

Lemma loop_post_nil G : loop_post G G [] [].
Proof.
  split; simpl.
  - intros h. split; [auto | intros [H|H]; [exact H | inversion H]].
  - constructor.
  - intros h H. inversion H.
  - intros s H. inversion H.
  - intros c H. inversion H.
Qed.

Lemma conditions_loop_post A rid conds G g :
  ∃ G' new,
    fst (conditions_loop A rid conds G g) = Return G' ∧
    subscriptions (snd (conditions_loop A rid conds G g)) = subscriptions g ++ new ∧
    loop_post G G' new (reached_conditions A conds).
Proof.
  revert G g. induction conds as [|c rest IH]; intros G g; simpl.
  - exists G, []. simpl. rewrite app_nil_r.
    split; [reflexivity|]. split; [reflexivity|]. apply loop_post_nil.
  - destruct (all_valid A (condition_addresses c)) eqn:Hv; simpl.
    + fold (canonical (condition_addresses c)).
      fold (fingerprint (condition_addresses c)).
      set (h := fingerprint (condition_addresses c)).
      destruct (bool_decide (h ∈ G)) eqn:Hin.
      * apply bool_decide_eq_true in Hin.
        destruct (IH G g) as (G' & new & H1 & H2 & [P1 P2 P3 P4 P5]).
        exists G', new. split; [exact H1|]. split; [exact H2|].
        split; auto.
        -- intros s Hs. destruct (P4 s Hs) as (c' & Hc' & Ha).
           exists c'. split; [now right | exact Ha].
        -- intros c' Hc'. apply elem_of_cons in Hc' as [-> | Hc']; [|auto].
           apply P1. now left.
      * apply bool_decide_eq_false in Hin.
        unfold_W. simpl.
        destruct (IH ({[h]} ∪ G)
                    (with_subscriptions
                       (subscriptions g ++
                          [{| addresses := canonical (condition_addresses c) |}]) g))
          as (G' & new & H1 & H2 & [P1 P2 P3 P4 P5]).
        exists G', ({| addresses := canonical (condition_addresses c) |} :: new).
        split; [exact H1|]. split.
        { rewrite H2. simpl. now rewrite <- app_assoc. }
        split.
        -- intros x. rewrite P1, elem_of_union, elem_of_singleton. simpl.
           rewrite elem_of_cons. unfold hash_of at 1. simpl.
           fold (fingerprint (condition_addresses c)). fold h. tauto.
        -- simpl. constructor; [|exact P2].
           intros Hh. apply (P3 _ Hh). unfold hash_of. simpl.
           apply elem_of_union. left. now apply elem_of_singleton.
        -- intros x. simpl. rewrite elem_of_cons. intros [-> | Hx].
           ++ exact Hin.
           ++ intros HG. apply (P3 _ Hx). apply elem_of_union. now right.
        -- intros s Hs. apply elem_of_cons in Hs as [-> | Hs].
           ++ exists c. split; [now left | reflexivity].
           ++ destruct (P4 s Hs) as (c' & Hc' & Ha).
              exists c'. split; [now right | exact Ha].
        -- intros c' Hc'. apply elem_of_cons in Hc' as [-> | Hc']; [|auto].
           apply P1. left. fold h. apply elem_of_union. left.
           now apply elem_of_singleton.
    + unfold_W. unfold log_warn, modify. simpl.
      exists G, []. simpl. rewrite app_nil_r.
      split; [reflexivity|]. split; [reflexivity|]. apply loop_post_nil.
Qed.

Lemma loop_post_compose G G1 G2 new1 new2 cs1 cs2 :
  loop_post G G1 new1 cs1 → loop_post G1 G2 new2 cs2 →
  loop_post G G2 (new1 ++ new2) (cs1 ++ cs2).
Proof.
  intros [A1 A2 A3 A4 A5] [B1 B2 B3 B4 B5]. split.
  - intros h. rewrite B1, A1, map_app, elem_of_app. tauto.
  - rewrite map_app. apply NoDup_app. split; [exact A2|]. split; [|exact B2].
    intros h H1 H2. apply (B3 h H2). apply A1. now right.
  - intros h. rewrite map_app, elem_of_app. intros [H|H]; [now apply A3|].
    intros HG. apply (B3 h H). apply A1. now left.
  - intros s. rewrite elem_of_app. intros [H|H].
    + destruct (A4 s H) as (c & Hc & Ha). exists c. rewrite elem_of_app. auto.
    + destruct (B4 s H) as (c & Hc & Ha). exists c. rewrite elem_of_app. auto.
  - intros c. rewrite elem_of_app. intros [H|H]; [|now apply B5].
    apply B1. left. now apply A5.
Qed.

Lemma rules_loop_post A rs cache G g :
  ∃ cache' G' new,
    fst (rules_loop A rs cache G g) = Return (cache', G') ∧
    subscriptions (snd (rules_loop A rs cache G g)) = subscriptions g ++ new ∧
    loop_post G G' new (reached A rs).
Proof.
  revert cache G g. induction rs as [|r rest IH]; intros cache G g; simpl.
  - exists cache, G, []. simpl. rewrite app_nil_r.
    split; [reflexivity|]. split; [reflexivity|]. apply loop_post_nil.
  - destruct (conditions_loop_post A (rule_id r) (conditions r) G g)
      as (G1 & new1 & H1 & H2 & P).
    unfold mbind, W_bind.
    destruct (conditions_loop A (rule_id r) (conditions r) G g) as [c g1].
    simpl in H1, H2. subst c.
    destruct (IH (<[rule_id r := r]> cache) G1 g1) as (cache' & G' & new2 & H3 & H4 & Q).
    exists cache', G', (new1 ++ new2).
    split; [exact H3|]. split.
    + rewrite H4, H2. now rewrite <- app_assoc.
    + eapply loop_post_compose; eauto.
Qed.

Lemma loadDDWAF_spec n rs g :
  subscriptions (snd (loadDDWAF n rs g)) = subscriptions g ∧
  match load_error n rs with
  | None => loadDDWAF n rs g = (Return {| engine_rules := rs |}, g)
  | Some err => fst (loadDDWAF n rs g) = Throw err
  end.
Proof.
  unfold loadDDWAF. destruct (load_error n rs); unfold_W; simpl.
  - destruct (warned g); simpl; auto.
  - auto.
Qed.

(** A constructor call that returns has loaded the engine and run the
    loops from empty caches; the instance has no [libAppSec]. *)
Lemma constructor_inv n A rs g self g' :
  constructor n A rs g = (Return self, g') →
  load_error n rs = None ∧
  (∃ G', rules_loop A (rules rs) ∅ ∅ g = (Return (ruleCache self, G'), g')) ∧
  ddwaf self = {| engine_rules := rs |} ∧
  wafContextCache self = ∅ ∧ libAppSec self = None.
Proof.
  unfold constructor. unfold mbind at 1, W_bind at 1.
  destruct (loadDDWAF_spec n rs g) as [_ Hl].
  destruct (load_error n rs) as [err|].
  - destruct (loadDDWAF n rs g) as [c g1]. simpl in Hl. subst c. discriminate.
  - rewrite Hl. unfold mbind, W_bind, mret, W_ret.
    destruct (rules_loop_post A (rules rs) ∅ ∅ g) as (cache' & G' & new & H1 & _).
    destruct (rules_loop A (rules rs) ∅ ∅ g) as [c g1]. simpl in H1. subst c.
    intros [= <- <-]. simpl. eauto 6.
Qed.

(** When the engine loads, the constructor returns: rules with unknown
    addresses do not make the load fail. *)
Lemma constructor_returns n A rs g :
  load_error n rs = None → ∃ self, fst (constructor n A rs g) = Return self.
Proof.
  intros Hl. unfold constructor. unfold mbind at 1, W_bind at 1.
  destruct (loadDDWAF_spec n rs g) as [_ H]. rewrite Hl in H. rewrite H.
  unfold mbind, W_bind, mret, W_ret.
  destruct (rules_loop_post A (rules rs) ∅ ∅ g) as (cache' & G' & new & H1 & _).
  destruct (rules_loop A (rules rs) ∅ ∅ g) as [c g1]. simpl in H1. subst c.
  eexists. reflexivity.
Qed.

(** C8: the subscriptions that one constructor call registers have
    pairwise different fingerprints and pairwise different address sets;
    each is the sorted, de-duplicated address list of a condition that the
    loops reached, each reached condition has a subscription with its
    fingerprint, and the canonical list of a condition depends on its set
    of addresses only. *)
Theorem subscriptions_have_distinct_address_sets
    (n : Native) (A : AddressRegistry) (rs : Rules) (g g' : World) (self : WAFCallback) :
  constructor n A rs g = (Return self, g') →
  ∃ new,
    subscriptions g' = subscriptions g ++ new ∧
    NoDup (map hash_of new) ∧
    (∀ i j s1 s2, new !! i = Some s1 → new !! j = Some s2 →
       (∀ a, a ∈ addresses s1 ↔ a ∈ addresses s2) → i = j) ∧
    (∀ s, s ∈ new →
       ∃ c, c ∈ reached A (rules rs) ∧
            addresses s = sort (Array_from_Set (condition_addresses c))) ∧
    (∀ c, c ∈ reached A (rules rs) →
       ∃ s, s ∈ new ∧ hash_of s = fingerprint (condition_addresses c)) ∧
    (∀ c1 c2,
       (∀ a, a ∈ condition_addresses c1 ↔ a ∈ condition_addresses c2) →
       fingerprint (condition_addresses c1) = fingerprint (condition_addresses c2)).
Proof.
  intros H. destruct (constructor_inv _ _ _ _ _ _ H) as (_ & (G0 & Hloop) & _).
  destruct (rules_loop_post A (rules rs) ∅ ∅ g) as (cache' & G' & new & H1 & H2 & P).
  rewrite Hloop in H2. simpl in H2.
  destruct P as [P1 P2 P3 P4 P5].
  exists new. split; [exact H2|]. split; [exact P2|]. split; [|split; [|split]].
  - intros i j s1 s2 Hi Hj Hset.
    destruct (P4 s1) as (c1 & _ & Ha1); [eapply list_elem_of_lookup_2; eauto|].
    destruct (P4 s2) as (c2 & _ & Ha2); [eapply list_elem_of_lookup_2; eauto|].
    assert (Heq : addresses s1 = addresses s2).
    { rewrite Ha1, Ha2. apply canonical_set_eq. intros a.
      rewrite <- (canonical_elem (condition_addresses c1)),
              <- (canonical_elem (condition_addresses c2)), <- Ha1, <- Ha2.
      apply Hset. }
    eapply NoDup_lookup; [exact P2 | |].
    + rewrite list_lookup_fmap, Hi. reflexivity.
    + rewrite list_lookup_fmap, Hj. simpl. unfold hash_of. now rewrite Heq.
  - exact P4.
  - intros c Hc. specialize (P5 c Hc). apply P1 in P5 as [P5|P5].
    + inversion P5.
    + apply list_elem_of_fmap in P5 as (s & Hs & Hin). exists s. auto.
  - intros c1 c2 Hset. unfold fingerprint. f_equal. now apply canonical_set_eq.
Qed.

Lemma constructor0 :
  constructor native_failing registry0 rules0 world0 = (Return instance0, world1).
Proof. vm_compute. reflexivity. Qed.

Lemma subscriptions_have_distinct_address_sets_witness :
  constructor native_failing registry0 rules0 world0 = (Return instance0, world1) ∧
  ∃ new, subscriptions world1 = subscriptions world0 ++ new ∧
         NoDup (map hash_of new).
Proof.
  split; [exact constructor0|].
  destruct (subscriptions_have_distinct_address_sets native_failing registry0 rules0
              world0 world1 instance0 constructor0) as (new & H1 & H2 & _).
  exists new. split; assumption.
Defined.

(** ** Rules with an address outside the registry *)

(** A rule whose first condition is invalid adds no subscription and logs
    the warning. *)
Lemma invalid_first_condition A rid c rest G g :
  all_valid A (condition_addresses c) = false →
  fst (conditions_loop A rid (c :: rest) G g) = Return G ∧
  subscriptions (snd (conditions_loop A rid (c :: rest) G g)) = subscriptions g ∧
  logs (reporter (snd (conditions_loop A rid (c :: rest) G g)))
    = logs (reporter g) ++ [LogWarn ("Skipping invalid rule " +:+ rid)].
Proof. intros H. simpl. rewrite H. simpl. auto. Qed.

(** A rule with an invalid condition keeps the subscriptions of the
    conditions before it. *)
Lemma invalid_later_condition A rid c1 c2 rest g :
  all_valid A (condition_addresses c1) = true →
  all_valid A (condition_addresses c2) = false →
  subscriptions (snd (conditions_loop A rid (c1 :: c2 :: rest) ∅ g))
    = subscriptions g ++ [{| addresses := sort (Array_from_Set (condition_addresses c1)) |}] ∧
  logs (reporter (snd (conditions_loop A rid (c1 :: c2 :: rest) ∅ g)))
    = logs (reporter g) ++ [LogWarn ("Skipping invalid rule " +:+ rid)].
Proof.
  intros H1 H2. simpl. rewrite H1, H2. simpl.
  rewrite bool_decide_eq_false_2 by (apply not_elem_of_empty). simpl. auto.
Qed.

(** C7 (the code departs from the claim): the rule r1 has a condition on
    server.request.method and then a condition on unknown.address, which
    is outside the registry; the constructor logs that it skips r1 and
    returns, yet the subscription of the first condition is registered and
    r1 is in the rule cache. *)
Theorem invalid_rule_keeps_subscription :
  all_valid registry0 (condition_addresses (cond ["unknown.address"])) = false ∧
  (∃ self, fst (constructor native_failing registry0 {| rules := [rule_mixed] |} world0)
           = Return self ∧ ruleCache self !! "r1" = Some rule_mixed) ∧
  subscriptions (snd (constructor native_failing registry0 {| rules := [rule_mixed] |}
                        world0))
    = [{| addresses := ["server.request.method"] |}] ∧
  logs (reporter (snd (constructor native_failing registry0 {| rules := [rule_mixed] |}
                         world0)))
    = [LogWarn "Skipping invalid rule r1"].
Proof.
  split; [reflexivity|]. split; [|split].
  - eexists. split; vm_compute; reflexivity.
  - vm_compute. reflexivity.
  - vm_compute. reflexivity.
Qed.

(** With the invalid condition first the rule adds nothing, and the valid
    rule loaded with it still registers. *)
Lemma invalid_rule_first_condition_example :
  subscriptions world1
    = [{| addresses := ["server.request.method"; "server.request.uri.raw"] |}] ∧
  logs (reporter world1) = [LogWarn "Skipping invalid rule r2"].
Proof. split; vm_compute; reflexivity. Qed.

(** ** Errors of the matcher *)

(** Obtaining the matcher state touches neither the reporter nor the
    subscriptions, and does not count as a run. *)
Lemma obtain_wafContext_frame n self store g :
  reporter (snd (obtain_wafContext n self store g)) = reporter g ∧
  subscriptions (snd (obtain_wafContext n self store g)) = subscriptions g ∧
  runs (snd (obtain_wafContext n self store g)) = runs g.
Proof.
  unfold obtain_wafContext. unfold_W.
  destruct store as [[[[|key|]|e]]|]; simpl;
    try destruct (wafContextCache self !! key); simpl;
    try destruct (createContext n (created g)); simpl; auto.
Qed.

Lemma obtain_wafContext_libAppSec n self store g r g1 :
  obtain_wafContext n self store g = (Return r, g1) →
  libAppSec (snd r) = libAppSec self.
Proof.
  unfold obtain_wafContext. unfold_W.
  destruct store as [[[[|key|]|e]]|]; simpl;
    try destruct (wafContextCache self !! key); simpl;
    try destruct (createContext n (created g)); simpl;
    first [discriminate | now intros [= <- _]].
Qed.

(** Once the matcher state is obtained nothing escapes [action]: every
    error of the run or of [applyResult] is caught. *)
Lemma action_returns n w self params store g r g1 :
  obtain_wafContext n self store g = (Return r, g1) →
  ∃ g', action n w self params store g = (Return (snd r), g').
Proof.
  intros H. unfold action. unfold mbind at 1, W_bind at 1. rewrite H.
  unfold W_try_catch, mbind, W_bind, mret, W_ret, call_run, W_log_warn, in_reporter,
    log_warn, modify.
  destruct (run_result n (runs g1) (fst r) params DEFAULT_MAX_BUDGET) as [result|e].
  - match goal with
    | |- context [applyResult n w (snd r) result ?g2] =>
        destruct (applyResult n w (snd r) result g2) as [[[]|e] g3]
    end; eexists; reflexivity.
  - eexists. reflexivity.
Qed.

(** C9: when the run of the matcher throws, action returns normally to
    its caller; the only effect on the reporter is the warning appended to
    the log: the backlog is unchanged, no event was built, and the
    subscriptions are unchanged. *)
Theorem action_catches_matcher_error
    (n : Native) (w : Env) (self : WAFCallback) (params : JSValue)
    (store : option Store) (g g1 : World) (wafContext : nat) (self1 : WAFCallback)
    (err : JSError) :
  obtain_wafContext n self store g = (Return (wafContext, self1), g1) →
  run_result n (runs g1) wafContext params DEFAULT_MAX_BUDGET = Throw err →
  ∃ g', action n w self params store g = (Return self1, g') ∧
        logs (reporter g') = logs (reporter g) ++ [WAF_ERROR] ∧
        events (reporter g') = events (reporter g) ∧
        next_obj (reporter g') = next_obj (reporter g) ∧
        inflight (reporter g') = inflight (reporter g) ∧
        subscriptions g' = subscriptions g.
Proof.
  intros Ho Hr.
  destruct (obtain_wafContext_frame n self store g) as (F1 & F2 & _).
  rewrite Ho in F1, F2. simpl in F1, F2.
  unfold action. unfold mbind at 1, W_bind at 1. rewrite Ho.
  unfold W_try_catch. simpl fst. simpl snd.
  unfold mbind at 1, W_bind at 1. unfold call_run at 1. rewrite Hr.
  unfold_W. unfold log_warn, modify. simpl.
  eexists. split; [reflexivity|]. simpl. rewrite F1, F2. auto.
Qed.

Lemma action_catches_matcher_error_witness :
  fst (obtain_wafContext native_failing instance0 (store_of 7)
         world1)
    = Return (0%nat, with_wafContextCache {[ 7%nat := 0%nat ]} instance0) ∧
  ∃ g', fst (action native_failing env1 instance0 (JObj [])
               (store_of 7) world1)
          = Return (with_wafContextCache {[ 7%nat := 0%nat ]} instance0) ∧
        snd (action native_failing env1 instance0 (JObj [])
               (store_of 7) world1) = g' ∧
        events (reporter g') = [].
Proof.
  split; [vm_compute; reflexivity|].
  destruct (action_catches_matcher_error native_failing env1 instance0 (JObj [])
              (store_of 7) world1
              (snd (obtain_wafContext native_failing instance0
                      (store_of 7) world1))
              0%nat (with_wafContextCache {[ 7%nat := 0%nat ]} instance0)
              (Error "budget exceeded"))
    as (g' & H1 & _ & H3 & _).
  - vm_compute. reflexivity.
  - reflexivity.
  - exists g'. rewrite H1. simpl. split; [reflexivity|]. split; [reflexivity|].
    rewrite H3. vm_compute. reflexivity.
Defined.

(** With an engine that reports a match the same call enqueues an event. *)
Lemma action_reports_match :
  length (events (reporter (snd (action native_matching env1
             (constructed (constructor native_matching registry0 rules0 world0))
             (JObj []) (store_of 7) world1)))) = 1%nat.
Proof. vm_compute. reflexivity. Qed.

(** ** The method clear *)

(** C10: on an instance that the constructor returned, clear throws a
    TypeError in whatever state it is called: libAppSec is undefined on
    the instance, the engine being stored as ddwaf; the state, with the
    subscriptions of the Gateway, is left as it was and no instance with a
    new matcher-state cache is produced. *)
Theorem clear_throws_TypeError
    (n : Native) (A : AddressRegistry) (rs : Rules) (g g1 : World) (self : WAFCallback) :
  constructor n A rs g = (Return self, g1) →
  libAppSec self = None ∧ ddwaf self = {| engine_rules := rs |} ∧
  ∀ g2, clear self g2
        = (Throw (TypeError "Cannot read property 'dispose' of undefined"), g2).
Proof.
  intros H. destruct (constructor_inv _ _ _ _ _ _ H) as (_ & _ & Hd & _ & Hl).
  split; [exact Hl|]. split; [exact Hd|].
  intros g2. unfold clear. rewrite Hl. reflexivity.
Qed.

Lemma clear_throws_TypeError_witness :
  constructor native_failing registry0 rules0 world0 = (Return instance0, world1) ∧
  clear instance0 world1
    = (Throw (TypeError "Cannot read property 'dispose' of undefined"), world1) ∧
  subscriptions world1 ≠ [].
Proof.
  split; [exact constructor0|].
  destruct (clear_throws_TypeError native_failing registry0 rules0 world0 world1
              instance0 constructor0) as (_ & _ & H).
  split; [apply H|]. vm_compute. discriminate.
Defined.

(** Calls of [action] do not assign [libAppSec] either. *)
Lemma action_keeps_libAppSec n w self params store g self' g' :
  action n w self params store g = (Return self', g') →
  libAppSec self' = libAppSec self.
Proof.
  intros H.
  destruct (obtain_wafContext n self store g) as [[r|e] g1] eqn:Ho.
  - destruct (action_returns n w self params store g r g1 Ho) as (g2 & H2).
    rewrite H2 in H. injection H as <- _.
    eapply obtain_wafContext_libAppSec; eauto.
  - unfold action in H. unfold mbind at 1, W_bind at 1 in H. rewrite Ho in H.
    discriminate.
Qed.

(** * Further properties of the reporter *)

Lemma set_prop_fresh k v ps :
  assoc k ps = None → set_prop k v ps = ps ++ [(k, v)].
Proof.
  induction ps as [|[k0 v0] r IH]; simpl; [reflexivity|].
  destruct (String.eqb k k0); [discriminate|]. intros H. now rewrite IH.
Qed.

Lemma assoc_app_None k ps qs :
  assoc k ps = None → assoc k (ps ++ qs) = assoc k qs.
Proof.
  induction ps as [|[k0 v0] r IH]; simpl; [reflexivity|].
  destruct (String.eqb k k0); [discriminate | exact IH].
Qed.

Lemma getHeadersToSend_loop_closed headers names result :
  NoDup names →
  (∀ k, k ∈ names → assoc k result = None) →
  getHeadersToSend_loop headers names result =
  result ++ map (fun k => (k, JArr [prop headers k]))
              (List.filter (fun k => truthy (prop headers k)) names).
Proof.
  revert result. induction names as [|n rest IH]; intros result Hnd Hfresh; simpl.
  - now rewrite app_nil_r.
  - apply NoDup_cons in Hnd as [Hn Hnd].
    destruct (truthy (prop headers n)) eqn:Ht.
    + rewrite set_prop_fresh by (apply Hfresh; now left).
      rewrite IH; [simpl; now rewrite <- app_assoc | exact Hnd |].
      intros k Hk. rewrite assoc_app_None by (apply Hfresh; now right).
      simpl. destruct (String.eqb k n) eqn:E; [|reflexivity].
      apply String.eqb_eq in E. subst k. contradiction.
    + apply IH; [exact Hnd|]. intros k Hk. apply Hfresh. now right.
Qed.

Lemma HEADERS_TO_SEND_NoDup : NoDup HEADERS_TO_SEND.
Proof. apply (bool_decide_unpack _). vm_compute. exact I. Qed.

(** X1: for every headers value, getHeadersToSend returns the object
    whose keys are exactly the allow-listed names with a truthy header, in
    the order of the allow-list and without repetition, each with the
    one-element array of the header; for falsy headers this is the empty
    object. *)
Theorem getHeadersToSend_closed_form (headers : JSValue) :
  getHeadersToSend headers = JObj (headers_to_send headers) ∧
  (truthy headers = false → headers_to_send headers = []) ∧
  (∀ k, has_key k (getHeadersToSend headers) = true ↔
        k ∈ HEADERS_TO_SEND ∧ truthy (prop headers k) = true) ∧
  (∀ k, has_key k (getHeadersToSend headers) = true →
        prop (getHeadersToSend headers) k = JArr [prop headers k]).
Proof.
  assert (Hfalsy : truthy headers = false → headers_to_send headers = []).
  { intros Hf. destruct headers; try discriminate; reflexivity. }
  assert (Heq : getHeadersToSend headers = JObj (headers_to_send headers)).
  { unfold getHeadersToSend. destruct (truthy headers) eqn:Ht; cbn [negb].
    - rewrite getHeadersToSend_loop_closed; [reflexivity | apply HEADERS_TO_SEND_NoDup |].
      reflexivity.
    - now rewrite Hfalsy. }
  split; [exact Heq|]. split; [exact Hfalsy|].
  rewrite Heq. unfold headers_to_send.
  assert (Hlook : ∀ (names : list string) k, NoDup names →
            assoc k (map (fun k => (k, JArr [prop headers k]))
                       (List.filter (fun k => truthy (prop headers k)) names)) =
            if bool_decide (k ∈ names) && truthy (prop headers k)
            then Some (JArr [prop headers k]) else None).
  { induction names as [|n rest IH]; intros k Hnd; [reflexivity|].
    apply NoDup_cons in Hnd as [Hn Hnd]. simpl.
    destruct (String.eqb k n) eqn:E.
    - apply String.eqb_eq in E. subst n.
      rewrite bool_decide_eq_true_2 by (now left). simpl.
      destruct (truthy (prop headers k)) eqn:Ht; simpl.
      + now rewrite String.eqb_refl.
      + rewrite IH by exact Hnd. rewrite Ht. now rewrite andb_false_r.
    - apply String.eqb_neq in E.
      assert (Hb : bool_decide (k ∈ n :: rest) = bool_decide (k ∈ rest)).
      { apply bool_decide_ext. rewrite elem_of_cons. tauto. }
      rewrite Hb.
      destruct (truthy (prop headers n)); simpl.
      + apply String.eqb_neq in E. rewrite E. now apply IH.
      + now apply IH. }
  split.
  - intros k. unfold has_key. rewrite bool_decide_eq_true.
    rewrite (Hlook _ k HEADERS_TO_SEND_NoDup).
    destruct (bool_decide (k ∈ HEADERS_TO_SEND)) eqn:Hin;
      destruct (truthy (prop headers k)) eqn:Ht; simpl;
      [apply bool_decide_eq_true in Hin | apply bool_decide_eq_true in Hin
       | apply bool_decide_eq_false in Hin | apply bool_decide_eq_false in Hin];
      split; try (intros [x Hx]; discriminate); try (intros [? ?]; congruence);
      try tauto; eauto.
  - intros k. unfold has_key. rewrite bool_decide_eq_true.
    change (prop (JObj ?ps) k) with (default JUndefined (assoc k ps)).
    rewrite (Hlook _ k HEADERS_TO_SEND_NoDup).
    destruct (bool_decide (k ∈ HEADERS_TO_SEND) && truthy (prop headers k));
      [reflexivity | intros [x Hx]; discriminate].
Qed.

Lemma getTracerData_state w s :
  match fst (getTracerData w s) with
  | Return _ =>
      span_tags (snd (getTracerData w s)) =
        span_tags s ++ match active_span w with Some sp => keep_tags sp | None => [] end
  | Throw _ => snd (getTracerData w s) = s
  end.
Proof.
  unfold getTracerData, active_span. unfold_M.
  destruct (tracer_scope w) as [sc|]; simpl; [|reflexivity].
  destruct (_config sc) as [cfg|]; simpl; [|reflexivity].
  destruct (tags cfg) as [en|]; simpl; [|reflexivity].
  destruct (active sc); simpl; [now rewrite <- app_assoc | now rewrite app_nil_r].
Qed.

(** X2: a call of reportAttack changes the state only when it returns an
    event: a refused call (backlog over the bound) and a call that throws
    leave the whole state as it was, so that no span is tagged for an
    event that was not recorded; a call that returns an event has tagged
    the active span, if there is one, with manual.keep and appsec.event,
    and no other span. *)
Theorem reportAttack_changes_state_only_on_success
    (w : Env) (rule rm b : JSValue) (s : State) :
  match fst (reportAttack w rule rm b s) with
  | Return (Some e) =>
      events (snd (reportAttack w rule rm b s)) = Set_add e (events s) ∧
      span_tags (snd (reportAttack w rule rm b s)) =
        span_tags s ++ match active_span w with Some sp => keep_tags sp | None => [] end
  | Return None =>
      snd (reportAttack w rule rm b s) = s ∧ MAX_EVENT_BACKLOG < Set_size (events s)
  | Throw _ => snd (reportAttack w rule rm b s) = s
  end.
Proof.
  destruct (Z.lt_ge_cases MAX_EVENT_BACKLOG (Set_size (events s))) as [Hov|Hle].
  { rewrite (reportAttack_over _ _ _ _ _ Hov). simpl. auto. }
  remember (reportAttack w rule rm b s) as r eqn:E.
  unfold reportAttack in E.
  unfold mbind at 1, M_bind at 1, bind at 1, gets at 1 in E.
  apply Z.ltb_ge in Hle. rewrite Hle in E.
  unfold mbind at 1, M_bind at 1, bind at 1 in E.
  pose proof (resolveHTTPAddresses_state w s) as Hst.
  destruct (resolveHTTPAddresses w s) as [[http|e1] s1]; simpl in Hst; subst s1;
    [|subst r; reflexivity].
  unfold mbind at 1, M_bind at 1, bind at 1 in E.
  pose proof (getTracerData_state w s) as Htd.
  pose proof (getTracerData_core w s) as Hc.
  destruct (getTracerData w s) as [[td|e2] s2]; simpl in Htd, Hc;
    [|subst r; exact Htd].
  destruct Hc as (He & _).
  unfold_M. subst r. simpl. rewrite He. auto.
Qed.

(** With an active span the report that succeeds tags it, and the span
    identifiers are in the event. *)
Lemma report_tags_active_span :
  span_tags (snd (reportAttack env_span (JStr "rule") (JArr []) JUndefined init))
    = keep_tags span0 ∧
  get_in ["context"; "span"; "id"]
    (obj_val (returned (fst (reportAttack env_span (JStr "rule") (JArr []) JUndefined init))))
    = JStr "77".
Proof. split; reflexivity. Qed.

(** X3: in every state that the module reaches the backlog holds at most
    1,000,001 entries. *)
Theorem backlog_at_most_one_over_bound (tr : list Action) :
  Set_size (events (run tr init)) <= 1000001.
Proof. apply (backlog_size_reachable tr). Qed.

(** X4: a call of flush that passes its guard when the exporter has no
    writer URL throws after it has emptied the backlog, a TypeError or,
    if the body cannot be serialized, the error of JSON.stringify: the
    pending events are gone, nothing was handed to the transport, the lock
    is free, and one uuid was used for a body that was never sent. *)
Theorem flush_without_writer_url_loses_backlog (s : State) (w : Env) :
  lock s = false → events s ≠ [] → writer_url w = None →
  (∃ err, fst (flush w s) = Throw err ∧
          match JSON_stringify_error w (flush_body w s) with
          | Some e => err = e
          | None => ∃ msg, err = TypeError msg
          end) ∧
  events (snd (flush w s)) = [] ∧
  inflight (snd (flush w s)) = inflight s ∧
  lock (snd (flush w s)) = false ∧
  uuid_calls (snd (flush w s)) = S (uuid_calls s).
Proof.
  intros Hl Hne Hu.
  assert (Hsz : (Set_size (events s) =? 0) = false).
  { apply Z.eqb_neq. unfold Set_size. destruct (events s); [congruence|simpl; lia]. }
  unfold flush. unfold_M. unfold id, flush_body. rewrite Hl, Hsz, Hu. simpl.
  destruct (MAX_EVENT_BACKLOG <=? Set_size (events s)); simpl;
    rewrite drain_all;
    destruct (JSON_stringify_error w _); simpl; eauto 10.
Qed.

Lemma flush_without_writer_url_loses_backlog_witness :
  events pending_state ≠ [] ∧
  events (snd (flush env_no_url pending_state)) = [] ∧
  inflight (snd (flush env_no_url pending_state)) = [].
Proof.
  assert (Hne : events pending_state ≠ []) by (vm_compute; discriminate).
  split; [exact Hne|].
  destruct (flush_without_writer_url_loses_backlog pending_state env_no_url
              eq_refl Hne eq_refl) as (_ & H2 & H3 & _).
  split; [exact H2 | exact H3].
Defined.

(** [n] reports in a row leave the module idle and the log empty. *)
Lemma reports_idle (n : N) :
  Z.of_N n <= MAX_EVENT_BACKLOG + 1 →
  lock (reports n) = false ∧ logs (reports n) = [] ∧ inflight (reports n) = [].
Proof.
  unfold reports. induction n as [|n IH] using N.peano_ind; intros Hn.
  - repeat split.
  - rewrite N.iter_succ. destruct IH as (Hl & Hlg & Hi); [lia|].
    destruct (reports_size n) as [_ HI]; [lia|]. unfold reports in HI.
    set (s := N.iter n _ init) in *. clearbody s.
    pose proof (step_report env0 JUndefined JUndefined JUndefined s HI) as H.
    unfold step. destruct (step_out _ s) as [r s'].
    destruct H as (H1 & H2 & H3 & _). simpl. split; [|split]; congruence.
Qed.

(** X5: a call of flush that passes its guard with a writer URL logs the
    warning about the full backlog exactly when the backlog holds
    1,000,000 entries or more, and logs nothing otherwise; in both cases
    it empties the backlog, and it hands all pending events to the
    transport when their body can be serialized; when it cannot, flush
    throws the error of JSON.stringify after the warning, hands nothing
    over and leaves the lock free, so that the events are lost. *)
Theorem flush_warns_but_sends_full_backlog (s : State) (w : Env) (url : Url) :
  lock s = false → events s ≠ [] → writer_url w = Some url →
  logs (snd (flush w s)) =
    logs s ++ (if 1000000 <=? Set_size (events s) then [backlog_warning] else []) ∧
  events (snd (flush w s)) = [] ∧
  match JSON_stringify_error w (flush_body w s) with
  | None =>
      fst (flush w s) = Return tt ∧
      ∃ req, inflight (snd (flush w s)) = inflight s ++ [req] ∧
             payload_events (opt_data req) = events s
  | Some err =>
      fst (flush w s) = Throw err ∧
      inflight (snd (flush w s)) = inflight s ∧
      lock (snd (flush w s)) = false
  end.
Proof.
  intros Hl Hne Hu.
  destruct (flush w s) as [c s'] eqn:E.
  destruct (flush_drain _ _ _ _ Hl Hne E) as (He & _ & Hlog & Hc). simpl.
  split; [exact Hlog|]. split; [exact He|].
  destruct Hc as [(err & -> & Hwhy & Hl' & Hi) | (req & -> & [Hj _] & _ & Hi & Hp & _)].
  - destruct Hwhy as [-> | (_ & Hnone & _)]; [auto | congruence].
  - rewrite Hj. eauto.
Qed.

Lemma flush_warns_but_sends_full_backlog_witness :
  (events pending_state ≠ [] ∧
   logs (snd (flush env0 pending_state)) = [] ∧
   ∃ req, inflight (snd (flush env0 pending_state)) = [req] ∧
          payload_events (opt_data req) = events pending_state) ∧
  (Set_size (events (reports 1000000)) = 1000000 ∧
   logs (snd (flush env_overflow (reports 1000000))) = [backlog_warning] ∧
   events (snd (flush env_overflow (reports 1000000))) = [] ∧
   fst (flush env_overflow (reports 1000000))
     = Throw (RangeError "Invalid string length") ∧
   inflight (snd (flush env_overflow (reports 1000000))) = []).
Proof.
  split.
  - assert (Hne : events pending_state ≠ []) by (vm_compute; discriminate).
    split; [exact Hne|].
    destruct (flush_warns_but_sends_full_backlog pending_state env0
                {| protocol := "http:"; pathname := "/"; hostname := "localhost";
                   port := "8126" |} eq_refl Hne eq_refl) as (H1 & _ & _ & req & H2 & H3).
    split; [exact H1|]. exists req. split; [exact H2 | exact H3].
  - assert (Hb : Z.of_N 1000000 <= MAX_EVENT_BACKLOG + 1)
      by (unfold MAX_EVENT_BACKLOG; lia).
    destruct (reports_size 1000000 Hb) as [Hsz _].
    destruct (reports_idle 1000000 Hb) as (Hl & Hlg & Hi).
    assert (Hne : events (reports 1000000) ≠ []).
    { intros H0. rewrite H0 in Hsz. discriminate Hsz. }
    destruct (flush_warns_but_sends_full_backlog (reports 1000000) env_overflow
                {| protocol := "http:"; pathname := "/"; hostname := "localhost";
                   port := "8126" |} Hl Hne eq_refl) as (H1 & H2 & H3 & H4 & _).
    split; [exact Hsz|].
    split; [rewrite H1, Hlg, Hsz; reflexivity|].
    split; [exact H2|]. split; [exact H3|]. now rewrite H4.
Defined.

(** The objects of the backlog and of the outstanding batch are pairwise
    different, in every step. *)
Lemma step_preserves_NoDup a s :
  Inv s → NoDup (ids (events s ++ outstanding_events s)) →
  NoDup (ids (events (step a s) ++ outstanding_events (step a s))).
Proof.
  intros HI Hnd. destruct a as [w rule rm b | w | i err]; unfold step.
  - pose proof (step_report w rule rm b s HI) as H.
    destruct (step_out (CallReportAttack w rule rm b) s) as [r s'].
    destruct H as (_ & _ & Hi & _ & Hr). simpl.
    unfold outstanding_events in *. rewrite Hi.
    destruct r as [e|]; [|now rewrite Hr].
    destruct Hr as (-> & Hid & _).
    unfold ids in *. rewrite !map_app in *. simpl.
    rewrite <- app_assoc. simpl.
    apply NoDup_app in Hnd as (H1 & H2 & H3).
    apply NoDup_app. split; [exact H1|]. split.
    + intros x Hx Hx'. apply elem_of_cons in Hx' as [-> | Hx']; [|now apply (H2 x)].
      apply list_elem_of_fmap in Hx as (e' & He' & Hin).
      pose proof (inv_fresh _ HI) as Hf. rewrite Forall_forall in Hf.
      specialize (Hf e' Hin). unfold older_than in Hf. lia.
    + constructor; [|exact H3].
      intros Hx. apply list_elem_of_fmap in Hx as (e' & He' & Hin).
      apply list_elem_of_In, in_flat_map in Hin as (r & Hr & Hin).
      pose proof (inv_batch _ HI) as Hb. rewrite Forall_forall in Hb.
      specialize (Hb r (proj2 (list_elem_of_In _ _) Hr)).
      rewrite Forall_forall in Hb.
      specialize (Hb e' (proj2 (list_elem_of_In _ _) Hin)).
      unfold older_than in Hb. lia.
  - simpl. destruct (flush w s) as [c s'] eqn:E. simpl.
    destruct (lock s) eqn:Hl.
    { rewrite flush_noop in E by auto. now injection E as <- <-. }
    destruct (events s) as [|e0 evs] eqn:Hev.
    { rewrite flush_noop in E by auto. injection E as <- <-. now rewrite Hev. }
    assert (Hne : events s ≠ []) by (rewrite Hev; discriminate).
    destruct (flush_drain _ _ _ _ Hl Hne E) as (He & _ & _ & Hc).
    destruct (inv_flight _ HI) as [[Hnil _] | (req & _ & Hlk)]; [|congruence].
    unfold outstanding_events in *. rewrite He, Hnil in *. simpl in *.
    destruct Hc as [(err & _ & _ & _ & Hi') | (req & _ & _ & _ & Hi' & Hp & _)].
    + rewrite Hi'. simpl. constructor.
    + rewrite Hi'. simpl. rewrite Hp, Hev, app_nil_r. now rewrite app_nil_r in Hnd.
  - simpl. unfold complete.
    destruct (inflight s !! i) as [r|] eqn:Hi; [|exact Hnd].
    destruct (complete_spec i err s r HI Hi) as (Hr & _ & _ & Hi' & He & _).
    unfold complete in Hi', He. rewrite Hi in Hi', He.
    unfold outstanding_events in *. rewrite Hi', He. simpl. rewrite app_nil_r.
    unfold ids in *. rewrite map_app in Hnd. now apply NoDup_app in Hnd as (H1 & _).
Qed.

(** X6: in every state that the module reaches, no event object is in
    the backlog twice, none is twice in the outstanding batch, and none is
    both in the backlog and in the outstanding batch. *)
Theorem no_event_twice (tr : list Action) :
  NoDup (ids (events (run tr init))) ∧
  NoDup (ids (outstanding_events (run tr init))) ∧
  ∀ e, e ∈ events (run tr init) →
       obj_id e ∉ ids (outstanding_events (run tr init)).
Proof.
  assert (H : ∀ tr s, Inv s → NoDup (ids (events s ++ outstanding_events s)) →
              NoDup (ids (events (run tr s) ++ outstanding_events (run tr s)))).
  { clear tr. induction tr as [|a tr IH]; intros s HI Hnd; simpl; [exact Hnd|].
    apply IH; [now apply step_preserves_Inv | now apply step_preserves_NoDup]. }
  specialize (H tr init Inv_init). simpl in H. specialize (H (NoDup_nil_2)).
  unfold ids in *. rewrite map_app in H. apply NoDup_app in H as (H1 & H2 & H3).
  split; [exact H1|]. split; [exact H3|].
  intros e He. apply H2. apply list_elem_of_fmap. eauto.
Qed.

(** X7: when every call of a run draws from the same uuid generator and
    the generator never repeats a value, the event ids of the events that
    reportAttack returned and the idempotency keys of the requests that
    flush handed to the transport are pairwise different. *)
Theorem uuids_are_used_once (u : nat → string) (tr : list Action) :
  (∀ i j, u i = u j → i = j) →
  Forall (uses_uuid u) tr →
  NoDup (map event_id_of (enqueued tr init) ++ map key_of (requested tr init)).
Proof.
  intros Hinj Hall.
  destruct (run_draws u tr init Hall) as (ie & ik & He & Hk & Hnd & _).
  rewrite He, Hk, <- map_app.
  assert (Hi : Inj (=) (=) (fun i => JStr (u i))).
  { intros i j [= H]. now apply Hinj. }
  now apply (NoDup_fmap_2 (fun i => JStr (u i))).
Qed.

Lemma uuids_are_used_once_witness :
  Forall (uses_uuid (uuid env0))
    [CallReportAttack env0 (JStr "rule") (JArr []) JUndefined; CallFlush env0;
     CallReportAttack env0 (JStr "rule") (JArr []) JUndefined] ∧
  NoDup [JStr "uuid-0"; JStr "uuid-2"; JStr "uuid-1"].
Proof.
  assert (H : Forall (uses_uuid (uuid env0))
                [CallReportAttack env0 (JStr "rule") (JArr []) JUndefined; CallFlush env0;
                 CallReportAttack env0 (JStr "rule") (JArr []) JUndefined]).
  { repeat constructor. }
  split; [exact H|].
  exact (uuids_are_used_once (uuid env0) _ uuid_env0_inj H).
Defined.

(** * Further properties of the WAF callback *)

(** X8: when the native package cannot be loaded, the constructor throws
    the error of the load and registers no subscription; the warning is
    logged only if no earlier load has logged it, and a later failing
    construction logs nothing more. *)
Theorem constructor_load_failure
    (n : Native) (A : AddressRegistry) (rs : Rules) (g : World) (err : JSError) :
  load_error n rs = Some err →
  fst (constructor n A rs g) = Throw err ∧
  subscriptions (snd (constructor n A rs g)) = subscriptions g ∧
  events (reporter (snd (constructor n A rs g))) = events (reporter g) ∧
  warned (snd (constructor n A rs g)) = true ∧
  logs (reporter (snd (constructor n A rs g)))
    = logs (reporter g) ++ (if warned g then [] else [NATIVE_WARNING]) ∧
  ∀ A' rs' err', load_error n rs' = Some err' →
    logs (reporter (snd (constructor n A' rs' (snd (constructor n A rs g)))))
      = logs (reporter (snd (constructor n A rs g))).
Proof.
  intros Hl.
  assert (H : ∀ A rs g err, load_error n rs = Some err →
            fst (constructor n A rs g) = Throw err ∧
            subscriptions (snd (constructor n A rs g)) = subscriptions g ∧
            events (reporter (snd (constructor n A rs g))) = events (reporter g) ∧
            warned (snd (constructor n A rs g)) = true ∧
            logs (reporter (snd (constructor n A rs g)))
              = logs (reporter g) ++ (if warned g then [] else [NATIVE_WARNING])).
  { clear. intros A rs g err Hl. unfold constructor, loadDDWAF. rewrite Hl.
    unfold_W. destruct (warned g) eqn:Hw; simpl; rewrite ?app_nil_r; auto. }
  destruct (H A rs g err Hl) as (H1 & H2 & H3 & H4 & H5).
  repeat (split; [assumption|]).
  intros A' rs' err' Hl'.
  destruct (H A' rs' (snd (constructor n A rs g)) err' Hl') as (_ & _ & _ & _ & H6).
  rewrite H6, H4. now rewrite app_nil_r.
Qed.

Lemma constructor_load_failure_witness :
  load_error native_unavailable rules0
    = Some (Error "Cannot find module '@datadog/native-appsec'") ∧
  subscriptions (snd (constructor native_unavailable registry0 rules0 world0)) = [] ∧
  logs (reporter (snd (constructor native_unavailable registry0 rules0 world0)))
    = [NATIVE_WARNING].
Proof.
  split; [reflexivity|].
  destruct (constructor_load_failure native_unavailable registry0 rules0 world0
              (Error "Cannot find module '@datadog/native-appsec'") eq_refl)
    as (_ & H2 & _ & _ & H5 & _).
  split; [exact H2 | exact H5].
Defined.

Lemma rules_loop_cache A rs cache G g :
  ∃ G', fst (rules_loop A rs cache G g)
        = Return (foldl (fun c r => <[rule_id r := r]> c) cache rs, G').
Proof.
  revert cache G g. induction rs as [|r rest IH]; intros cache G g; simpl.
  - eexists. reflexivity.
  - unfold mbind, W_bind.
    destruct (conditions_loop_post A (rule_id r) (conditions r) G g)
      as (G1 & new1 & H1 & _).
    destruct (conditions_loop A (rule_id r) (conditions r) G g) as [c g1].
    simpl in H1. subst c. apply IH.
Qed.

Lemma foldl_insert_lookup (rs : list Rule) (cache : gmap string Rule) (k : string) :
  foldl (fun c r => <[rule_id r := r]> c) cache rs !! k =
  match last (List.filter (fun r => String.eqb (rule_id r) k) rs) with
  | Some r => Some r
  | None => cache !! k
  end.
Proof.
  revert cache. induction rs as [|r rest IH]; intros cache; simpl; [reflexivity|].
  rewrite IH. destruct (String.eqb (rule_id r) k) eqn:E.
  - apply String.eqb_eq in E. rewrite last_cons.
    destruct (last (List.filter _ rest)); [reflexivity|].
    rewrite E. apply lookup_insert_eq.
  - apply String.eqb_neq in E.
    destruct (last (List.filter _ rest)); [reflexivity|].
    now apply lookup_insert_ne.
Qed.

(** X9: the rule cache of a constructed instance maps an id to the last
    rule of the rule set with that id, whether or not the rule was
    skipped as invalid, and has no other entry. *)
Theorem ruleCache_holds_last_rule_with_id
    (n : Native) (A : AddressRegistry) (rs : Rules) (g g' : World) (self : WAFCallback)
    (k : string) :
  constructor n A rs g = (Return self, g') →
  ruleCache self !! k = last (List.filter (fun r => String.eqb (rule_id r) k) (rules rs)).
Proof.
  intros H. destruct (constructor_inv _ _ _ _ _ _ H) as (_ & (G0 & Hloop) & _).
  destruct (rules_loop_cache A (rules rs) ∅ ∅ g) as (G' & Hc).
  rewrite Hloop in Hc. simpl in Hc. injection Hc as Hc _.
  rewrite Hc, foldl_insert_lookup.
  destruct (last _); [reflexivity | apply lookup_empty].
Qed.

Lemma ruleCache_holds_last_rule_with_id_witness :
  constructor native_failing registry0 rules0 world0 = (Return instance0, world1) ∧
  ruleCache instance0 !! "r2" = Some rule_unknown ∧
  ruleCache instance0 !! "r9" = None.
Proof.
  split; [exact constructor0|]. split.
  - rewrite (ruleCache_holds_last_rule_with_id native_failing registry0 rules0 world0
               world1 instance0 "r2" constructor0). reflexivity.
  - rewrite (ruleCache_holds_last_rule_with_id native_failing registry0 rules0 world0
               world1 instance0 "r9" constructor0). reflexivity.
Defined.

Lemma conditions_loop_reporter A rid conds G g :
  reporter (snd (conditions_loop A rid conds G g)) =
  if forallb (fun c => all_valid A (condition_addresses c)) conds
  then reporter g
  else with_log (LogWarn ("Skipping invalid rule " +:+ rid)) (reporter g).
Proof.
  revert G g. induction conds as [|c rest IH]; intros G g; simpl; [reflexivity|].
  destruct (all_valid A (condition_addresses c)); simpl; [|reflexivity].
  destruct (bool_decide _); [apply IH|].
  unfold_W. simpl. rewrite IH. reflexivity.
Qed.

Lemma rules_loop_reporter A rs cache G g :
  events (reporter (snd (rules_loop A rs cache G g))) = events (reporter g) ∧
  logs (reporter (snd (rules_loop A rs cache G g))) =
    logs (reporter g) ++ map skip_warning (List.filter (has_invalid_condition A) rs).
Proof.
  revert cache G g. induction rs as [|r rest IH]; intros cache G g; simpl.
  - now rewrite app_nil_r.
  - unfold mbind, W_bind.
    pose proof (conditions_loop_reporter A (rule_id r) (conditions r) G g) as Hr.
    destruct (conditions_loop_post A (rule_id r) (conditions r) G g)
      as (G1 & new1 & H1 & _).
    destruct (conditions_loop A (rule_id r) (conditions r) G g) as [c g1].
    simpl in H1, Hr. subst c.
    destruct (IH (<[rule_id r := r]> cache) G1 g1) as [IH1 IH2].
    rewrite IH1, IH2, Hr. unfold has_invalid_condition at 2.
    destruct (forallb _ (conditions r)); simpl; [auto|].
    rewrite <- app_assoc. auto.
Qed.

(** X10: a construction that returns has logged exactly one warning for
    each rule that has a condition with an address outside the registry,
    in the order of the rules, and nothing else; it has not touched the
    backlog. *)
Theorem constructor_warns_once_per_invalid_rule
    (n : Native) (A : AddressRegistry) (rs : Rules) (g g' : World) (self : WAFCallback) :
  constructor n A rs g = (Return self, g') →
  logs (reporter g') =
    logs (reporter g) ++ map skip_warning (List.filter (has_invalid_condition A) (rules rs)) ∧
  events (reporter g') = events (reporter g).
Proof.
  intros H. destruct (constructor_inv _ _ _ _ _ _ H) as (Hl & (G0 & Hloop) & _).
  destruct (loadDDWAF_spec n rs g) as [_ Hload]. rewrite Hl in Hload.
  destruct (rules_loop_reporter A (rules rs) ∅ ∅ g) as [H1 H2].
  rewrite Hloop in H1, H2. simpl in H1, H2. auto.
Qed.

Lemma constructor_warns_once_per_invalid_rule_witness :
  constructor native_failing registry0 {| rules := [rule_mixed; rule_valid; rule_unknown] |}
    world0
    = (Return (constructed (constructor native_failing registry0
                              {| rules := [rule_mixed; rule_valid; rule_unknown] |} world0)),
       snd (constructor native_failing registry0
              {| rules := [rule_mixed; rule_valid; rule_unknown] |} world0)) ∧
  logs (reporter (snd (constructor native_failing registry0
                         {| rules := [rule_mixed; rule_valid; rule_unknown] |} world0)))
    = [LogWarn "Skipping invalid rule r1"; LogWarn "Skipping invalid rule r2"].
Proof.
  assert (H : constructor native_failing registry0
                {| rules := [rule_mixed; rule_valid; rule_unknown] |} world0
              = (Return (constructed (constructor native_failing registry0
                           {| rules := [rule_mixed; rule_valid; rule_unknown] |} world0)),
                 snd (constructor native_failing registry0
                        {| rules := [rule_mixed; rule_valid; rule_unknown] |} world0)))
    by (vm_compute; reflexivity).
  split; [exact H|].
  destruct (constructor_warns_once_per_invalid_rule _ _ _ _ _ _ H) as [H1 _].
  rewrite H1. vm_compute. reflexivity.
Defined.

(** [obtain_wafContext], case by case. *)
Lemma obtain_wafContext_cases n self store g :
  obtain_wafContext n self store g =
  match store_read store with
  | Return (KeyObject key) =>
      match wafContextCache self !! key with
      | Some wafContext => (Return (wafContext, self), g)
      | None =>
          match createContext n (created g) with
          | Return h =>
              (Return (h, with_wafContextCache (<[key := h]> (wafContextCache self)) self),
               count_created g)
          | Throw e => (Throw e, count_created g)
          end
      end
  | Return KeyPrimitive =>
      match createContext n (created g) with
      | Return h => (Throw INVALID_KEY, count_created g)
      | Throw e => (Throw e, count_created g)
      end
  | Return KeyFalsy =>
      match createContext n (created g) with
      | Return h => (Return (h, self), count_created g)
      | Throw e => (Throw e, count_created g)
      end
  | Throw e => (Throw e, g)
  end.
Proof.
  unfold obtain_wafContext, store_read. unfold_W.
  destruct store as [[[[|key|]|e]]|]; simpl;
    try destruct (wafContextCache self !! key); simpl;
    try destruct (createContext n (created g)); reflexivity.
Qed.

Lemma applyResult_loop_frame w self data g :
  same_outside_reporter g (snd (applyResult_loop w self data g)).
Proof.
  revert g. induction data as [|p rest IH]; intros g; simpl.
  - repeat split.
  - unfold_W.
    destruct (ruleCache self !! point_rule p) as [r|]; simpl; [|repeat split].
    destruct (head (point_filter p)) as [m|]; simpl; [|repeat split].
    destruct (reportAttack w (attack_info p r m) JUndefined JUndefined (reporter g))
      as [[o|e] s']; simpl; [|repeat split].
    apply (IH {| reporter := s'; warned := warned g; subscriptions := subscriptions g;
                 created := created g; runs := runs g; disposed := disposed g |}).
Qed.

Lemma applyResult_frame n w self result g :
  same_outside_reporter g (snd (applyResult n w self result g)).
Proof.
  unfold applyResult. destruct (truthy (result_action result)); [|repeat split].
  unfold_W. destruct (JSON_parse n (result_data result)); simpl; [|repeat split].
  apply applyResult_loop_frame.
Qed.

(** [action] once the matcher state is obtained. *)
Lemma action_cases n w self params store g r g1 :
  obtain_wafContext n self store g = (Return r, g1) →
  action n w self params store g =
  match run_result n (runs g1) (fst r) params DEFAULT_MAX_BUDGET with
  | Return result =>
      match applyResult n w (snd r) result (count_run g1) with
      | (Return _, g3) => (Return (snd r), g3)
      | (Throw _, g3) => (Return (snd r), warn_WAF_ERROR g3)
      end
  | Throw _ => (Return (snd r), warn_WAF_ERROR (count_run g1))
  end.
Proof.
  intros H. unfold action. unfold mbind at 1, W_bind at 1. rewrite H.
  unfold W_try_catch, mbind, W_bind, mret, W_ret, call_run, W_log_warn, in_reporter,
    log_warn, modify.
  destruct (run_result n (runs g1) (fst r) params DEFAULT_MAX_BUDGET) as [result|e];
    [|reflexivity].
  fold (count_run g1).
  destruct (applyResult n w (snd r) result (count_run g1)) as [[[]|e] g3]; reflexivity.
Qed.

(** The part of [action] after the matcher state is obtained counts one
    run and changes nothing else outside the reporter. *)
Lemma action_frame n w self params store g r g1 :
  obtain_wafContext n self store g = (Return r, g1) →
  created (snd (action n w self params store g)) = created g1 ∧
  subscriptions (snd (action n w self params store g)) = subscriptions g1 ∧
  runs (snd (action n w self params store g)) = S (runs g1).
Proof.
  intros H. rewrite (action_cases n w self params store g r g1 H).
  destruct (run_result n (runs g1) (fst r) params DEFAULT_MAX_BUDGET) as [result|e];
    [|simpl; auto].
  pose proof (applyResult_frame n w (snd r) result (count_run g1)) as Hf.
  destruct (applyResult n w (snd r) result (count_run g1)) as [[[]|e] g3];
    destruct Hf as (_ & F2 & F3 & F4 & _); simpl in *; auto.
Qed.

(** X11: the first call of action for an execution context whose key is
    not in the cache creates one matcher state and caches it under the
    key; every later call with the same key, in whatever state, finds it
    there and creates none. *)
Theorem matcher_state_is_created_once_per_context
    (n : Native) (w : Env) (self : WAFCallback) (params : JSValue) (key h : nat)
    (g : World) :
  wafContextCache self !! key = None →
  createContext n (created g) = Return h →
  fst (action n w self params (store_of key) g)
    = Return (with_wafContextCache (<[key := h]> (wafContextCache self)) self) ∧
  created (snd (action n w self params (store_of key) g)) = S (created g) ∧
  ∀ w' params' g',
    fst (action n w' (with_wafContextCache (<[key := h]> (wafContextCache self)) self)
           params' (store_of key) g')
      = Return (with_wafContextCache (<[key := h]> (wafContextCache self)) self) ∧
    created (snd (action n w' (with_wafContextCache (<[key := h]> (wafContextCache self)) self)
                    params' (store_of key) g')) = created g'.
Proof.
  intros Hc Hh.
  set (self1 := with_wafContextCache (<[key := h]> (wafContextCache self)) self).
  assert (Ho : obtain_wafContext n self (store_of key) g
               = (Return (h, self1), count_created g)).
  { rewrite obtain_wafContext_cases. simpl. now rewrite Hc, Hh. }
  destruct (action_returns n w self params _ g _ _ Ho) as (g1 & Ha).
  destruct (action_frame n w self params _ g _ _ Ho) as (F1 & _).
  split; [now rewrite Ha|]. split; [exact F1|].
  intros w' params' g'.
  assert (Ho' : obtain_wafContext n self1 (store_of key) g' = (Return (h, self1), g')).
  { rewrite obtain_wafContext_cases. simpl. now rewrite lookup_insert_eq. }
  destruct (action_returns n w' self1 params' _ g' _ _ Ho') as (g2 & Ha').
  destruct (action_frame n w' self1 params' _ g' _ _ Ho') as (F1' & _).
  split; [now rewrite Ha' | exact F1'].
Qed.

Lemma matcher_state_is_created_once_per_context_witness :
  wafContextCache instance0 !! 7%nat = None ∧
  created (snd (action native_failing env1 instance0 (JObj []) (store_of 7) world1))
    = 1%nat ∧
  created (snd (action native_failing env1
                  (with_wafContextCache (<[7%nat := 0%nat]> (wafContextCache instance0))
                     instance0)
                  (JObj [])
                  (store_of 7)
                  (snd (action native_failing env1 instance0 (JObj []) (store_of 7) world1))))
    = 1%nat.
Proof.
  assert (Hc : wafContextCache instance0 !! 7%nat = None) by (vm_compute; reflexivity).
  split; [exact Hc|].
  destruct (matcher_state_is_created_once_per_context native_failing env1 instance0
              (JObj []) 7 0 world1 Hc eq_refl) as (_ & H2 & H3).
  split; [exact H2|].
  destruct (H3 env1 (JObj [])
              (snd (action native_failing env1 instance0 (JObj []) (store_of 7) world1)))
    as [_ H4].
  rewrite H4. exact H2.
Defined.

(** X12: without a store, or with a store that has no context key, a
    call of action creates a matcher state of its own and leaves the cache
    of the instance as it was. *)
Theorem matcher_state_is_not_cached_without_key
    (n : Native) (w : Env) (self : WAFCallback) (params : JSValue)
    (store : option Store) (h : nat) (g : World) :
  store_read store = Return KeyFalsy →
  createContext n (created g) = Return h →
  fst (action n w self params store g) = Return self ∧
  created (snd (action n w self params store g)) = S (created g).
Proof.
  intros Hk Hh.
  assert (Ho : obtain_wafContext n self store g = (Return (h, self), count_created g)).
  { rewrite obtain_wafContext_cases. now rewrite Hk, Hh. }
  destruct (action_returns n w self params _ g _ _ Ho) as (g1 & Ha).
  destruct (action_frame n w self params _ g _ _ Ho) as (F1 & _).
  split; [now rewrite Ha | exact F1].
Qed.

Lemma matcher_state_is_not_cached_without_key_witness :
  store_read None = Return KeyFalsy ∧
  fst (action native_failing env1 instance0 (JObj []) None world1) = Return instance0 ∧
  created (snd (action native_failing env1 instance0 (JObj []) None world1)) = 1%nat.
Proof.
  split; [reflexivity|].
  exact (matcher_state_is_not_cached_without_key native_failing env1 instance0 (JObj [])
           None 0 world1 eq_refl eq_refl).
Defined.

(** X13: an error escapes action only before the matcher runs, and it
    is one of three: the error that store.get('context') threw, before
    anything was created; the error that createContext threw, for a key
    that was not in the cache; or the TypeError of WeakMap.set when the
    key of the store is a truthy primitive, after a matcher state was
    created, which is then lost.  In each case the matcher was not run,
    and the reporter, with the log, and the subscriptions are as they
    were. *)
Theorem action_throws_only_without_matcher_state
    (n : Native) (w : Env) (self : WAFCallback) (params : JSValue)
    (store : option Store) (g : World) (err : JSError) :
  fst (action n w self params store g) = Throw err →
  ((store_read store = Throw err ∧
    created (snd (action n w self params store g)) = created g)
   ∨ ((∃ k, store_read store = Return k) ∧
      createContext n (created g) = Throw err ∧
      (∀ key, store_read store = Return (KeyObject key) →
              wafContextCache self !! key = None) ∧
      created (snd (action n w self params store g)) = S (created g))
   ∨ (store_read store = Return KeyPrimitive ∧
      (∃ h, createContext n (created g) = Return h) ∧
      err = INVALID_KEY ∧
      created (snd (action n w self params store g)) = S (created g))) ∧
  runs (snd (action n w self params store g)) = runs g ∧
  reporter (snd (action n w self params store g)) = reporter g ∧
  subscriptions (snd (action n w self params store g)) = subscriptions g.
Proof.
  intros H.
  destruct (obtain_wafContext n self store g) as [[r|e] g1] eqn:Ho.
  { destruct (action_returns n w self params store g r g1 Ho) as (g2 & H2).
    rewrite H2 in H. discriminate. }
  assert (Ha : action n w self params store g = (Throw e, g1)).
  { unfold action. unfold mbind at 1, W_bind at 1. now rewrite Ho. }
  rewrite Ha in H. injection H as ->. rewrite Ha. simpl.
  rewrite obtain_wafContext_cases in Ho.
  destruct (store_read store) as [[|key|]|e].
  - destruct (createContext n (created g)); [discriminate|].
    injection Ho as -> <-. split; [|auto]. right. left.
    repeat split; eauto. intros k [=].
  - destruct (wafContextCache self !! key) eqn:Hc; [discriminate|].
    destruct (createContext n (created g)); [discriminate|].
    injection Ho as -> <-. split; [|auto]. right. left.
    repeat split; eauto. intros k [= <-]. exact Hc.
  - destruct (createContext n (created g)) as [h|e] eqn:Hh.
    + injection Ho as <- <-. split; [|auto]. right. right. repeat split; eauto.
    + injection Ho as -> <-. split; [|auto]. right. left.
      repeat split; eauto. intros k [=].
  - injection Ho as -> <-. split; [|auto]. left. auto.
Qed.

Lemma action_throws_only_without_matcher_state_witness :
  (fst (action native_no_context env1 instance0 (JObj []) (store_of 7) world1)
     = Throw (Error "ddwaf_context_init failed") ∧
   reporter (snd (action native_no_context env1 instance0 (JObj []) (store_of 7) world1))
     = reporter world1) ∧
  (fst (action native_failing env1 instance0 (JObj [])
          (Some {| store_get := Return KeyPrimitive |}) world1) = Throw INVALID_KEY ∧
   runs (snd (action native_failing env1 instance0 (JObj [])
                (Some {| store_get := Return KeyPrimitive |}) world1)) = runs world1 ∧
   created (snd (action native_failing env1 instance0 (JObj [])
                   (Some {| store_get := Return KeyPrimitive |}) world1))
     = S (created world1)).
Proof.
  split.
  - assert (H : fst (action native_no_context env1 instance0 (JObj []) (store_of 7) world1)
                = Throw (Error "ddwaf_context_init failed")) by (vm_compute; reflexivity).
    split; [exact H|].
    destruct (action_throws_only_without_matcher_state _ _ _ _ _ _ _ H)
      as (_ & _ & H4 & _).
    exact H4.
  - assert (H : fst (action native_failing env1 instance0 (JObj [])
                       (Some {| store_get := Return KeyPrimitive |}) world1)
                = Throw INVALID_KEY) by (vm_compute; reflexivity).
    split; [exact H|].
    destruct (action_throws_only_without_matcher_state _ _ _ _ _ _ _ H)
      as ([[Hs _] | [(_ & Hc & _) | (_ & _ & _ & Hcr)]] & Hr & _).
    + discriminate Hs.
    + discriminate Hc.
    + split; [exact Hr | exact Hcr].
Defined.

(** X14: when the run of the matcher returns a result without an action,
    action returns and the reporter, with the log and the backlog, is as
    it was; when the result has an action but its data cannot be parsed,
    action returns, logs the warning and leaves the backlog as it was. *)
Theorem action_without_usable_result
    (n : Native) (w : Env) (self : WAFCallback) (params : JSValue)
    (store : option Store) (g g1 : World) (wafContext : nat) (self1 : WAFCallback)
    (result : WafResult) :
  obtain_wafContext n self store g = (Return (wafContext, self1), g1) →
  run_result n (runs g1) wafContext params DEFAULT_MAX_BUDGET = Return result →
  fst (action n w self params store g) = Return self1 ∧
  (truthy (result_action result) = false →
     reporter (snd (action n w self params store g)) = reporter g) ∧
  (truthy (result_action result) = true → JSON_parse n (result_data result) = None →
     logs (reporter (snd (action n w self params store g)))
       = logs (reporter g) ++ [WAF_ERROR] ∧
     events (reporter (snd (action n w self params store g))) = events (reporter g)).
Proof.
  intros Ho Hr.
  destruct (obtain_wafContext_frame n self store g) as (F1 & _).
  rewrite Ho in F1. simpl in F1.
  rewrite (action_cases n w self params store g _ g1 Ho). simpl fst. simpl snd.
  rewrite Hr. unfold applyResult.
  destruct (truthy (result_action result)) eqn:Ht.
  - unfold_W. destruct (JSON_parse n (result_data result)) as [data|] eqn:Hp; simpl.
    + destruct (applyResult_loop w self1 data (count_run g1)) as [[[]|e] g3]; simpl;
        (split; [reflexivity|]); split; intros; discriminate.
    + split; [reflexivity|]. split; [discriminate|]. intros _ _.
      rewrite F1. auto.
  - simpl. split; [reflexivity|]. split; [intros _; exact F1 | discriminate].
Qed.

Lemma action_without_usable_result_witness :
  truthy (JStr "") = false ∧
  reporter (snd (action
     {| load_error := fun _ => None; createContext := fun i => Return i;
        run_result := fun _ _ _ _ => Return {| result_action := JStr ""; result_data := "" |};
        JSON_parse := fun _ => None |}
     env1 instance0 (JObj []) None world1)) = reporter world1.
Proof.
  split; [reflexivity|].
  destruct (action_without_usable_result
     {| load_error := fun _ => None; createContext := fun i => Return i;
        run_result := fun _ _ _ _ => Return {| result_action := JStr ""; result_data := "" |};
        JSON_parse := fun _ => None |}
     env1 instance0 (JObj []) None world1 (count_created world1) 0 instance0
     {| result_action := JStr ""; result_data := "" |} eq_refl eq_refl) as (_ & H & _).
  exact (H eq_refl).
Defined.

Lemma applyResult_loop_app w self l1 l2 g :
  applyResult_loop w self (l1 ++ l2) g =
  match applyResult_loop w self l1 g with
  | (Return _, g1) => applyResult_loop w self l2 g1
  | (Throw e, g1) => (Throw e, g1)
  end.
Proof.
  revert g. induction l1 as [|p rest IH]; intros g; simpl; [reflexivity|].
  unfold_W.
  destruct (ruleCache self !! point_rule p) as [r|]; simpl; [|reflexivity].
  destruct (head (point_filter p)) as [m|]; simpl; [|reflexivity].
  destruct (reportAttack w (attack_info p r m) JUndefined JUndefined (reporter g))
    as [[o|e] s']; simpl; [|reflexivity].
  apply IH.
Qed.

(** X15: a match whose rule id is not in the rule cache, or whose filter
    is empty, makes applyResult throw a TypeError at that match: the
    matches before it have been reported, the match itself and the matches
    after it are not. *)
Theorem applyResult_stops_at_bad_match
    (w : Env) (self : WAFCallback) (pre post : list Point) (p : Point) (g : World) :
  ruleCache self !! point_rule p = None ∨ point_filter p = [] →
  fst (applyResult_loop w self pre g) = Return tt →
  (∃ msg, fst (applyResult_loop w self (pre ++ p :: post) g) = Throw (TypeError msg)) ∧
  snd (applyResult_loop w self (pre ++ p :: post) g) = snd (applyResult_loop w self pre g).
Proof.
  intros Hbad Hpre. rewrite applyResult_loop_app.
  destruct (applyResult_loop w self pre g) as [[[]|e] g1]; [|discriminate].
  simpl. unfold_W.
  destruct Hbad as [Hr | Hf].
  - rewrite Hr. simpl. eauto.
  - rewrite Hf. destruct (ruleCache self !! point_rule p); simpl; eauto.
Qed.

Lemma applyResult_stops_at_bad_match_witness :
  ruleCache instance_matching !! point_rule (point_for "zz") = None ∧
  length (events (reporter (snd (applyResult_loop env1 instance_matching
            ([point_for "r3"] ++ point_for "zz" :: [point_for "r3"]) world1)))) = 1%nat.
Proof.
  assert (H : ruleCache instance_matching !! point_rule (point_for "zz") = None)
    by (vm_compute; reflexivity).
  split; [exact H|].
  destruct (applyResult_stops_at_bad_match env1 instance_matching [point_for "r3"]
              [point_for "r3"] (point_for "zz") world1 (or_introl H))
    as [_ H2].
  - vm_compute. reflexivity.
  - rewrite H2. vm_compute. reflexivity.
Defined.

Lemma reportAttack_ambient_independent w s s' :
  fst (resolveHTTPAddresses w s) = fst (resolveHTTPAddresses w s') ∧
  fst (getTracerData w s) = fst (getTracerData w s').
Proof.
  split.
  - unfold resolveHTTPAddresses. destruct (getContext w) as [c|]; [|reflexivity].
    unfold_M.
    repeat first
      [ reflexivity
      | match goal with
        | |- context [resolve ?c ?a] => destruct (resolve c a); simpl
        | |- context [URL_href ?w ?a ?b] => destruct (URL_href w a b); simpl
        | |- context [match ?v with JUndefined => _ | _ => _ end] => destruct v; simpl
        end ].
  - unfold getTracerData. unfold_M.
    destruct (tracer_scope w) as [sc|]; simpl; [|reflexivity].
    destruct (_config sc) as [cfg|]; simpl; [|reflexivity].
    destruct (tags cfg) as [en|]; simpl; [|reflexivity].
    destruct (active sc); reflexivity.
Qed.

Lemma applyResult_loop_reports w self data g http td :
  Inv (reporter g) →
  Set_size (events (reporter g)) + Z.of_nat (length data) <= MAX_EVENT_BACKLOG + 1 →
  fst (resolveHTTPAddresses w (reporter g)) = Return http →
  fst (getTracerData w (reporter g)) = Return td →
  Forall (reportable self) data →
  ∃ new,
    fst (applyResult_loop w self data g) = Return tt ∧
    events (reporter (snd (applyResult_loop w self data g))) = events (reporter g) ++ new ∧
    Forall2 (reports_match self) data new.
Proof.
  revert g. induction data as [|p rest IH]; intros g HI Hsz Hh Ht Hall.
  { exists []. simpl. rewrite app_nil_r. repeat split. constructor. }
  apply Forall_cons in Hall as [[[r Hr] Hf] Hall].
  destruct (point_filter p) as [|m ms] eqn:Hpf; [congruence|].
  simpl. unfold_W. rewrite Hr, Hpf. simpl.
  assert (Hle : Set_size (events (reporter g)) <= MAX_EVENT_BACKLOG).
  { simpl length in Hsz. lia. }
  pose proof (step_report w (attack_info p r m) JUndefined JUndefined (reporter g) HI)
    as Hstep.
  pose proof (step_preserves_Inv
                (CallReportAttack w (attack_info p r m) JUndefined JUndefined)
                (reporter g) HI) as HI'.
  unfold step in HI'. simpl in Hstep, HI'.
  destruct (reportAttack w (attack_info p r m) JUndefined JUndefined (reporter g))
    as [c s'] eqn:E.
  destruct (reportAttack_run _ _ _ _ _ _ _ Hle E) as (_ & _ & _ & Hc).
  destruct Hc as [(err & _ & _ & _ & _ & [H|H]) | (h & t & _ & _ & -> & _)];
    [congruence | congruence |].
  simpl in Hstep, HI'. destruct Hstep as (_ & _ & _ & _ & He & _).
  set (g1 := {| reporter := s'; warned := warned g; subscriptions := subscriptions g;
                created := created g; runs := runs g; disposed := disposed g |}).
  destruct (IH g1) as (new & H1 & H2 & H3); simpl.
  - exact HI'.
  - rewrite He. unfold Set_size in *. rewrite length_app. simpl length in *. lia.
  - destruct (reportAttack_ambient_independent w s' (reporter g)) as [-> _]. exact Hh.
  - destruct (reportAttack_ambient_independent w s' (reporter g)) as [_ ->]. exact Ht.
  - exact Hall.
  - eexists (_ :: new). split; [exact H1|]. split.
    + rewrite H2. simpl. rewrite He, <- app_assoc. reflexivity.
    + constructor; [|exact H3]. exists r, m. rewrite Hpf. simpl. auto.
Qed.

(** X16: when the reporter state satisfies the invariant of the reachable
    states, the ambient context resolves, every match can be turned into
    an attack info and the backlog has room for them, applyResult
    returns after it has appended one event for each match, in the order
    of the matches; the rule of the event is the attack info of the match
    and the event has no rule_match. *)
Theorem applyResult_reports_each_match
    (n : Native) (w : Env) (self : WAFCallback) (result : WafResult)
    (data : list Point) (g : World) (http td : JSValue) :
  Inv (reporter g) →
  truthy (result_action result) = true →
  JSON_parse n (result_data result) = Some data →
  Set_size (events (reporter g)) + Z.of_nat (length data) <= MAX_EVENT_BACKLOG + 1 →
  fst (resolveHTTPAddresses w (reporter g)) = Return http →
  fst (getTracerData w (reporter g)) = Return td →
  Forall (reportable self) data →
  ∃ new,
    fst (applyResult n w self result g) = Return tt ∧
    events (reporter (snd (applyResult n w self result g))) = events (reporter g) ++ new ∧
    Forall2 (reports_match self) data new.
Proof.
  intros Hr Ht Hp Hsz Hh Htd Hall.
  unfold applyResult. rewrite Ht. unfold_W. rewrite Hp. simpl.
  apply (applyResult_loop_reports w self data g http td); auto.
Qed.

Lemma applyResult_reports_each_match_witness :
  Inv (reporter world1) ∧
  ∃ new,
    events (reporter (snd (applyResult native_matching env1 instance_matching
                             {| result_action := JStr "monitor"; result_data := "[...]" |}
                             world1))) = new ∧
    Forall2 (reports_match instance_matching) [point_for "r3"] new.
Proof.
  assert (Hr : Inv (reporter world1)).
  { split.
    - left. split; reflexivity.
    - constructor.
    - constructor.
    - unfold MAX_EVENT_BACKLOG. vm_compute. discriminate. }
  split; [exact Hr|].
  destruct (applyResult_reports_each_match native_matching env1 instance_matching
              {| result_action := JStr "monitor"; result_data := "[...]" |}
              [point_for "r3"] world1
              (fst (returned_value (resolveHTTPAddresses env1 init)))
              (fst (returned_value (getTracerData env1 init)))
              Hr eq_refl eq_refl)
    as (new & _ & H2 & H3).
  - vm_compute. discriminate.
  - vm_compute. reflexivity.
  - vm_compute. reflexivity.
  - constructor; [|constructor]. split; [vm_compute; eauto | discriminate].
  - exists new. split; [exact H2 | exact H3].
Defined.

(** Over the bound the loop of [applyResult] changes nothing: it returns
    when every match can be turned into an attack info, and throws a
    TypeError at the first match that cannot. *)
Lemma applyResult_loop_over_bound w self data g :
  MAX_EVENT_BACKLOG < Set_size (events (reporter g)) →
  snd (applyResult_loop w self data g) = g ∧
  (Forall (reportable self) data → fst (applyResult_loop w self data g) = Return tt) ∧
  (¬ Forall (reportable self) data →
   ∃ msg, fst (applyResult_loop w self data g) = Throw (TypeError msg)).
Proof.
  intros Hov. induction data as [|p rest IH].
  { simpl. repeat split. intros H. destruct H. constructor. }
  destruct IH as (IH1 & IH2 & IH3).
  simpl. unfold_W.
  destruct (ruleCache self !! point_rule p) as [r|] eqn:Hr; simpl.
  2:{ split; [reflexivity|]. split; [|eauto].
      intros Hall. apply Forall_cons in Hall as [[[r Hr'] _] _]. congruence. }
  destruct (point_filter p) as [|m ms] eqn:Hpf; simpl.
  { split; [reflexivity|]. split; [|eauto].
    intros Hall. apply Forall_cons in Hall as [[_ Hf] _]. congruence. }
  rewrite (reportAttack_over _ _ _ _ _ Hov).
  assert (Hg : {| reporter := reporter g; warned := warned g;
                  subscriptions := subscriptions g; created := created g;
                  runs := runs g; disposed := disposed g |} = g) by (now destruct g).
  rewrite Hg. split; [exact IH1|]. split.
  - intros Hall. apply Forall_cons in Hall as [_ Hall]. auto.
  - intros Hn. apply IH3. intros Hall. apply Hn. constructor; [|exact Hall].
    split; [eauto | congruence].
Qed.

(** X17: while the backlog is over its bound, a run of the matcher that
    returns adds no event and builds none, whatever its result.  When the
    data of the result parses and every match has its rule in the rule
    cache and a filter that is not empty, the matches are dropped without
    a trace: the reporter, with its log, is as it was.  A match with an
    unknown rule or an empty filter still makes action log the warning of
    the WAF. *)
Theorem matches_are_dropped_over_bound
    (n : Native) (w : Env) (self : WAFCallback) (params : JSValue)
    (store : option Store) (g g1 : World) (wafContext : nat) (self1 : WAFCallback)
    (result : WafResult) :
  MAX_EVENT_BACKLOG < Set_size (events (reporter g)) →
  obtain_wafContext n self store g = (Return (wafContext, self1), g1) →
  run_result n (runs g1) wafContext params DEFAULT_MAX_BUDGET = Return result →
  fst (action n w self params store g) = Return self1 ∧
  events (reporter (snd (action n w self params store g))) = events (reporter g) ∧
  next_obj (reporter (snd (action n w self params store g))) = next_obj (reporter g) ∧
  (∀ data, JSON_parse n (result_data result) = Some data →
           Forall (reportable self1) data →
           reporter (snd (action n w self params store g)) = reporter g) ∧
  (∀ data, truthy (result_action result) = true →
           JSON_parse n (result_data result) = Some data →
           ¬ Forall (reportable self1) data →
           logs (reporter (snd (action n w self params store g)))
             = logs (reporter g) ++ [WAF_ERROR]).
Proof.
  intros Hov Ho Hr.
  destruct (obtain_wafContext_frame n self store g) as (F1 & _).
  rewrite Ho in F1. simpl in F1.
  rewrite (action_cases n w self params store g _ g1 Ho). simpl fst. simpl snd.
  rewrite Hr. unfold applyResult.
  destruct (truthy (result_action result)).
  2:{ simpl. rewrite F1. repeat split; auto. intros; discriminate. }
  unfold_W. destruct (JSON_parse n (result_data result)) as [data|]; simpl.
  2:{ rewrite F1. repeat split; auto; intros; discriminate. }
  assert (Hov1 : MAX_EVENT_BACKLOG < Set_size (events (reporter (count_run g1))))
    by (simpl; now rewrite F1).
  destruct (applyResult_loop_over_bound w self1 data (count_run g1) Hov1)
    as (H1 & H2 & H3).
  destruct (applyResult_loop w self1 data (count_run g1)) as [[[]|e] g3];
    simpl in H1; subst g3; simpl; rewrite F1.
  - repeat split; auto. intros d _ [= <-] Hn. destruct (H3 Hn) as [msg Hm].
    discriminate Hm.
  - repeat split; auto. intros d [= <-] Hall. specialize (H2 Hall). discriminate H2.
Qed.

Lemma matches_are_dropped_over_bound_witness :
  MAX_EVENT_BACKLOG < Set_size (events (reporter world_full)) ∧
  reporter (snd (action native_matching env1 instance_matching (JObj []) None world_full))
    = reporter world_full ∧
  logs (reporter (snd (action native_unknown_rule env1 instance_matching (JObj []) None
                         world_full)))
    = logs (reporter world_full) ++ [WAF_ERROR].
Proof.
  assert (Hsz : MAX_EVENT_BACKLOG < Set_size (events (reporter world_full))).
  { change (reporter world_full) with (reports 1000001).
    destruct (reports_size 1000001) as [H _]; [unfold MAX_EVENT_BACKLOG; lia|].
    rewrite H. unfold MAX_EVENT_BACKLOG. lia. }
  split; [exact Hsz|]. split.
  - destruct (matches_are_dropped_over_bound native_matching env1 instance_matching
                (JObj []) None world_full (count_created world_full) 0%nat
                instance_matching
                {| result_action := JStr "monitor"; result_data := "[...]" |} Hsz)
      as (_ & _ & _ & H & _).
    + rewrite obtain_wafContext_cases. reflexivity.
    + reflexivity.
    + apply (H [point_for "r3"]); [reflexivity|].
      constructor; [|constructor]. split; [vm_compute; eauto | discriminate].
  - destruct (matches_are_dropped_over_bound native_unknown_rule env1 instance_matching
                (JObj []) None world_full (count_created world_full) 0%nat
                instance_matching
                {| result_action := JStr "monitor"; result_data := "[...]" |} Hsz)
      as (_ & _ & _ & _ & H).
    + rewrite obtain_wafContext_cases. reflexivity.
    + reflexivity.
    + apply (H [point_for "zz"]); [reflexivity | reflexivity|].
      intros Hall. apply Forall_cons in Hall as [[[r Hr] _] _].
      vm_compute in Hr. discriminate Hr.
Defined.

Lemma run_conserves_events tr s :
  Inv s →
  events s ++ enqueued tr s = concat (drained tr s) ++ events (run tr s) ∧
  sublist (map batch (requested tr s)) (drained tr s) ∧
  (Forall delivers tr → map batch (requested tr s) = drained tr s).
Proof.
  revert s. induction tr as [|a tr IH]; intros s HI.
  { simpl. rewrite app_nil_r. repeat split. constructor. }
  destruct (IH (step a s) (step_preserves_Inv _ _ HI)) as (IH1 & IH2 & IH3).
  cbn [enqueued requested drained run foldl]. fold (run tr (step a s)).
  destruct a as [w rule rm b | w | i err].
  - pose proof (step_report w rule rm b s HI) as H. unfold step in *.
    destruct (step_out (CallReportAttack w rule rm b) s) as [r s'].
    destruct H as (_ & _ & Hi & _ & Hr). cbn [fst snd is_Complete] in *.
    rewrite Hi, drop_all. cbn [app]. split; [|split; [exact IH2|]].
    + destruct r as [e|].
      * destruct Hr as (He & _). rewrite He in IH1.
        rewrite <- IH1, <- app_assoc. reflexivity.
      * rewrite Hr in IH1. exact IH1.
    + intros Hall. apply Forall_cons in Hall as [_ Hall]. auto.
  - unfold step in *. cbn [step_out fst snd is_Complete] in *.
    destruct (lock s) eqn:Hl.
    { rewrite flush_noop in * by auto. cbn [snd] in *.
      rewrite drop_all, Nat.ltb_irrefl. cbn [app].
      split; [exact IH1|]. split; [exact IH2|].
      intros Hall. apply Forall_cons in Hall as [_ Hall]. auto. }
    destruct (events s) as [|e0 evs] eqn:Hev.
    { rewrite flush_noop in * by auto. cbn [snd] in *.
      rewrite drop_all, Hev in *. cbn [app length]. rewrite Nat.ltb_irrefl. cbn [app].
      split; [exact IH1|]. split; [exact IH2|].
      intros Hall. apply Forall_cons in Hall as [_ Hall]. auto. }
    assert (Hne : events s ≠ []) by (rewrite Hev; discriminate).
    destruct (flush w s) as [c s'] eqn:E. cbn [snd] in *.
    destruct (flush_drain _ _ _ _ Hl Hne E) as (He & _ & _ & Hc).
    rewrite He in *. rewrite Hev in *. cbn [length app]. 
    replace (0 <? S (length evs))%nat with true by (symmetry; apply Nat.ltb_lt; lia).
    cbn [app concat]. rewrite <- app_assoc, <- IH1. cbn [app].
    split; [reflexivity|].
    destruct Hc as [(err & _ & Hwhy & _ & Hi) | (req & _ & _ & _ & Hi & Hp & _)].
    + rewrite Hi, drop_all. cbn [app]. split; [now apply sublist_cons|].
      intros Hall. apply Forall_cons in Hall as [[Hurl Hser] _].
      destruct Hwhy as [Hj | (_ & Hnone & _)].
      * rewrite Hser in Hj. discriminate.
      * rewrite Hnone in Hurl. destruct Hurl; discriminate.
    + rewrite Hi, drop_app_length. cbn [app map]. unfold batch at 1 3. rewrite Hp.
      split; [now apply sublist_skip|].
      intros Hall. apply Forall_cons in Hall as [_ Hall]. now rewrite IH3.
  - unfold step in *. cbn [step_out fst snd is_Complete] in *. cbn [app].
    assert (He : events (complete i err s) = events s).
    { unfold complete. destruct (inflight s !! i) as [r|] eqn:Hi; [|reflexivity].
      destruct (complete_spec i err s r HI Hi) as (_ & _ & _ & _ & He & _).
      unfold complete in He. now rewrite Hi in He. }
    rewrite He in IH1. split; [exact IH1|]. split; [exact IH2|].
    intros Hall. apply Forall_cons in Hall as [_ Hall]. auto.
Qed.

(** X18: every event that reportAttack returned during a run is, once
    and in the order reported, in a batch that a call of flush took out of
    the backlog or still in the backlog.  The batches of the requests
    handed to the transport are among the batches taken, in the same
    order; they are all of them when every call of flush had a writer URL
    and a body that serializes: the batch of a call of flush that throws
    is lost. *)
Theorem events_are_handed_over_once_in_order (tr : list Action) :
  enqueued tr init = concat (drained tr init) ++ events (run tr init) ∧
  sublist (map batch (requested tr init)) (drained tr init) ∧
  (Forall delivers tr → map batch (requested tr init) = drained tr init).
Proof. exact (run_conserves_events tr init Inv_init). Qed.

(** A batch is lost: of two reports, each followed by a flush, the first
    flush cannot serialize its body; its event was taken out of the
    backlog and is in no request. *)
Lemma lost_batch_example :
  let tr := [CallReportAttack env0 (JStr "a") (JArr []) JUndefined; CallFlush env_overflow;
             CallReportAttack env0 (JStr "b") (JArr []) JUndefined; CallFlush env0] in
  map ids (drained tr init) = [[0%nat]; [1%nat]] ∧
  map ids (map batch (requested tr init)) = [[1%nat]] ∧
  events (run tr init) = [].
Proof. vm_compute. repeat split. Qed.

Lemma reached_conditions_valid A conds c :
  c ∈ reached_conditions A conds → all_valid A (condition_addresses c) = true.
Proof.
  induction conds as [|c0 rest IH]; simpl; intros H; [inversion H|].
  destruct (all_valid A (condition_addresses c0)) eqn:Hv; [|inversion H].
  apply elem_of_cons in H as [-> | H]; auto.
Qed.

Lemma reached_valid A rs c :
  c ∈ reached A rs → all_valid A (condition_addresses c) = true.
Proof.
  unfold reached. rewrite list_elem_of_In, in_flat_map.
  intros (r & _ & Hc). apply (reached_conditions_valid A (conditions r)).
  now apply list_elem_of_In.
Qed.

(** X19: every address of every subscription that a constructor call
    registers is an address of the registry, also for the subscriptions
    that come from rules logged as invalid. *)
Theorem subscriptions_use_registry_addresses_only
    (n : Native) (A : AddressRegistry) (rs : Rules) (g g' : World) (self : WAFCallback) :
  constructor n A rs g = (Return self, g') →
  ∃ new, subscriptions g' = subscriptions g ++ new ∧
         ∀ s a, s ∈ new → a ∈ addresses s → a ∈ Object_values A.
Proof.
  intros H. destruct (constructor_inv _ _ _ _ _ _ H) as (_ & (G0 & Hloop) & _).
  destruct (rules_loop_post A (rules rs) ∅ ∅ g) as (cache' & G' & new & _ & H2 & P).
  rewrite Hloop in H2. simpl in H2.
  exists new. split; [exact H2|].
  intros s a Hs Ha.
  destruct (post_origin _ _ _ _ P s Hs) as (c & Hc & Heq).
  rewrite Heq, canonical_elem in Ha.
  pose proof (reached_valid A (rules rs) c Hc) as Hv.
  unfold all_valid in Hv. rewrite forallb_forall in Hv.
  specialize (Hv a (proj1 (list_elem_of_In _ _) Ha)).
  apply bool_decide_eq_true in Hv. unfold validAddressSet in Hv.
  now apply elem_of_list_to_set in Hv.
Qed.

Lemma subscriptions_use_registry_addresses_only_witness :
  constructor native_failing registry0 rules0 world0 = (Return instance0, world1) ∧
  ∃ new, subscriptions world1 = new ∧
         ∀ s a, s ∈ new → a ∈ addresses s → a ∈ Object_values registry0.
Proof.
  split; [exact constructor0|].
  destruct (subscriptions_use_registry_addresses_only native_failing registry0 rules0
              world0 world1 instance0 constructor0) as (new & H1 & H2).
  exists new. split; [exact H1 | exact H2].
Defined.

(** * Properties of the Lambda service *)

Lemma assoc_set_prop k v ps k' :
  assoc k' (set_prop k v ps) = if String.eqb k' k then Some v else assoc k' ps.
Proof.
  induction ps as [|[k0 v0] r IH]; simpl.
  - destruct (String.eqb k' k); reflexivity.
  - destruct (String.eqb k k0) eqn:E; simpl.
    + apply String.eqb_eq in E. subst k0. destruct (String.eqb k' k); reflexivity.
    + rewrite IH. destruct (String.eqb k' k0) eqn:E'; [|reflexivity].
      apply String.eqb_eq in E'. subst k0.
      rewrite String.eqb_sym in E. now rewrite E.
Qed.

Lemma prop_set_prop k v ps k' :
  prop (JObj (set_prop k v ps)) k' = if String.eqb k' k then v else prop (JObj ps) k'.
Proof.
  unfold prop. rewrite assoc_set_prop. destruct (String.eqb k' k); reflexivity.
Qed.

Lemma with_params_id request ps :
  params request = Some ps → with_params ps request = request.
Proof. destruct request as [o p]. simpl. intros ->. reflexivity. Qed.

(** [generateTags] gives both tags or none. *)
Lemma generateTags_both_or_none params operation response :
  generateTags params operation response = JObj [] ∨
  (truthy (prop params "FunctionName") = true ∧
   prop (generateTags params operation response) "aws.lambda"
     = prop params "FunctionName" ∧
   prop (generateTags params operation response) "resource.name"
     = JStr (ToString operation +:+ " " +:+ ToString (prop params "FunctionName"))).
Proof.
  unfold generateTags. destruct (truthy params); simpl; [|now left].
  destruct (truthy (prop params "FunctionName")); simpl; [right; auto | now left].
Qed.

(** X20: requestInject never changes the operation of a request and
    never changes or adds a parameter other than ClientContext; a request
    whose operation is not invoke, and an invoke request whose
    InvocationType is set to something other than RequestResponse, are
    left exactly as they were, and nothing is written. *)
Theorem requestInject_touches_only_ClientContext
    (rt : Runtime) (span : JSValue) (request : Request) (out : Output) :
  operation (fst (requestInject rt span request out)) = operation request ∧
  (∀ k, k ≠ "ClientContext" →
     prop (JObj (default [] (params (fst (requestInject rt span request out))))) k
       = prop (JObj (default [] (params request))) k) ∧
  (is_string (operation request) "invoke" = false →
     requestInject rt span request out = (request, out)) ∧
  (∀ ps, params request = Some ps →
     truthy (prop (JObj ps) "InvocationType") = true →
     is_string (prop (JObj ps) "InvocationType") "RequestResponse" = false →
     requestInject rt span request out = (request, out)).
Proof.
  unfold requestInject.
  destruct (is_string (operation request) "invoke") eqn:Hop.
  - set (ps := default [] (params request)).
    destruct (negb (truthy (prop (JObj ps) "InvocationType")) ||
              is_string (prop (JObj ps) "InvocationType") "RequestResponse") eqn:Hs.
    + assert (Hrest : ∀ ps0 : list (string * JSValue), params request = Some ps0 →
                truthy (prop (JObj ps0) "InvocationType") = true →
                is_string (prop (JObj ps0) "InvocationType") "RequestResponse" = false →
                False).
      { intros ps0 Hp Ht Hi. unfold ps in Hs. rewrite Hp in Hs.
        change (default [] (Some ps0)) with ps0 in Hs.
        rewrite Ht, Hi in Hs. discriminate. }
      destruct (JSON_stringify_request rt (with_params ps request));
        cbn [fst snd operation params with_params].
      * destruct (read_client_context rt ps ≫= _) as [json|err];
          cbn [fst snd operation params with_params].
        -- split; [reflexivity|]. split.
           { intros k Hk. change (default [] (Some ?x)) with x. rewrite prop_set_prop.
             destruct (String.eqb k "ClientContext") eqn:E; [|reflexivity].
             apply String.eqb_eq in E. contradiction. }
           split; [discriminate|]. intros ps0 Hp Ht Hi. destruct (Hrest ps0 Hp Ht Hi).
        -- split; [reflexivity|]. split; [reflexivity|].
           split; [discriminate|]. intros ps0 Hp Ht Hi. destruct (Hrest ps0 Hp Ht Hi).
      * split; [reflexivity|]. split; [reflexivity|].
        split; [discriminate|]. intros ps0 Hp Ht Hi. destruct (Hrest ps0 Hp Ht Hi).
    + simpl. split; [reflexivity|]. split; [reflexivity|]. split; [discriminate|].
      intros ps0 Hp _ _. unfold ps. rewrite Hp. simpl. now rewrite with_params_id.
  - simpl. split; [reflexivity|]. split; [reflexivity|]. split; [reflexivity|].
    intros ps0 Hp Ht Hi. reflexivity.
Qed.

(** X21: a call of requestInject on a synchronous invoke request either
    succeeds, and then ClientContext is the base64 text of the serialized
    client context with the injected carrier and no error is logged, or
    fails at some step, and then exactly one error is logged and the
    parameters are as they were. *)
Theorem requestInject_all_or_nothing
    (rt : Runtime) (span : JSValue) (request : Request) (out : Output) :
  is_string (operation request) "invoke" = true →
  negb (truthy (prop (JObj (default [] (params request))) "InvocationType")) ||
    is_string (prop (JObj (default [] (params request))) "InvocationType") "RequestResponse"
    = true →
  (∃ clientContext injected json,
     read_client_context rt (default [] (params request)) = Return clientContext ∧
     inject_into rt span clientContext = Return injected ∧
     JSON_stringify rt injected = Return json ∧
     params (fst (requestInject rt span request out))
       = Some (set_prop "ClientContext" (JStr (Buffer_base64_encode rt json))
                 (default [] (params request))) ∧
     lambda_log (snd (requestInject rt span request out)) = lambda_log out)
  ∨
  (∃ err,
     params (fst (requestInject rt span request out)) = Some (default [] (params request)) ∧
     lambda_log (snd (requestInject rt span request out))
       = lambda_log out ++ [LogError err]).
Proof.
  intros Hop Hs. unfold requestInject. rewrite Hop, Hs.
  set (ps := default [] (params request)).
  destruct (JSON_stringify_request rt (with_params ps request));
    [|right; eexists; split; reflexivity].
  unfold mbind, Completion_bind.
  destruct (read_client_context rt ps) as [cc|e1] eqn:H1;
    [|right; eexists; split; reflexivity].
  destruct (inject_into rt span cc) as [v|e2] eqn:H2;
    [|right; eexists; split; reflexivity].
  destruct (JSON_stringify rt v) as [json|e3] eqn:H3;
    [|right; eexists; split; reflexivity].
  left. exists cc, v, json. repeat split; auto.
Qed.

Lemma requestInject_all_or_nothing_witness :
  is_string (operation (invoke_request [("FunctionName", JStr "f")])) "invoke" = true ∧
  params (fst (requestInject runtime0 (JStr "span") (invoke_request [("FunctionName", JStr "f")])
                 output0))
    = Some [("FunctionName", JStr "f");
            ("ClientContext", JStr "base64 json of undefined")] ∧
  lambda_log (snd (requestInject runtime0 (JStr "span")
                     (invoke_request [("FunctionName", JStr "f")]) output0)) = [].
Proof.
  split; [reflexivity|].
  destruct (requestInject_all_or_nothing runtime0 (JStr "span")
              (invoke_request [("FunctionName", JStr "f")]) output0 eq_refl eq_refl)
    as [(cc & v & json & _ & _ & _ & H4 & H5) | (err & _ & H2)].
  - split; [reflexivity | exact H5].
  - vm_compute in H2. destruct err; discriminate.
Defined.

(** X22: on a client context that is an object whose custom block is an
    object or is falsy, and with a tracer whose inject returns, the
    context is extended in place: custom._datadog is the injected carrier,
    replacing what was there, every other property of the context and of
    its custom block is kept. *)
Theorem inject_into_object
    (rt : Runtime) (span : JSValue) (ps : list (string * JSValue))
    (carrier : list (string * JSValue)) :
  tracer_inject rt span = Return carrier →
  (truthy (prop (JObj ps) "custom") = false ∨ ∃ cs, prop (JObj ps) "custom" = JObj cs) →
  ∃ v, inject_into rt span (JObj ps) = Return v ∧
       prop (prop v "custom") "_datadog" = JObj carrier ∧
       (∀ k, k ≠ "custom" → prop v k = prop (JObj ps) k) ∧
       (∀ k, k ≠ "_datadog" →
          prop (prop v "custom") k =
          if truthy (prop (JObj ps) "custom") then prop (prop (JObj ps) "custom") k
          else JUndefined).
Proof.
  intros Hi Hc. unfold inject_into. unfold mbind, Completion_bind, mret, Completion_ret.
  cbn [can_assign].
  assert (Hne : ∀ k k' : string, k ≠ k' → String.eqb k k' = false).
  { intros k k' H. now apply String.eqb_neq. }
  destruct Hc as [Hf | (cs & Hcs)].
  - rewrite Hf. cbn [negb can_assign]. rewrite Hi.
    eexists. split; [reflexivity|]. split; [|split].
    + rewrite prop_set_prop, String.eqb_refl, prop_set_prop, String.eqb_refl.
      reflexivity.
    + intros k Hk. rewrite prop_set_prop, (Hne _ _ Hk). reflexivity.
    + intros k Hk.
      rewrite prop_set_prop, String.eqb_refl, prop_set_prop, (Hne _ _ Hk).
      reflexivity.
  - rewrite Hcs. cbn [truthy negb can_assign]. rewrite Hi.
    eexists. split; [reflexivity|]. split; [|split].
    + rewrite prop_set_prop, String.eqb_refl, prop_set_prop, String.eqb_refl.
      reflexivity.
    + intros k Hk. rewrite prop_set_prop, (Hne _ _ Hk). reflexivity.
    + intros k Hk.
      rewrite prop_set_prop, String.eqb_refl, prop_set_prop, (Hne _ _ Hk).
      reflexivity.
Qed.

Lemma inject_into_object_witness :
  tracer_inject runtime0 (JStr "span")
    = Return [("x-datadog-trace-id", JStr "99"); ("x-datadog-parent-id", JStr "77")] ∧
  inject_into runtime0 (JStr "span")
    (JObj [("env", JStr "prod");
           ("custom", JObj [("user", JStr "u1"); ("_datadog", JStr "stale")])])
  = Return (JObj [("env", JStr "prod");
                  ("custom", JObj [("user", JStr "u1");
                                   ("_datadog",
                                    JObj [("x-datadog-trace-id", JStr "99");
                                          ("x-datadog-parent-id", JStr "77")])])]).
Proof.
  split; [reflexivity|].
  destruct (inject_into_object runtime0 (JStr "span")
              [("env", JStr "prod");
               ("custom", JObj [("user", JStr "u1"); ("_datadog", JStr "stale")])]
              [("x-datadog-trace-id", JStr "99"); ("x-datadog-parent-id", JStr "77")]
              eq_refl (or_intror (ex_intro _ _ eq_refl))) as (v & Hv & _).
  reflexivity.
Defined.

(** X23: a client context that is an array, or whose custom block is an
    array, goes through unchanged: inject_into returns it as it was, so
    the carrier is not propagated and no error is raised; a client context
    that is null or a primitive, or whose custom block is a truthy
    primitive, makes it throw a TypeError. *)
Theorem inject_into_other_shapes
    (rt : Runtime) (span clientContext : JSValue) (carrier : list (string * JSValue)) :
  tracer_inject rt span = Return carrier →
  match clientContext with
  | JArr _ => inject_into rt span clientContext = Return clientContext
  | JObj ps =>
      match prop clientContext "custom" with
      | JArr _ => inject_into rt span clientContext = Return clientContext
      | JObj _ => True
      | c => truthy c = true → ∃ msg, inject_into rt span clientContext = Throw (TypeError msg)
      end
  | _ => ∃ msg, inject_into rt span clientContext = Throw (TypeError msg)
  end.
Proof.
  intros Hi. unfold inject_into. unfold mbind, Completion_bind, mret, Completion_ret.
  destruct clientContext as [| |b|z|s|xs|ps]; cbn [can_assign truthy negb prop];
    try (eexists; reflexivity).
  - rewrite Hi. reflexivity.
  - destruct (default JUndefined (assoc "custom" ps)) as [| |b|z|s|xs|cs] eqn:Hc;
      cbn [truthy negb can_assign]; try discriminate; try exact I.
    + intros ->. cbn [can_assign]. eauto.
    + intros ->. cbn [negb can_assign]. eauto.
    + intros ->. cbn [negb can_assign]. eauto.
    + rewrite Hi. reflexivity.
Qed.

Lemma inject_into_other_shapes_witness :
  tracer_inject runtime0 (JStr "span")
    = Return [("x-datadog-trace-id", JStr "99"); ("x-datadog-parent-id", JStr "77")] ∧
  inject_into runtime0 (JStr "span") (JArr [JNum 1]) = Return (JArr [JNum 1]).
Proof.
  split; [reflexivity|].
  exact (inject_into_other_shapes runtime0 (JStr "span") (JArr [JNum 1]) _ eq_refl).
Defined.
